(** * Verification of the Slack export merger and intermediate transform

    Shallow embedding of [services/slack/merge.go] and
    [services/slack/intermediate.go] together with the properties their
    specification states about them.

    Conventions of the embedding:
    - Go [string]s are Rocq [string]s (sequences of bytes); [len] is
      [String.length], slicing is [substring];
    - Go maps are [gmap]s; a [range] over a map visits its entries in an
      order the language leaves open, which is made a parameter wherever the
      order can be observed;
    - Go [error]s are values of the inductive type [error], one constructor
      per [errors.New]/[errors.Errorf] site of the sources;
    - [int64] is [Z] with the wrap-around of [++] written out ([wrap64]);
    - [*logrus] calls append their message to a list of log lines. *)

From Stdlib Require Import ZArith Lia.
From Stdlib.Strings Require Import Byte Ascii String.
From stdpp Require Import gmap strings list fin_maps sorting.
From Equations Require Import Equations.

Set Warnings "-register-all,-clear-no-such-hyp".
#[local] Open Scope Z_scope.

(** ** Part I: definitions *)

(** *** Strings: the functions of package [strings] the sources call *)

Definition asciiZ (c : ascii) : Z := Z.of_N (N_of_ascii c).

Definition inCutset (cutset : string) (c : ascii) : bool :=
  bool_decide (c ∈ list_ascii_of_string cutset).

Fixpoint trimLeftList (cutset : string) (l : list ascii) : list ascii :=
  match l with
  | [] => []
  | c :: r => if inCutset cutset c then trimLeftList cutset r else l
  end.

(** [strings.Trim(s, cutset)] for a cutset of ASCII bytes. *)
Definition Trim (s cutset : string) : string :=
  string_of_list_ascii
    (rev (trimLeftList cutset (rev (trimLeftList cutset (list_ascii_of_string s))))).

(** [strings.ToLower] on ASCII letters; other bytes are kept. *)
Definition lowerAscii (c : ascii) : ascii :=
  let n := asciiZ c in
  if (65 <=? n) && (n <=? 90) then ascii_of_N (Z.to_N (n + 32)) else c.

Fixpoint ToLower (s : string) : string :=
  match s with
  | EmptyString => EmptyString
  | String c r => String (lowerAscii c) (ToLower r)
  end.

Definition HasSuffix (s suffix : string) : bool :=
  let n := String.length s in
  let k := String.length suffix in
  (k <=? n)%nat && bool_decide (substring (n - k) k s = suffix).

Definition TrimSuffix (s suffix : string) : string :=
  if HasSuffix s suffix then substring 0 (String.length s - String.length suffix) s else s.

(** [strings.Replace(s, ":", "_", -1)] and [strings.Contains(s, ":")]. *)
Fixpoint replaceByte (old new : ascii) (s : string) : string :=
  match s with
  | EmptyString => EmptyString
  | String c r => String (if decide (c = old) then new else c) (replaceByte old new r)
  end.

Definition containsByte (c : ascii) (s : string) : bool :=
  bool_decide (c ∈ list_ascii_of_string s).

(** [strings.Join(l, sep)]. *)
Fixpoint Join (l : list string) (sep : string) : string :=
  match l with
  | [] => ""
  | [x] => x
  | x :: r => x +:+ sep +:+ Join r sep
  end.

(** [sort.Strings]: the sorted arrangement of the slice under byte-wise
    lexicographic order. Equal strings cannot be told apart, so every
    sorting algorithm yields the same slice. *)
Definition sortStrings (l : list string) : list string := merge_sort String.le l.

(** *** Integers *)

(** The value of an [int64] computation carried out in [Z]. *)
Definition wrap64 (z : Z) : Z := (z + 2 ^ 63) mod 2 ^ 64 - 2 ^ 63.

Definition MaxInt64 : Z := 2 ^ 63 - 1.
Definition MinInt64 : Z := - 2 ^ 63.

(** *** Timestamp normalizer *)

Definition digitValue (c : ascii) : option Z :=
  let n := asciiZ c in
  if (48 <=? n) && (n <=? 57) then Some (n - 48) else None.

(** Value of a run of decimal digits, continuing from [acc]; [None] when a
    byte is not a digit. *)
Fixpoint parseDigits (s : string) (acc : Z) : option Z :=
  match s with
  | EmptyString => Some acc
  | String c r =>
      match digitValue c with
      | Some d => parseDigits r (10 * acc + d)
      | None => None
      end
  end.

(** The text before the first dot, and the text after it if there is one. *)
Fixpoint splitDot (s : string) : string * option string :=
  match s with
  | EmptyString => (EmptyString, None)
  | String c r =>
      if decide (c = "."%char) then (EmptyString, Some r)
      else let '(a, b) := splitDot r in (String c a, b)
  end.

(** A parsed decimal: sign, mantissa and number of fractional digits; its
    value is [(if neg then -1 else 1) * mant / 10 ^ digits]. *)
Record decimal := Decimal { neg : bool; mant : Z; digits : nat }.

Definition parseUnsigned (s : string) : option decimal :=
  let '(ip, fp) := splitDot s in
  match ip with
  | EmptyString => None
  | _ =>
      match parseDigits ip 0 with
      | None => None
      | Some i =>
          match fp with
          | None => Some (Decimal false i 0)
          | Some f =>
              match parseDigits f i with
              | None => None
              | Some m => Some (Decimal false m (String.length f))
              end
          end
      end
  end.

(** Modelled from the spec: the timestamp parser of [export.go] is not among
    the sources. "Parse [s] as a decimal number of seconds (0 fractional
    digits allowed, trailing [.] allowed meaning zero fraction)". *)
Definition parseSeconds (s : string) : option decimal :=
  match s with
  | String "-"%char r =>
      match parseUnsigned r with
      | Some d => Some (Decimal true (mant d) (digits d))
      | None => None
      end
  | _ => parseUnsigned s
  end.

(** [round(n / d)] for [0 <= n], [0 < d], with ties going up. *)
Definition roundHalfUp (n d : Z) : Z := (2 * n + d) / (2 * d).

(** Modelled from the spec: "compute [round(value * scale)] using
    round-half-up (ties round away from zero), returned as an integer". *)
Definition scaleDecimal (scale : Z) (d : decimal) : Z :=
  let r := roundHalfUp (scale * mant d) (10 ^ Z.of_nat (digits d)) in
  if neg d then - r else r.

(** Modelled from the spec: [SlackConvertTimeStamp] (the spec's
    [ToMilliseconds]) is defined in [export.go], which is not among the
    sources; only its test table and its callers are. "On parse failure
    return [1] (sentinel epoch, never zero). Otherwise compute
    [round(value * 1000)]". *)
Definition SlackConvertTimeStamp (ts : string) : Z :=
  match parseSeconds ts with
  | None => 1
  | Some d => scaleDecimal 1000 d
  end.

(** Modelled from the spec: "[ToMicroseconds(s)] is identical but scales by
    [1_000_000]". *)
Definition SlackConvertTimeStampToMicroSeconds (ts : string) : Z :=
  match parseSeconds ts with
  | None => 1
  | Some d => scaleDecimal 1000000 d
  end.

(** *** Decimal numerals, in the words of the specification *)

(** The character of the digit [d], and the text of a run of digits. *)
Definition digitChar (d : Z) : ascii := ascii_of_N (Z.to_N (48 + d)).

Fixpoint digitsText (ds : list Z) : string :=
  match ds with
  | [] => EmptyString
  | d :: rest => String (digitChar d) (digitsText rest)
  end.

Definition isDigits (ds : list Z) : Prop := Forall (λ d, 0 <= d <= 9) ds.

(** The number a run of digits denotes in base ten. *)
Definition digitsValue (ds : list Z) : Z := foldl (λ acc d, 10 * acc + d) 0 ds.

(** A decimal numeral: a minus sign or none, the digits of the whole
    part and, if there is a dot, the digits behind it. Its value is
    [digitsValue (whole ++ fraction) / 10 ^ length fraction], negated
    under a minus sign. *)
Definition decimalText (negative : bool) (whole : list Z) (fraction : option (list Z)) :
    string :=
  (if negative then "-" else "")
  +:+ digitsText whole
  +:+ match fraction with Some f => "." +:+ digitsText f | None => "" end.

Definition isDecimalText (s : string) : Prop :=
  ∃ negative whole fraction,
    isDigits whole ∧ whole ≠ [] ∧ from_option isDigits True fraction ∧
    s = decimalText negative whole fraction.

(** [r] is [scale * n / 10 ^ k] rounded to the nearest integer, a tie
    going up: [scale * n / 10 ^ k - 1/2 < r <= scale * n / 10 ^ k + 1/2],
    cleared of denominators. *)
Definition roundsHalfUp (scale n : Z) (k : nat) (r : Z) : Prop :=
  2 * scale * n - 10 ^ Z.of_nat k < 2 * 10 ^ Z.of_nat k * r
    <= 2 * scale * n + 10 ^ Z.of_nat k.

(** *** Data model of a Slack export

    The declarations of the raw records live in [export.go] and [models.go],
    which are not among the sources; each record below has the fields the
    sources under [services/slack] read or write. A pointer that may be
    [nil] is an [option]. *)

(** [model.ChannelType], one constant per visibility. *)
Inductive ChannelType :=
| ChannelTypeOpen | ChannelTypePrivate | ChannelTypeGroup | ChannelTypeDirect.

#[global] Instance ChannelType_eq_dec : EqDecision ChannelType.
Proof. solve_decision. Defined.

Record SlackChannelSub := { Value : string }.

#[global] Instance SlackChannelSub_eq_dec : EqDecision SlackChannelSub.
Proof. solve_decision. Defined.

Record SlackChannel := {
  sc_Id : string;
  sc_Name : string;
  sc_Creator : string;
  sc_Members : list string;
  sc_Purpose : SlackChannelSub;
  sc_Topic : SlackChannelSub;
  sc_Type : ChannelType
}.

#[global] Instance SlackChannel_eq_dec : EqDecision SlackChannel.
Proof. solve_decision. Defined.

Record SlackProfile := {
  pr_BotID : string;
  pr_FirstName : string;
  pr_LastName : string;
  pr_Title : string;
  pr_Email : string
}.

#[global] Instance SlackProfile_eq_dec : EqDecision SlackProfile.
Proof. solve_decision. Defined.

Record SlackUser := {
  su_Id : string;
  su_Username : string;
  su_IsBot : bool;
  su_Profile : SlackProfile
}.

#[global] Instance SlackUser_eq_dec : EqDecision SlackUser.
Proof. solve_decision. Defined.

Record SlackComment := { cm_User : string; cm_Comment : string }.

#[global] Instance SlackComment_eq_dec : EqDecision SlackComment.
Proof. solve_decision. Defined.

Record SlackFile := {
  sf_Id : string;
  sf_Name : string;
  sf_DownloadURL : string;
  sf_Size : Z
}.

#[global] Instance SlackFile_eq_dec : EqDecision SlackFile.
Proof. solve_decision. Defined.

Record SlackReaction := {
  sr_Name : string;
  sr_Count : Z;
  sr_Users : list string
}.

#[global] Instance SlackReaction_eq_dec : EqDecision SlackReaction.
Proof. solve_decision. Defined.

(** An attachment of a post ([model.SlackAttachment]) is carried as an
    opaque payload: the sources only count them and copy them. *)
Record SlackPost := {
  sp_User : string;
  sp_BotId : string;
  sp_BotUsername : string;
  sp_Text : string;
  sp_TimeStamp : string;
  sp_ThreadTS : string;
  sp_Type : string;
  sp_SubType : string;
  sp_Comment : option SlackComment;
  sp_Upload : bool;
  sp_File : option SlackFile;
  sp_Files : list SlackFile;
  sp_Attachments : list string;
  sp_Reactions : option (list SlackReaction);
  sp_Original : string
}.

#[global] Instance SlackPost_eq_dec : EqDecision SlackPost.
Proof. solve_decision. Defined.

Definition setOriginal (o : string) (p : SlackPost) : SlackPost :=
  {| sp_User := sp_User p; sp_BotId := sp_BotId p; sp_BotUsername := sp_BotUsername p;
     sp_Text := sp_Text p; sp_TimeStamp := sp_TimeStamp p; sp_ThreadTS := sp_ThreadTS p;
     sp_Type := sp_Type p; sp_SubType := sp_SubType p; sp_Comment := sp_Comment p;
     sp_Upload := sp_Upload p; sp_File := sp_File p; sp_Files := sp_Files p;
     sp_Attachments := sp_Attachments p; sp_Reactions := sp_Reactions p;
     sp_Original := o |}.

Definition setBotId (b : string) (p : SlackPost) : SlackPost :=
  {| sp_User := sp_User p; sp_BotId := b; sp_BotUsername := sp_BotUsername p;
     sp_Text := sp_Text p; sp_TimeStamp := sp_TimeStamp p; sp_ThreadTS := sp_ThreadTS p;
     sp_Type := sp_Type p; sp_SubType := sp_SubType p; sp_Comment := sp_Comment p;
     sp_Upload := sp_Upload p; sp_File := sp_File p; sp_Files := sp_Files p;
     sp_Attachments := sp_Attachments p; sp_Reactions := sp_Reactions p;
     sp_Original := sp_Original p |}.

(** The header fields of [archive/zip.File] that [mergeZipFile] reads, and
    those it says may differ. *)
Record ZipFile := {
  zf_Name : string;
  zf_Comment : string;
  zf_NonUTF8 : bool;
  zf_CreatorVersion : Z;
  zf_ReaderVersion : Z;
  zf_Flags : Z;
  zf_CRC32 : Z;
  zf_UncompressedSize64 : Z;
  zf_Extra : list byte;
  zf_ExternalAttrs : Z
}.

Record SlackExport := {
  TeamName : string;
  Channels : list SlackChannel;
  PublicChannels : list SlackChannel;
  PrivateChannels : list SlackChannel;
  GroupChannels : list SlackChannel;
  DirectChannels : list SlackChannel;
  Users : list SlackUser;
  Posts : gmap string (list SlackPost);
  Uploads : gmap string ZipFile
}.

(** A decoded JSON document as [encoding/json] stores it in an
    [interface{}]: a number is the bit pattern of its [float64]. *)
Inductive json :=
| JNull
| JBool (b : bool)
| JNumber (bits : Z)
| JString (s : string)
| JArray (l : list json)
| JObject (m : gmap string json).

(** A [map[string]interface{}] variable: [None] is the [nil] map. *)
Abbreviation jsonMap := (option (gmap string json)).

(** *** Errors *)

Inductive error :=
| NoExports
| TeamNamesDiffer (a b : string)
| ChannelIDsDiffer (a b : string)
| ChannelNamesDiffer (a b : string)
| ChannelCreatorsDiffer (a b : string)
| ChannelMembersDiffer (a b : list string)
| ChannelPurposesDiffer (a b : SlackChannelSub)
| ChannelTopicsDiffer (a b : SlackChannelSub)
| ChannelTypesDiffer (a b : ChannelType)
| UsersDiffer (a b : SlackUser)
| PostsUnequal (a b : SlackPost)
| JSONError (msg : string)
| PostOriginalsDiffer (a b : string)
| ZipNonUTF8Differ (a b : bool)
| ZipNamesDiffer (a b : string)
| ZipCRC32Unknown (a b : Z)
| ZipCRC32Differ (a b : Z)
| ZipSizesDiffer (a b : Z)
| ZipExtraUnparsable (name : string) (cause : error)
| ZipExtraDiffer (a b : list byte)
| ZipExternalAttrsDiffer (a b : Z)
| ExtraFieldTooLarge (size remaining : Z)
| ExtraDataLeftOver (rest : list byte).

(** The pair [(value, error)] a Go function returns. *)
Inductive result (A : Type) :=
| Ok (a : A)
| Err (e : error).
Arguments Ok {A} a.
Arguments Err {A} e.

#[global] Instance result_ret : MRet result := λ A, Ok.
#[global] Instance result_fmap : FMap result := λ A B f r,
  match r with
  | Ok a => Ok (f a)
  | Err e => Err e
  end.
#[global] Instance result_bind : MBind result := λ A B k r,
  match r with
  | Ok a => k a
  | Err e => Err e
  end.

Definition isOk {A} (r : result A) : Prop := ∃ a, r = Ok a.
Definition isErr {A} (r : result A) : Prop := ∃ e, r = Err e.

(** *** merge.go: attachment descriptors *)

Definition byteZ (b : byte) : Z := Z.of_N (Byte.to_N b).

(** [binary.LittleEndian.Uint16(b)]: [uint16(b[0]) | uint16(b[1])<<8]. *)
Definition Uint16 (b : list byte) : Z :=
  match b with
  | b0 :: b1 :: _ => Z.lor (byteZ b0) (Z.shiftl (byteZ b1) 8)
  | _ => 0
  end.

#[global] Instance byte_eq_dec : EqDecision byte := Byte.byte_eq_dec.

Definition sliceEquals {T} `{EqDecision T} (a b : list T) : bool :=
  if decide (length a ≠ length b) then false
  else forallb (λ xy, bool_decide (xy.1 = xy.2)) (zip a b).

Record zipExtraField := { field : Z; data : list byte }.

Equations? parseZipExtraFields (extra : list byte) : result (list zipExtraField)
  by wf (length extra) lt :=
  parseZipExtraFields extra with decide (4 <= length extra)%nat := {
    | left _ with decide (length extra - 4 < Z.to_nat (Uint16 (drop 2 extra)))%nat := {
        | left _ =>
            Err (ExtraFieldTooLarge (Uint16 (drop 2 extra)) (Z.of_nat (length extra - 4)))
        | right _ =>
            rest ← parseZipExtraFields (drop (Z.to_nat (Uint16 (drop 2 extra)) + 4) extra);
            Ok ({| field := Uint16 extra;
                   data := take (Z.to_nat (Uint16 (drop 2 extra))) (drop 4 extra) |} :: rest) }
    | right _ with extra := {
        | [] => Ok []
        | _ :: _ => Err (ExtraDataLeftOver extra) } }.
Proof. rewrite length_drop. lia. Qed.

Fixpoint zipExtraCanBeIgnored (extraFields : list zipExtraField) : bool :=
  match extraFields with
  | [] => true
  | f :: rest => if decide (field f = 0x5455) then zipExtraCanBeIgnored rest else false
  end.

Definition mergeZipFile (a b : ZipFile) : result ZipFile :=
  if decide (zf_NonUTF8 a ≠ zf_NonUTF8 b) then
    Err (ZipNonUTF8Differ (zf_NonUTF8 a) (zf_NonUTF8 b))
  else if decide (zf_Name a ≠ zf_Name b) then
    Err (ZipNamesDiffer (zf_Name a) (zf_Name b))
  else if decide (zf_CRC32 a = 0 ∨ zf_CRC32 b = 0) then
    Err (ZipCRC32Unknown (zf_CRC32 a) (zf_CRC32 b))
  else if decide (zf_CRC32 a ≠ zf_CRC32 b) then
    Err (ZipCRC32Differ (zf_CRC32 a) (zf_CRC32 b))
  else if decide (zf_UncompressedSize64 a ≠ zf_UncompressedSize64 b) then
    Err (ZipSizesDiffer (zf_UncompressedSize64 a) (zf_UncompressedSize64 b))
  else
    (if negb (sliceEquals (zf_Extra a) (zf_Extra b)) then
           match parseZipExtraFields (zf_Extra a) with
           | Err err => Err (ZipExtraUnparsable (zf_Name a) err)
           | Ok aExtraParsed =>
               match parseZipExtraFields (zf_Extra b) with
               | Err err => Err (ZipExtraUnparsable (zf_Name b) err)
               | Ok bExtraParsed =>
                   if negb (zipExtraCanBeIgnored aExtraParsed)
                      || negb (zipExtraCanBeIgnored bExtraParsed)
                   then Err (ZipExtraDiffer (zf_Extra a) (zf_Extra b))
                   else Ok ()
               end
           end
         else Ok ());;
    if decide (zf_ExternalAttrs a ≠ zf_ExternalAttrs b) then
      Err (ZipExternalAttrsDiffer (zf_ExternalAttrs a) (zf_ExternalAttrs b))
    else Ok a.

(** A blob the parser rejects, in the words of the specification: some
    record announces more payload than there are bytes left, or one to
    three bytes remain behind the last record. *)
Inductive Malformed : list byte → Prop :=
| Malformed_overrun extra :
    (4 <= length extra)%nat →
    (length extra - 4 < Z.to_nat (Uint16 (drop 2 extra)))%nat →
    Malformed extra
| Malformed_leftover extra :
    (1 <= length extra <= 3)%nat →
    Malformed extra
| Malformed_later extra :
    (4 <= length extra)%nat →
    (Z.to_nat (Uint16 (drop 2 extra)) <= length extra - 4)%nat →
    Malformed (drop (Z.to_nat (Uint16 (drop 2 extra)) + 4) extra) →
    Malformed extra.

(** *** merge.go: channels and users *)

Definition mergeChannel (a b : SlackChannel) : result SlackChannel :=
  if decide (sc_Id a ≠ sc_Id b) then Err (ChannelIDsDiffer (sc_Id a) (sc_Id b))
  else if decide (sc_Name a ≠ sc_Name b) then Err (ChannelNamesDiffer (sc_Name a) (sc_Name b))
  else if decide (sc_Creator a ≠ sc_Creator b) then
    Err (ChannelCreatorsDiffer (sc_Creator a) (sc_Creator b))
  else
    let aMembers := sortStrings (sc_Members a) in
    let bMembers := sortStrings (sc_Members b) in
    if decide (aMembers ≠ bMembers) then
      Err (ChannelMembersDiffer (sc_Members a) (sc_Members b))
    else if decide (sc_Purpose a ≠ sc_Purpose b) then
      Err (ChannelPurposesDiffer (sc_Purpose a) (sc_Purpose b))
    else if decide (sc_Topic a ≠ sc_Topic b) then
      Err (ChannelTopicsDiffer (sc_Topic a) (sc_Topic b))
    else if decide (sc_Type a ≠ sc_Type b) then
      Err (ChannelTypesDiffer (sc_Type a) (sc_Type b))
    else Ok a.

Definition setEmail (e : string) (u : SlackUser) : SlackUser :=
  {| su_Id := su_Id u; su_Username := su_Username u; su_IsBot := su_IsBot u;
     su_Profile :=
       {| pr_BotID := pr_BotID (su_Profile u); pr_FirstName := pr_FirstName (su_Profile u);
          pr_LastName := pr_LastName (su_Profile u); pr_Title := pr_Title (su_Profile u);
          pr_Email := e |} |}.

Definition mergeUser (a b : SlackUser) : result SlackUser :=
  if decide (a = b) then Ok a
  else
    let a' := if decide (pr_Email (su_Profile a) = "")
              then setEmail (pr_Email (su_Profile b)) a else a in
    let b' := if decide (pr_Email (su_Profile b) = "")
              then setEmail (pr_Email (su_Profile a')) b else b in
    if decide (a' = b') then Ok a' else Err (UsersDiffer a' b').

(** *** merge.go: posts *)

Definition stripBlock (block : json) : json :=
  match block with
  | JObject blockMap => JObject (delete "block_id" blockMap)
  | _ => block
  end.

(** The body of the loop of [postOriginalEquivalent] for one document. The
    block maps are shared with the array that holds them, so deleting from
    them changes the entry under ["blocks"]. *)
Definition stripVolatile (m : jsonMap) : jsonMap :=
  match m with
  | None => None
  | Some m =>
      let m := delete "last_read" m in
      let m := delete "subscribed" m in
      match m !! "blocks" with
      | Some (JArray blocks) => Some (<["blocks" := JArray (stripBlock <$> blocks)]> m)
      | _ => Some m
      end
  end.

Section Merge.
(** [json.Unmarshal] into a [map[string]interface{}] and [json.Marshal]
    of one: the codec of the Go standard library. *)
Variable Unmarshal : string → result jsonMap.
Variable Marshal : jsonMap → result string.

(** The order in which a [range] visits the entries of a map. *)
Variable rangeMap : ∀ V : Type, gmap string V → list (string * V).

Definition postOriginalEquivalent (a b : string) : result bool :=
  m1 ← Unmarshal a;
  m2 ← Unmarshal b;
  let m1 := stripVolatile m1 in
  let m2 := stripVolatile m2 in
  modifiedJSON1 ← Marshal m1;
  modifiedJSON2 ← Marshal m2;
  Ok (bool_decide (modifiedJSON1 = modifiedJSON2)).

Definition mergePost (a b : SlackPost) : result SlackPost :=
  let aCopy := setOriginal "" a in
  let bCopy := setOriginal "" b in
  if decide (aCopy ≠ bCopy) then Err (PostsUnequal a b)
  else
    originalsAreEquivalent ← postOriginalEquivalent (sp_Original a) (sp_Original b);
    if negb originalsAreEquivalent then
      Err (PostOriginalsDiffer (sp_Original a) (sp_Original b))
    else Ok a.

(** *** merge.go: the generic merges *)

Definition cloneSlice {T} (slice : list T) : list T := slice.
Definition cloneMap {V} (m : gmap string V) : gmap string V := m.

(** The inner loop of [mergeSlicesWith] over one source slice. *)
Fixpoint mergeItems {T} (id : T → string) (merge : T → T → result T)
    (source : list T) (itemMap : gmap string T) : result (gmap string T) :=
  match source with
  | [] => Ok itemMap
  | item :: rest =>
      let itemId := id item in
      match itemMap !! itemId with
      | Some existing =>
          mergedItem ← merge existing item;
          mergeItems id merge rest (<[itemId := mergedItem]> itemMap)
      | None => mergeItems id merge rest (<[itemId := item]> itemMap)
      end
  end.

Definition mergeSlicesWith {T} (a b : list T) (id : T → string)
    (merge : T → T → result T) : result (list T) :=
  itemMap ← mergeItems id merge a ∅;
  itemMap ← mergeItems id merge b itemMap;
  Ok (rangeMap T itemMap).*2.

(** The loop of [mergeMapsWith] over the entries of [b] in the order the
    [range] yields them. *)
Fixpoint mergeEntries {V} (merge : V → V → result V)
    (entries : list (string * V)) (ret : gmap string V) : result (gmap string V) :=
  match entries with
  | [] => Ok ret
  | (k, v) :: rest =>
      match ret !! k with
      | Some existing =>
          merged ← merge existing v;
          mergeEntries merge rest (<[k := merged]> ret)
      | None => mergeEntries merge rest (<[k := v]> ret)
      end
  end.

Definition mergeMapsWith {V} (a b : gmap string V)
    (merge : V → V → result V) : result (gmap string V) :=
  mergeEntries merge (rangeMap V b) (cloneMap a).

Definition mergeChannels (a b : list SlackChannel) : result (list SlackChannel) :=
  mergeSlicesWith a b sc_Id mergeChannel.

Definition mergeUsers (a b : list SlackUser) : result (list SlackUser) :=
  mergeSlicesWith a b su_Id mergeUser.

Definition mergePostSlice (a b : list SlackPost) : result (list SlackPost) :=
  mergeSlicesWith a b sp_TimeStamp mergePost.

Definition mergePosts (a b : gmap string (list SlackPost)) :
    result (gmap string (list SlackPost)) :=
  mergeMapsWith a b mergePostSlice.

Definition mergeUploads (a b : gmap string ZipFile) : result (gmap string ZipFile) :=
  mergeMapsWith a b mergeZipFile.

(** *** merge.go: [MergeSlackExports] *)

(** The first round of the loop ([i == 0]). *)
Definition cloneExport (slackExport : SlackExport) : SlackExport :=
  {| TeamName := TeamName slackExport;
     Channels := cloneSlice (Channels slackExport);
     PublicChannels := cloneSlice (PublicChannels slackExport);
     PrivateChannels := cloneSlice (PrivateChannels slackExport);
     GroupChannels := cloneSlice (GroupChannels slackExport);
     DirectChannels := cloneSlice (DirectChannels slackExport);
     Users := cloneSlice (Users slackExport);
     Posts := cloneMap (Posts slackExport);
     Uploads := cloneMap (Uploads slackExport) |}.

(** A later round of the loop ([i > 0]). *)
Definition mergeExport (result0 slackExport : SlackExport) : result SlackExport :=
  if decide (TeamName result0 ≠ TeamName slackExport) then
    Err (TeamNamesDiffer (TeamName result0) (TeamName slackExport))
  else
    channels ← mergeChannels (Channels result0) (Channels slackExport);
    publicChannels ← mergeChannels (PublicChannels result0) (PublicChannels slackExport);
    privateChannels ← mergeChannels (PrivateChannels result0) (PrivateChannels slackExport);
    groupChannels ← mergeChannels (GroupChannels result0) (GroupChannels slackExport);
    directChannels ← mergeChannels (DirectChannels result0) (DirectChannels slackExport);
    users ← mergeUsers (Users result0) (Users slackExport);
    posts ← mergePosts (Posts result0) (Posts slackExport);
    uploads ← mergeUploads (Uploads result0) (Uploads slackExport);
    Ok {| TeamName := TeamName result0;
          Channels := channels;
          PublicChannels := publicChannels;
          PrivateChannels := privateChannels;
          GroupChannels := groupChannels;
          DirectChannels := directChannels;
          Users := users;
          Posts := posts;
          Uploads := uploads |}.

Fixpoint mergeRounds (result0 : SlackExport) (rest : list SlackExport) :
    result SlackExport :=
  match rest with
  | [] => Ok result0
  | slackExport :: rest' =>
      result1 ← mergeExport result0 slackExport;
      mergeRounds result1 rest'
  end.

Definition MergeSlackExports (slackExports : list SlackExport) : result SlackExport :=
  match slackExports with
  | [] => Err NoExports
  | [slackExport] => Ok slackExport
  | slackExport :: rest => mergeRounds (cloneExport slackExport) rest
  end.
End Merge.

(** *** Reconciliation conditions in the words of the specification *)

(** The scalar fields of two channels are exactly equal. *)
Definition scalarsAgree (a b : SlackChannel) : Prop :=
  sc_Id a = sc_Id b ∧ sc_Name a = sc_Name b ∧ sc_Creator a = sc_Creator b ∧
  sc_Purpose a = sc_Purpose b ∧ sc_Topic a = sc_Topic b ∧ sc_Type a = sc_Type b.

(** Every field of two posts except the raw-original capture is exactly
    equal. *)
Definition agreeExceptOriginal (a b : SlackPost) : Prop :=
  sp_User a = sp_User b ∧ sp_BotId a = sp_BotId b ∧
  sp_BotUsername a = sp_BotUsername b ∧ sp_Text a = sp_Text b ∧
  sp_TimeStamp a = sp_TimeStamp b ∧ sp_ThreadTS a = sp_ThreadTS b ∧
  sp_Type a = sp_Type b ∧ sp_SubType a = sp_SubType b ∧
  sp_Comment a = sp_Comment b ∧ sp_Upload a = sp_Upload b ∧
  sp_File a = sp_File b ∧ sp_Files a = sp_Files b ∧
  sp_Attachments a = sp_Attachments b ∧ sp_Reactions a = sp_Reactions b.

(** Both originals parse, and what is left of them after the stripping
    serializes to one and the same string. *)
Definition originalsEquivalent (Unmarshal : string → result jsonMap)
    (Marshal : jsonMap → result string) (a b : string) : Prop :=
  ∃ m1 m2 s,
    Unmarshal a = Ok m1 ∧ Unmarshal b = Ok m2 ∧
    Marshal (stripVolatile m1) = Ok s ∧ Marshal (stripVolatile m2) = Ok s.

(** The original of a post parses and what is left of it serializes. *)
Definition originalReadable (Unmarshal : string → result jsonMap)
    (Marshal : jsonMap → result string) (p : SlackPost) : Prop :=
  ∃ m s, Unmarshal (sp_Original p) = Ok m ∧ Marshal (stripVolatile m) = Ok s.

(** An export in which no identity key occurs twice within a collection and
    every entity can be reconciled with a copy of itself. *)
Record selfMergeable (Unmarshal : string → result jsonMap)
    (Marshal : jsonMap → result string) (e : SlackExport) : Prop := {
  sm_Channels : NoDup (sc_Id <$> Channels e);
  sm_PublicChannels : NoDup (sc_Id <$> PublicChannels e);
  sm_PrivateChannels : NoDup (sc_Id <$> PrivateChannels e);
  sm_GroupChannels : NoDup (sc_Id <$> GroupChannels e);
  sm_DirectChannels : NoDup (sc_Id <$> DirectChannels e);
  sm_Users : NoDup (su_Id <$> Users e);
  sm_Posts : ∀ k ps, Posts e !! k = Some ps →
    NoDup (sp_TimeStamp <$> ps) ∧ Forall (originalReadable Unmarshal Marshal) ps;
  sm_Uploads : ∀ k f, Uploads e !! k = Some f → zf_CRC32 f ≠ 0
}.

(** Two exports with the same entities, the order within each slice left
    open. *)
Record sameEntities (r e : SlackExport) : Prop := {
  se_TeamName : TeamName r = TeamName e;
  se_Channels : Channels r ≡ₚ Channels e;
  se_PublicChannels : PublicChannels r ≡ₚ PublicChannels e;
  se_PrivateChannels : PrivateChannels r ≡ₚ PrivateChannels e;
  se_GroupChannels : GroupChannels r ≡ₚ GroupChannels e;
  se_DirectChannels : DirectChannels r ≡ₚ DirectChannels e;
  se_Users : Users r ≡ₚ Users e;
  se_Posts : ∀ k, option_Forall2 (≡ₚ) (Posts r !! k) (Posts e !! k);
  se_Uploads : Uploads r = Uploads e
}.

(** Every [range] visits each entry of the map once. *)
Definition visitsAll (rangeMap : ∀ V : Type, gmap string V → list (string * V)) : Prop :=
  ∀ V (m : gmap string V), rangeMap V m ≡ₚ map_to_list m.

(** The entries a slice contributes to the item map of [mergeSlicesWith]. *)
Definition keyed {T} (id : T → string) (l : list T) : list (string * T) :=
  (λ x, (id x, x)) <$> l.

(** *** intermediate.go: the intermediate model *)

Record IntermediateChannel := {
  ic_Id : string;
  ic_OriginalName : string;
  ic_Name : string;
  ic_DisplayName : string;
  ic_Members : list string;
  ic_MembersUsernames : list string;
  ic_Purpose : string;
  ic_Header : string;
  ic_Topic : string;
  ic_Type : ChannelType
}.

Record IntermediateUser := {
  iu_Id : string;
  iu_Username : string;
  iu_FirstName : string;
  iu_LastName : string;
  iu_Position : string;
  iu_Email : string;
  iu_Password : string;
  iu_Memberships : list string
}.

(** [imports.ReactionImportData]. *)
Record ReactionImportData := {
  rd_User : string;
  rd_CreateAt : Z;
  rd_EmojiName : string
}.

(** The values [GetPropsForPost] stores in a [model.StringInterface]. *)
Inductive PropValue :=
| PropAttachments (attachments : list string)
| PropString (s : string).

(** A post owns its replies. The sources hold posts by pointer; a post is
    referenced either from the [threads] map or from the reply slice of one
    root, never from two places, so that updating it in place is updating
    the value stored there. The [nil] props map is the empty map. *)
Inductive IntermediatePost := {
  ip_User : string;
  ip_Channel : string;
  ip_Message : string;
  ip_Props : gmap string PropValue;
  ip_CreateAt : Z;
  ip_Attachments : list string;
  ip_Replies : list IntermediatePost;
  ip_IsDirect : bool;
  ip_ChannelMembers : list string;
  ip_Reactions : option (list ReactionImportData)
}.

(** A line written through [t.Logger] or through the package logger. *)
Inductive logLine :=
| Info (msg : string)
| Debug (msg : string)
| Warn (msg : string)
| Error (msg : string)
| Print (msg : string).

(** The part of the [Transformer] the modelled functions touch: the user
    index and the override tables of its [Intermediate], its logger, and
    the number of identifiers drawn from [model.NewId] so far. *)
Record Transformer := {
  UsersById : gmap string IntermediateUser;
  UserOverrides : gmap string IntermediateUser;
  ChannelOverrides : gmap string IntermediateChannel;
  Logger : list logLine;
  idsDrawn : nat
}.

Definition logged (line : logLine) (t : Transformer) : Transformer :=
  {| UsersById := UsersById t; UserOverrides := UserOverrides t;
     ChannelOverrides := ChannelOverrides t; Logger := Logger t ++ [line];
     idsDrawn := idsDrawn t |}.

Definition withUser (userID : string) (user : IntermediateUser) (t : Transformer) :
    Transformer :=
  {| UsersById := <[userID := user]> (UsersById t); UserOverrides := UserOverrides t;
     ChannelOverrides := ChannelOverrides t; Logger := Logger t;
     idsDrawn := idsDrawn t |}.

Definition drawId (t : Transformer) : Transformer :=
  {| UsersById := UsersById t; UserOverrides := UserOverrides t;
     ChannelOverrides := ChannelOverrides t; Logger := Logger t;
     idsDrawn := S (idsDrawn t) |}.

(** Field assignments. *)
Definition setName (v : string) (c : IntermediateChannel) : IntermediateChannel :=
  {| ic_Id := ic_Id c; ic_OriginalName := ic_OriginalName c; ic_Name := v;
     ic_DisplayName := ic_DisplayName c; ic_Members := ic_Members c;
     ic_MembersUsernames := ic_MembersUsernames c; ic_Purpose := ic_Purpose c;
     ic_Header := ic_Header c; ic_Topic := ic_Topic c; ic_Type := ic_Type c |}.
Definition setDisplayName (v : string) (c : IntermediateChannel) : IntermediateChannel :=
  {| ic_Id := ic_Id c; ic_OriginalName := ic_OriginalName c; ic_Name := ic_Name c;
     ic_DisplayName := v; ic_Members := ic_Members c;
     ic_MembersUsernames := ic_MembersUsernames c; ic_Purpose := ic_Purpose c;
     ic_Header := ic_Header c; ic_Topic := ic_Topic c; ic_Type := ic_Type c |}.
Definition setPurpose (v : string) (c : IntermediateChannel) : IntermediateChannel :=
  {| ic_Id := ic_Id c; ic_OriginalName := ic_OriginalName c; ic_Name := ic_Name c;
     ic_DisplayName := ic_DisplayName c; ic_Members := ic_Members c;
     ic_MembersUsernames := ic_MembersUsernames c; ic_Purpose := v;
     ic_Header := ic_Header c; ic_Topic := ic_Topic c; ic_Type := ic_Type c |}.
Definition setHeader (v : string) (c : IntermediateChannel) : IntermediateChannel :=
  {| ic_Id := ic_Id c; ic_OriginalName := ic_OriginalName c; ic_Name := ic_Name c;
     ic_DisplayName := ic_DisplayName c; ic_Members := ic_Members c;
     ic_MembersUsernames := ic_MembersUsernames c; ic_Purpose := ic_Purpose c;
     ic_Header := v; ic_Topic := ic_Topic c; ic_Type := ic_Type c |}.
Definition setTopic (v : string) (c : IntermediateChannel) : IntermediateChannel :=
  {| ic_Id := ic_Id c; ic_OriginalName := ic_OriginalName c; ic_Name := ic_Name c;
     ic_DisplayName := ic_DisplayName c; ic_Members := ic_Members c;
     ic_MembersUsernames := ic_MembersUsernames c; ic_Purpose := ic_Purpose c;
     ic_Header := ic_Header c; ic_Topic := v; ic_Type := ic_Type c |}.

Definition setUsername (v : string) (u : IntermediateUser) : IntermediateUser :=
  {| iu_Id := iu_Id u; iu_Username := v; iu_FirstName := iu_FirstName u;
     iu_LastName := iu_LastName u; iu_Position := iu_Position u; iu_Email := iu_Email u;
     iu_Password := iu_Password u; iu_Memberships := iu_Memberships u |}.
Definition setFirstName (v : string) (u : IntermediateUser) : IntermediateUser :=
  {| iu_Id := iu_Id u; iu_Username := iu_Username u; iu_FirstName := v;
     iu_LastName := iu_LastName u; iu_Position := iu_Position u; iu_Email := iu_Email u;
     iu_Password := iu_Password u; iu_Memberships := iu_Memberships u |}.
Definition setLastName (v : string) (u : IntermediateUser) : IntermediateUser :=
  {| iu_Id := iu_Id u; iu_Username := iu_Username u; iu_FirstName := iu_FirstName u;
     iu_LastName := v; iu_Position := iu_Position u; iu_Email := iu_Email u;
     iu_Password := iu_Password u; iu_Memberships := iu_Memberships u |}.
Definition setPosition (v : string) (u : IntermediateUser) : IntermediateUser :=
  {| iu_Id := iu_Id u; iu_Username := iu_Username u; iu_FirstName := iu_FirstName u;
     iu_LastName := iu_LastName u; iu_Position := v; iu_Email := iu_Email u;
     iu_Password := iu_Password u; iu_Memberships := iu_Memberships u |}.
Definition setUserEmail (v : string) (u : IntermediateUser) : IntermediateUser :=
  {| iu_Id := iu_Id u; iu_Username := iu_Username u; iu_FirstName := iu_FirstName u;
     iu_LastName := iu_LastName u; iu_Position := iu_Position u; iu_Email := v;
     iu_Password := iu_Password u; iu_Memberships := iu_Memberships u |}.
Definition setPassword (v : string) (u : IntermediateUser) : IntermediateUser :=
  {| iu_Id := iu_Id u; iu_Username := iu_Username u; iu_FirstName := iu_FirstName u;
     iu_LastName := iu_LastName u; iu_Position := iu_Position u; iu_Email := iu_Email u;
     iu_Password := v; iu_Memberships := iu_Memberships u |}.

Definition setProps (v : gmap string PropValue) (p : IntermediatePost) : IntermediatePost :=
  {| ip_User := ip_User p; ip_Channel := ip_Channel p; ip_Message := ip_Message p;
     ip_Props := v; ip_CreateAt := ip_CreateAt p; ip_Attachments := ip_Attachments p;
     ip_Replies := ip_Replies p; ip_IsDirect := ip_IsDirect p;
     ip_ChannelMembers := ip_ChannelMembers p; ip_Reactions := ip_Reactions p |}.
Definition setCreateAt (v : Z) (p : IntermediatePost) : IntermediatePost :=
  {| ip_User := ip_User p; ip_Channel := ip_Channel p; ip_Message := ip_Message p;
     ip_Props := ip_Props p; ip_CreateAt := v; ip_Attachments := ip_Attachments p;
     ip_Replies := ip_Replies p; ip_IsDirect := ip_IsDirect p;
     ip_ChannelMembers := ip_ChannelMembers p; ip_Reactions := ip_Reactions p |}.
Definition setAttachments (v : list string) (p : IntermediatePost) : IntermediatePost :=
  {| ip_User := ip_User p; ip_Channel := ip_Channel p; ip_Message := ip_Message p;
     ip_Props := ip_Props p; ip_CreateAt := ip_CreateAt p; ip_Attachments := v;
     ip_Replies := ip_Replies p; ip_IsDirect := ip_IsDirect p;
     ip_ChannelMembers := ip_ChannelMembers p; ip_Reactions := ip_Reactions p |}.
Definition setReplies (v : list IntermediatePost) (p : IntermediatePost) : IntermediatePost :=
  {| ip_User := ip_User p; ip_Channel := ip_Channel p; ip_Message := ip_Message p;
     ip_Props := ip_Props p; ip_CreateAt := ip_CreateAt p; ip_Attachments := ip_Attachments p;
     ip_Replies := v; ip_IsDirect := ip_IsDirect p;
     ip_ChannelMembers := ip_ChannelMembers p; ip_Reactions := ip_Reactions p |}.
Definition setIsDirect (v : bool) (p : IntermediatePost) : IntermediatePost :=
  {| ip_User := ip_User p; ip_Channel := ip_Channel p; ip_Message := ip_Message p;
     ip_Props := ip_Props p; ip_CreateAt := ip_CreateAt p; ip_Attachments := ip_Attachments p;
     ip_Replies := ip_Replies p; ip_IsDirect := v;
     ip_ChannelMembers := ip_ChannelMembers p; ip_Reactions := ip_Reactions p |}.
Definition setChannelMembers (v : list string) (p : IntermediatePost) : IntermediatePost :=
  {| ip_User := ip_User p; ip_Channel := ip_Channel p; ip_Message := ip_Message p;
     ip_Props := ip_Props p; ip_CreateAt := ip_CreateAt p; ip_Attachments := ip_Attachments p;
     ip_Replies := ip_Replies p; ip_IsDirect := ip_IsDirect p;
     ip_ChannelMembers := v; ip_Reactions := ip_Reactions p |}.

(** *** intermediate.go: [Sanitise] *)

Section Sanitise.
(** Limits of package [model], and helpers defined outside the sources. *)
Variables ChannelNameMaxLength ChannelDisplayNameMaxRunes : nat.
Variables ChannelPurposeMaxRunes ChannelHeaderMaxRunes : nat.
Variable isValidChannelNameCharacters : string → bool.
Variable truncateRunes : string → nat → string.
Variable RuneCountInString : string → nat.

Definition exceeds (what : string) (c : IntermediateChannel) : logLine :=
  Warn ("Channel " +:+ ic_DisplayName c +:+ " " +:+ what
        +:+ " exceeds the maximum length. It will be truncated when imported.").

Definition Sanitise (c : IntermediateChannel) (logger : list logLine) :
    IntermediateChannel * list logLine :=
  if decide (ic_Type c = ChannelTypeDirect) then (c, logger)
  else
    let c := setName (Trim (ic_Name c) "_-") c in
    let '(c, logger) :=
      if decide (ChannelNameMaxLength < String.length (ic_Name c))%nat then
        (setName (substring 0 ChannelNameMaxLength (ic_Name c)) c,
         logger ++ [exceeds "handle" c])
      else (c, logger) in
    let c := if decide (String.length (ic_Name c) = 1%nat)
             then setName ("slack-channel-" +:+ ic_Name c) c else c in
    let c := if negb (isValidChannelNameCharacters (ic_Name c))
             then setName (ToLower (ic_Id c)) c else c in
    let c := setDisplayName (Trim (ic_DisplayName c) "_-") c in
    let '(c, logger) :=
      if decide (ChannelDisplayNameMaxRunes < RuneCountInString (ic_DisplayName c))%nat then
        (setDisplayName (truncateRunes (ic_DisplayName c) ChannelDisplayNameMaxRunes) c,
         logger ++ [exceeds "display name" c])
      else (c, logger) in
    let c := if decide (String.length (ic_DisplayName c) = 1%nat)
             then setDisplayName ("slack-channel-" +:+ ic_DisplayName c) c else c in
    let '(c, logger) :=
      if decide (ChannelPurposeMaxRunes < RuneCountInString (ic_Purpose c))%nat then
        (setPurpose (truncateRunes (ic_Purpose c) ChannelPurposeMaxRunes) c,
         logger ++ [exceeds "purpose" c])
      else (c, logger) in
    let '(c, logger) :=
      if decide (ChannelHeaderMaxRunes < RuneCountInString (ic_Header c))%nat then
        (setHeader (truncateRunes (ic_Header c) ChannelHeaderMaxRunes) c,
         logger ++ [exceeds "header" c])
      else (c, logger) in
    (c, logger).
End Sanitise.

(** *** intermediate.go: overrides *)

Definition ApplyUserOverrides (t : Transformer) (user : IntermediateUser) :
    IntermediateUser * Transformer :=
  if decide (size (UserOverrides t) = 0%nat) then (user, t)
  else
    match UserOverrides t !! iu_Username user with
    | Some overrideUser =>
        let user := if decide (iu_Username overrideUser ≠ "")
                    then setUsername (iu_Username overrideUser) user else user in
        let user :=
          if decide (iu_FirstName overrideUser ≠ "") then
            let user := setFirstName (iu_FirstName overrideUser) user in
            if decide (iu_FirstName user = "-") then setFirstName "" user else user
          else user in
        let user :=
          if decide (iu_LastName overrideUser ≠ "") then
            let user := setLastName (iu_LastName overrideUser) user in
            if decide (iu_LastName user = "-") then setLastName "" user else user
          else user in
        let user :=
          if decide (iu_Position overrideUser ≠ "") then
            let user := setPosition (iu_Position overrideUser) user in
            if decide (iu_Position user = "-") then setPosition "" user else user
          else user in
        let user := if decide (iu_Email overrideUser ≠ "")
                    then setUserEmail (iu_Email overrideUser) user else user in
        let user := if decide (iu_Password overrideUser ≠ "")
                    then setPassword (iu_Password overrideUser) user else user in
        (user, t)
    | None =>
        (user, logged (Warn ("No user override found for user " +:+ iu_Username user)) t)
    end.

Definition ApplyChannelOverrides (t : Transformer) (channel : IntermediateChannel) :
    IntermediateChannel * Transformer :=
  if decide (size (ChannelOverrides t) = 0%nat) then (channel, t)
  else
    match ChannelOverrides t !! ic_Name channel with
    | Some overrideChannel =>
        let channel :=
          if decide (ic_Name overrideChannel ≠ "") then
            let channel := setName (ic_Name overrideChannel) channel in
            if decide (ic_Name channel = "-") then setName "" channel else channel
          else channel in
        let channel :=
          if decide (ic_DisplayName overrideChannel ≠ "") then
            let channel := setDisplayName (ic_DisplayName overrideChannel) channel in
            if decide (ic_DisplayName channel = "-") then setDisplayName "" channel
            else channel
          else channel in
        let channel :=
          if decide (ic_Purpose overrideChannel ≠ "") then
            let channel := setPurpose (ic_Purpose overrideChannel) channel in
            if decide (ic_Purpose channel = "-") then setPurpose "" channel else channel
          else channel in
        let channel :=
          if decide (ic_Header overrideChannel ≠ "") then
            let channel := setHeader (ic_Header overrideChannel) channel in
            if decide (ic_Header channel = "-") then setHeader "" channel else channel
          else channel in
        let channel :=
          if decide (ic_Topic overrideChannel ≠ "") then
            let channel := setTopic (ic_Topic overrideChannel) channel in
            if decide (ic_Topic channel = "-") then setTopic "" channel else channel
          else channel in
        (channel, t)
    | None =>
        (channel,
         logged (Warn ("No channel override found for channel " +:+ ic_Name channel)) t)
    end.

(** The value an override field [o] gives to a target field holding [v]:
    with the dash reading, and with the field copied as it is. *)
Definition overridden (o v : string) : string :=
  if decide (o = "") then v else if decide (o = "-") then "" else o.
Definition copied (o v : string) : string :=
  if decide (o = "") then v else o.

(** *** intermediate.go: thread assembly *)

(** The loop "avoid timestamp duplications": [createAt] is incremented
    until it is not a key of [timestamps]. [fuel] bounds the number of
    rounds; [freeTimestamp] allows one round more than the map has keys,
    which the loop never needs (lemma [freeTimestamp_fresh]). *)
Fixpoint nextFree (fuel : nat) (timestamps : gset Z) (createAt : Z) : Z :=
  match fuel with
  | O => createAt
  | S fuel' =>
      if decide (createAt ∈ timestamps)
      then nextFree fuel' timestamps (wrap64 (createAt + 1))
      else createAt
  end.

Definition freeTimestamp (timestamps : gset Z) (createAt : Z) : Z :=
  nextFree (S (size timestamps)) timestamps createAt.

(** The [threads] map, the [timestamps] set (a [map[int64]bool] whose keys
    alone are used) and the lines printed through the package logger. *)
Record ThreadState := {
  threads : gmap string IntermediatePost;
  timestamps : gset Z;
  printed : list logLine
}.

Definition noThreads : ThreadState :=
  {| threads := ∅; timestamps := ∅; printed := [] |}.

Definition isReply (original : SlackPost) : bool :=
  bool_decide (sp_ThreadTS original ≠ "" ∧ sp_ThreadTS original ≠ sp_TimeStamp original).

(** The first half of [AddPostToThreads]: the fields it assigns to [post]
    before the post is linked. *)
Definition placePost (channel : IntermediateChannel) (timestamps : gset Z)
    (post : IntermediatePost) : IntermediatePost :=
  let post :=
    if decide (ic_Type channel = ChannelTypeDirect ∨ ic_Type channel = ChannelTypeGroup)
    then setChannelMembers (ic_MembersUsernames channel) (setIsDirect true post)
    else setIsDirect false post in
  setCreateAt (freeTimestamp timestamps (ip_CreateAt post)) post.

Definition overwriting (key : string) (st : ThreadState) : list logLine :=
  match threads st !! key with
  | Some _ => [Print ("WARNING: overwriting root post for thread " +:+ key)]
  | None => []
  end.

Definition AddPostToThreads (original : SlackPost) (post : IntermediatePost)
    (channel : IntermediateChannel) (st : ThreadState) : ThreadState :=
  let post := placePost channel (timestamps st) post in
  let timestamps' := {[ip_CreateAt post]} ∪ timestamps st in
  if isReply original then
    match threads st !! sp_ThreadTS original with
    | None =>
        {| threads := threads st; timestamps := timestamps';
           printed := printed st
             ++ [Print "ERROR processing post in thread, couldn't find rootPost"] |}
    | Some rootPost =>
        {| threads := <[sp_ThreadTS original :=
                          setReplies (ip_Replies rootPost ++ [post]) rootPost]> (threads st);
           timestamps := timestamps'; printed := printed st |}
    end
  else if decide (sp_TimeStamp original = sp_ThreadTS original) then
    {| threads := <[sp_ThreadTS original := post]> (threads st);
       timestamps := timestamps';
       printed := printed st ++ overwriting (sp_ThreadTS original) st |}
  else
    {| threads := <[sp_TimeStamp original := post]> (threads st);
       timestamps := timestamps';
       printed := printed st ++ overwriting (sp_TimeStamp original) st |}.

(** A run of calls of [AddPostToThreads] for one channel. *)
Definition addAll (channel : IntermediateChannel)
    (calls : list (SlackPost * IntermediatePost)) (st : ThreadState) : ThreadState :=
  foldl (λ st call, AddPostToThreads call.1 call.2 channel st) st calls.

(** The posts a thread state holds: each root followed by its replies. In
    [TransformPosts] the roots are collected by a [range] over [threads];
    [rangeMap] is the order of that [range]. *)
Definition withReplies (post : IntermediatePost) : list IntermediatePost :=
  post :: ip_Replies post.

Definition emitted (rangeMap : ∀ V : Type, gmap string V → list (string * V))
    (st : ThreadState) : list IntermediatePost :=
  (rangeMap _ (threads st)).*2 ≫= withReplies.

(** *** intermediate.go: authors, reactions, posts *)

Section Posts.
(** [model.NewId()], by the number of identifiers drawn before. *)
Variable NewId : nat → string.
(** The embedded table [supported_emojis.txt]. *)
Variable supportedEmojis : gset string.
(** [model.PostPropsMaxRunes], and the rune count of the JSON encoding of
    a props map. *)
Variable PostPropsMaxRunes : nat.
Variable propsRuneCount : gmap string PropValue → nat.
(** [AddFilesToPost] copies or downloads the files of a post; what
    remains of it here are the attachment paths it appends and the lines
    it logs. *)
Variable AddFilesToPost : SlackPost → bool → bool → list string * list logLine.
(** The predicates of [SlackPost] that select the kind of a post. *)
Variables IsPlainMessage IsFileComment IsBotMessage IsJoinLeaveMessage : SlackPost → bool.
Variables IsMeMessage IsChannelTopicMessage IsChannelPurposeMessage : SlackPost → bool.
Variable IsChannelNameMessage : SlackPost → bool.
(** [sort.Slice] by the microsecond timestamp. *)
Variable sortByMicroSeconds : list SlackPost → list SlackPost.

Definition CreateIntermediateUser (t : Transformer) (userID : string) : Transformer :=
  let newUser :=
    {| iu_Id := userID;
       iu_Username := ToLower userID;
       iu_FirstName := "Deleted";
       iu_LastName := "User";
       iu_Position := "";
       iu_Email := userID +:+ "@local";
       iu_Password := NewId (idsDrawn t);
       iu_Memberships := [] |} in
  let t := drawId t in
  let '(newUser, t) := ApplyUserOverrides t newUser in
  let t := withUser userID newUser t in
  logged (Warn ("Created a new user because the original user was missing from "
                +:+ "the import files. user=" +:+ userID)) t.

(** The zero value of [IntermediateUser]; it stands where the sources
    would dereference a [nil] entry of the user index, which does not
    happen right after [CreateIntermediateUser] has filled the entry. *)
Definition noUser : IntermediateUser :=
  {| iu_Id := ""; iu_Username := ""; iu_FirstName := ""; iu_LastName := "";
     iu_Position := ""; iu_Email := ""; iu_Password := ""; iu_Memberships := [] |}.

(** [author := UsersById[lookupID]; if author == nil {
      CreateIntermediateUser(createID); author = UsersById[createID] }]. *)
Definition authorOf (t : Transformer) (lookupID createID : string) :
    IntermediateUser * Transformer :=
  match UsersById t !! lookupID with
  | Some author => (author, t)
  | None =>
      let t := CreateIntermediateUser t createID in
      (default noUser (UsersById t !! createID), t)
  end.

Definition skinTones : list (string * string) :=
  [("::skin-tone-2", "_light_skin_tone");
   ("::skin-tone-3", "_medium_light_skin_tone");
   ("::skin-tone-4", "_medium_skin_tone");
   ("::skin-tone-5", "_medium_dark_skin_tone");
   ("::skin-tone-6", "_dark_skin_tone")].

(** [fuel] bounds the depth of the recursion, which strips a non-empty
    suffix at each level. *)
Fixpoint convertEmojiName (fuel : nat) (t : Transformer) (slackEmojiName : string) :
    string * Transformer :=
  let ret := slackEmojiName in
  match list_find (λ skinTone, HasSuffix ret skinTone.1 = true) skinTones, fuel with
  | Some (_, skinTone), S fuel' =>
      let '(base, t) := convertEmojiName fuel' t (TrimSuffix ret skinTone.1) in
      (base +:+ skinTone.2, t)
  | _, _ =>
      let '(ret, t) :=
        if containsByte ":" ret
        then (replaceByte ":" "_" ret,
              logged (Warn ("Unsupported compound emoji. emoji=" +:+ ret)) t)
        else (ret, t) in
      let t := if decide (ret ∈ supportedEmojis) then t
               else logged (Warn ("Unsupported emoji. emoji=" +:+ ret)) t in
      (ret, t)
  end.

Definition SlackConvertEmojiName (t : Transformer) (slackEmojiName : string) :
    string * Transformer :=
  convertEmojiName (String.length slackEmojiName) t slackEmojiName.

Definition SlackConvertReactions (t : Transformer)
    (slackReactions : option (list SlackReaction)) (postCreateAt : Z) :
    option (list ReactionImportData) * Transformer :=
  match slackReactions with
  | None => (None, t)
  | Some reactions =>
      let '(ret, t) :=
        foldl (λ '(ret, t) slackReaction,
                 let t :=
                   if decide (sr_Count slackReaction
                              ≠ Z.of_nat (length (sr_Users slackReaction)))
                   then logged (Warn ("Reaction count does not match the number of users. "
                                      +:+ "reaction=" +:+ sr_Name slackReaction)) t
                   else t in
                 let '(emojiName, t) := SlackConvertEmojiName t (sr_Name slackReaction) in
                 foldl (λ '(ret, t) userId,
                          let '(user, t) := authorOf t userId userId in
                          let reactionCreateAt := wrap64 (postCreateAt + 1) in
                          (ret ++ [{| rd_User := iu_Username user;
                                      rd_CreateAt := reactionCreateAt;
                                      rd_EmojiName := emojiName |}], t))
                       (ret, t) (sr_Users slackReaction))
              ([], t) reactions in
      (Some ret, t)
  end.

Definition GetPropsForPost (post : SlackPost) (addAttachments addOriginal : bool) :
    gmap string PropValue * nat :=
  let props : gmap string PropValue := ∅ in
  let props := if addAttachments
               then <["attachments" := PropAttachments (sp_Attachments post)]> props
               else props in
  let props := if addOriginal
               then <["slackOriginal" := PropString (sp_Original post)]> props
               else props in
  if decide (size props = 0%nat) then (∅, 0%nat) else (props, propsRuneCount props).

Definition newIntermediatePost (author : IntermediateUser) (channel : IntermediateChannel)
    (message : string) (createAt : Z) (reactions : option (list ReactionImportData)) :
    IntermediatePost :=
  {| ip_User := iu_Username author; ip_Channel := ic_Name channel;
     ip_Message := message; ip_Props := ∅; ip_CreateAt := createAt;
     ip_Attachments := []; ip_Replies := []; ip_IsDirect := false;
     ip_ChannelMembers := []; ip_Reactions := reactions |}.

(** The tail shared by every branch of the loop: the props are attached
    when they fit; when they do not, the post is dropped or keeps none. *)
Definition finishPost (t : Transformer) (st : ThreadState) (post : SlackPost)
    (newPost : IntermediatePost) (channel : IntermediateChannel)
    (addAttachments addOriginal discardInvalidProps : bool)
    (dropped kept : string) : Transformer * ThreadState :=
  let '(props, propsRunes) := GetPropsForPost post addAttachments addOriginal in
  if decide (propsRunes <= PostPropsMaxRunes)%nat then
    (t, AddPostToThreads post (setProps props newPost) channel st)
  else if discardInvalidProps then (logged (Warn dropped) t, st)
  else (logged (Warn kept) t, AddPostToThreads post newPost channel st).

Definition propsDropped : string :=
  "Unable to import the post as props exceed the maximum character count. "
  +:+ "Skipping as --discard-invalid-props is enabled.".
Definition propsKept : string :=
  "Unable to add the props to post as they exceed the maximum character count.".
Definition userMissing : string :=
  "Unable to import the message as the user field is missing.".

Definition CreateAndAddPostToThreads (t : Transformer) (post : SlackPost)
    (st : ThreadState) (channel : IntermediateChannel)
    (discardInvalidProps addOriginal : bool) : Transformer * ThreadState :=
  let '(author, t) := authorOf t (sp_User post) (sp_User post) in
  let createAt := SlackConvertTimeStamp (sp_TimeStamp post) in
  let '(reactions, t) := SlackConvertReactions t (sp_Reactions post) createAt in
  let newPost := newIntermediatePost author channel (sp_Text post) createAt reactions in
  finishPost t st post newPost channel false addOriginal discardInvalidProps
    propsDropped propsKept.

(** One round of the loop over the posts of a channel in
    [TransformPosts]. *)
Definition transformPost (channel : IntermediateChannel)
    (skipAttachments discardInvalidProps allowDownload addOriginal : bool)
    (acc : Transformer * ThreadState) (post : SlackPost) : Transformer * ThreadState :=
  let '(t, st) := acc in
  if IsPlainMessage post then
    if decide (sp_User post = "") then (logged (Warn userMissing) t, st)
    else
      let '(author, t) := authorOf t (sp_User post) (sp_User post) in
      let createAt := SlackConvertTimeStamp (sp_TimeStamp post) in
      let '(reactions, t) := SlackConvertReactions t (sp_Reactions post) createAt in
      let newPost := newIntermediatePost author channel (sp_Text post) createAt reactions in
      let '(files, lines) := AddFilesToPost post skipAttachments allowDownload in
      let newPost := setAttachments (ip_Attachments newPost ++ files) newPost in
      let t := foldl (λ t line, logged line t) t lines in
      finishPost t st post newPost channel
        (bool_decide (0 < length (sp_Attachments post))%nat) addOriginal discardInvalidProps
        ("Unable import post as props exceed the maximum character count. "
         +:+ "Skipping as --discard-invalid-props is enabled.")
        "Unable to add props to post as they exceed the maximum character count."
  else if IsFileComment post then
    match sp_Comment post with
    | None => (logged (Warn "Unable to import the message as it has no comments.") t, st)
    | Some comment =>
        if decide (cm_User comment = "") then (logged (Warn userMissing) t, st)
        else
          let '(author, t) := authorOf t (cm_User comment) (sp_User post) in
          let createAt := SlackConvertTimeStamp (sp_TimeStamp post) in
          let '(reactions, t) := SlackConvertReactions t (sp_Reactions post) createAt in
          let newPost :=
            newIntermediatePost author channel (cm_Comment comment) createAt reactions in
          finishPost t st post newPost channel false addOriginal discardInvalidProps
            propsDropped propsKept
    end
  else if IsBotMessage post then
    if decide (sp_BotId post = "" ∧ sp_User post = "") then
      (logged (Warn userMissing) t, st)
    else
      let post := if decide (sp_BotId post = "") then setBotId (sp_User post) post
                  else post in
      let '(author, t) := authorOf t (sp_BotId post) (sp_BotId post) in
      let createAt := SlackConvertTimeStamp (sp_TimeStamp post) in
      let '(reactions, t) := SlackConvertReactions t (sp_Reactions post) createAt in
      let newPost := newIntermediatePost author channel (sp_Text post) createAt reactions in
      let '(files, lines) := AddFilesToPost post skipAttachments allowDownload in
      let newPost := setAttachments (ip_Attachments newPost ++ files) newPost in
      let t := foldl (λ t line, logged line t) t lines in
      finishPost t st post newPost channel
        (bool_decide (0 < length (sp_Attachments post))%nat) addOriginal discardInvalidProps
        propsDropped propsKept
  else if IsJoinLeaveMessage post || IsMeMessage post || IsChannelTopicMessage post
          || IsChannelPurposeMessage post then
    if decide (sp_User post = "") then (logged (Warn userMissing) t, st)
    else CreateAndAddPostToThreads t post st channel discardInvalidProps addOriginal
  else if IsChannelNameMessage post then
    if decide (sp_User post = "") then
      (logged (Warn ("Slack Import: " +:+ userMissing)) t, st)
    else CreateAndAddPostToThreads t post st channel discardInvalidProps addOriginal
  else
    (logged (Warn ("Unable to import the message as its type is not supported. post_type="
                   +:+ sp_Type post +:+ ", post_subtype=" +:+ sp_SubType post)) t, st).

(** The body of the loop over the channels in [TransformPosts] for a
    channel that was found: its posts are sorted and threaded, starting
    from empty [threads] and [timestamps]. *)
Definition transformChannelPosts (t : Transformer) (channel : IntermediateChannel)
    (channelPosts : list SlackPost)
    (skipAttachments discardInvalidProps allowDownload addOriginal : bool) :
    Transformer * ThreadState :=
  foldl (transformPost channel skipAttachments discardInvalidProps allowDownload addOriginal)
        (t, noThreads) (sortByMicroSeconds channelPosts).
End Posts.

(** *** Thread assembly in the words of the specification *)

(** [createAt] after [k] increments. *)
Definition incremented (k : nat) (createAt : Z) : Z :=
  Nat.iter k (λ c, wrap64 (c + 1)) createAt.

(** The placed post [q] of the source post [original] is in the output: as
    the root filed under its own timestamp, whatever replies it has
    received since, or among the replies of the root filed under its
    thread timestamp. *)
Definition filed (st : ThreadState) (original : SlackPost) (q : IntermediatePost) : Prop :=
  if isReply original then
    ∃ root, threads st !! sp_ThreadTS original = Some root ∧ q ∈ ip_Replies root
  else
    ∃ replies,
      threads st !! sp_TimeStamp original = Some (setReplies (ip_Replies q ++ replies) q).

(** The posts of a channel identify their threads: no two roots carry the
    same timestamp string, and the root of every reply comes before the
    reply. *)
Definition wellThreaded (originals : list SlackPost) : Prop :=
  NoDup (sp_TimeStamp <$> filter (λ o, isReply o = false) originals) ∧
  ∀ i o, originals !! i = Some o → isReply o = true →
    ∃ j r, (j < i)%nat ∧ originals !! j = Some r ∧ isReply r = false ∧
           sp_TimeStamp r = sp_ThreadTS o.

(** The timestamps of the posts a thread state holds are pairwise distinct
    and recorded, and at most [n] timestamps are recorded. *)
Definition distinctTimestamps (n : nat) (st : ThreadState) : Prop :=
  NoDup (ip_CreateAt <$> ((map_to_list (threads st)).*2 ≫= withReplies)) ∧
  (∀ c, c ∈ ip_CreateAt <$> ((map_to_list (threads st)).*2 ≫= withReplies) →
        c ∈ timestamps st) ∧
  (size (timestamps st) <= n)%nat.

(** *** The posts of a channel that are threaded *)

Section Imported.
Variable PostPropsMaxRunes : nat.
Variable propsRuneCount : gmap string PropValue → nat.
Variables IsPlainMessage IsFileComment IsBotMessage IsJoinLeaveMessage : SlackPost → bool.
Variables IsMeMessage IsChannelTopicMessage IsChannelPurposeMessage : SlackPost → bool.
Variable IsChannelNameMessage : SlackPost → bool.

(** The props of the post fit, or posts are kept without them. *)
Definition propsAllow (post : SlackPost)
    (addAttachments addOriginal discardInvalidProps : bool) : bool :=
  bool_decide ((GetPropsForPost propsRuneCount post addAttachments addOriginal).2
               <= PostPropsMaxRunes)%nat
  || negb discardInvalidProps.

(** The posts that the loop of [TransformPosts] hands to
    [AddPostToThreads]: those of a supported kind that name their author
    and whose props allow it. *)
Definition imported (discardInvalidProps addOriginal : bool) (post : SlackPost) : bool :=
  if IsPlainMessage post then
    bool_decide (sp_User post ≠ "")
    && propsAllow post (bool_decide (0 < length (sp_Attachments post))%nat)
         addOriginal discardInvalidProps
  else if IsFileComment post then
    match sp_Comment post with
    | None => false
    | Some comment =>
        bool_decide (cm_User comment ≠ "")
        && propsAllow post false addOriginal discardInvalidProps
    end
  else if IsBotMessage post then
    bool_decide (¬ (sp_BotId post = "" ∧ sp_User post = ""))
    && propsAllow post (bool_decide (0 < length (sp_Attachments post))%nat)
         addOriginal discardInvalidProps
  else if IsJoinLeaveMessage post || IsMeMessage post || IsChannelTopicMessage post
          || IsChannelPurposeMessage post || IsChannelNameMessage post then
    bool_decide (sp_User post ≠ "")
    && propsAllow post false addOriginal discardInvalidProps
  else false.

(** The message of the intermediate post of an imported post. *)
Definition messageOf (post : SlackPost) : string :=
  if IsPlainMessage post then sp_Text post
  else if IsFileComment post then from_option cm_Comment "" (sp_Comment post)
  else sp_Text post.
End Imported.

(** The intermediate post that a round builds for [post]. *)
Definition builtFor (post : SlackPost) (message : string) (p : IntermediatePost) : Prop :=
  ip_CreateAt p = SlackConvertTimeStamp (sp_TimeStamp post) ∧
  ip_Replies p = [] ∧ ip_Message p = message.

(** *** The layout of the extra blob

    The writer's side of [parseZipExtraFields]: a record is its field id
    and the length of its payload, both as two bytes with the low byte
    first, followed by the payload. *)

Definition byteOfZ (z : Z) : byte :=
  default x00 (Byte.of_N (Z.to_N z)).

(** [binary.LittleEndian.PutUint16]. *)
Definition putUint16 (v : Z) : list byte :=
  [byteOfZ (Z.land v 255); byteOfZ (Z.shiftr v 8)].

Definition encodeExtraField (f : zipExtraField) : list byte :=
  putUint16 (field f) ++ putUint16 (Z.of_nat (length (data f))) ++ data f.

Definition encodeExtra (fs : list zipExtraField) : list byte :=
  fs ≫= encodeExtraField.

(** A record whose id and payload length fit their two bytes. *)
Definition fitsRecord (f : zipExtraField) : Prop :=
  0 <= field f < 65536 ∧ Z.of_nat (length (data f)) < 65536.

(** *** intermediate.go: users *)

Definition setUserId (v : string) (u : IntermediateUser) : IntermediateUser :=
  {| iu_Id := v; iu_Username := iu_Username u; iu_FirstName := iu_FirstName u;
     iu_LastName := iu_LastName u; iu_Position := iu_Position u; iu_Email := iu_Email u;
     iu_Password := iu_Password u; iu_Memberships := iu_Memberships u |}.
Definition setMemberships (v : list string) (u : IntermediateUser) : IntermediateUser :=
  {| iu_Id := iu_Id u; iu_Username := iu_Username u; iu_FirstName := iu_FirstName u;
     iu_LastName := iu_LastName u; iu_Position := iu_Position u; iu_Email := iu_Email u;
     iu_Password := iu_Password u; iu_Memberships := v |}.
Definition setMembersUsernames (v : list string) (c : IntermediateChannel) :
    IntermediateChannel :=
  {| ic_Id := ic_Id c; ic_OriginalName := ic_OriginalName c; ic_Name := ic_Name c;
     ic_DisplayName := ic_DisplayName c; ic_Members := ic_Members c;
     ic_MembersUsernames := v; ic_Purpose := ic_Purpose c;
     ic_Header := ic_Header c; ic_Topic := ic_Topic c; ic_Type := ic_Type c |}.
Definition setType (v : ChannelType) (c : IntermediateChannel) : IntermediateChannel :=
  {| ic_Id := ic_Id c; ic_OriginalName := ic_OriginalName c; ic_Name := ic_Name c;
     ic_DisplayName := ic_DisplayName c; ic_Members := ic_Members c;
     ic_MembersUsernames := ic_MembersUsernames c; ic_Purpose := ic_Purpose c;
     ic_Header := ic_Header c; ic_Topic := ic_Topic c; ic_Type := v |}.

Definition withUsersById (users : gmap string IntermediateUser) (t : Transformer) :
    Transformer :=
  {| UsersById := users; UserOverrides := UserOverrides t;
     ChannelOverrides := ChannelOverrides t; Logger := Logger t;
     idsDrawn := idsDrawn t |}.
Definition withLogger (logger : list logLine) (t : Transformer) : Transformer :=
  {| UsersById := UsersById t; UserOverrides := UserOverrides t;
     ChannelOverrides := ChannelOverrides t; Logger := logger;
     idsDrawn := idsDrawn t |}.
Definition withUserOverrides (overrides : gmap string IntermediateUser) (t : Transformer) :
    Transformer :=
  {| UsersById := UsersById t; UserOverrides := overrides;
     ChannelOverrides := ChannelOverrides t; Logger := Logger t;
     idsDrawn := idsDrawn t |}.
Definition withChannelOverrides (overrides : gmap string IntermediateChannel)
    (t : Transformer) : Transformer :=
  {| UsersById := UsersById t; UserOverrides := UserOverrides t;
     ChannelOverrides := overrides; Logger := Logger t;
     idsDrawn := idsDrawn t |}.

(** [(u *IntermediateUser) Sanitise]. *)
Definition IntermediateUser_Sanitise (u : IntermediateUser) (logger : list logLine) :
    IntermediateUser * list logLine :=
  if decide (iu_Email u = "") then
    let u := setUserEmail (iu_Username u +:+ "@example.com") u in
    (u, logger ++ [Warn ("User " +:+ iu_Username u
                         +:+ " does not have an email address in the Slack export. Used "
                         +:+ iu_Email u
                         +:+ " as a placeholder. The user should update their email address "
                         +:+ "once logged in to the system.")])
  else (u, logger).

Section Users.
Variable NewId : nat → string.

(** One round of the loop of [TransformUsers]. *)
Definition transformUser (acc : gmap string IntermediateUser * Transformer)
    (user : SlackUser) : gmap string IntermediateUser * Transformer :=
  let '(resultUsers, t) := acc in
  let newUser :=
    {| iu_Id := su_Id user;
       iu_Username := su_Username user;
       iu_FirstName := pr_FirstName (su_Profile user);
       iu_LastName := pr_LastName (su_Profile user);
       iu_Position := pr_Title (su_Profile user);
       iu_Email := pr_Email (su_Profile user);
       iu_Password := NewId (idsDrawn t);
       iu_Memberships := [] |} in
  let t := drawId t in
  let newUser := if su_IsBot user then setUserId (pr_BotID (su_Profile user)) newUser
                 else newUser in
  let '(newUser, t) := ApplyUserOverrides t newUser in
  let '(newUser, logger) := IntermediateUser_Sanitise newUser (Logger t) in
  let t := withLogger logger t in
  (<[iu_Id newUser := newUser]> resultUsers,
   logged (Debug ("Slack user with email " +:+ iu_Email newUser +:+ " and password "
                  +:+ iu_Password newUser +:+ " has been imported.")) t).

Definition TransformUsers (t : Transformer) (users : list SlackUser) : Transformer :=
  let t := logged (Info "Transforming users") t in
  let '(resultUsers, t) := foldl transformUser (∅, t) users in
  withUsersById resultUsers t.
End Users.

(** The key under which [TransformUsers] files a raw user. *)
Definition userKey (user : SlackUser) : string :=
  if su_IsBot user then pr_BotID (su_Profile user) else su_Id user.

(** *** intermediate.go: channels *)

Definition filterValidMembers (members : list string)
    (users : gmap string IntermediateUser) : list string :=
  foldl (λ validMembers member,
           match users !! member with
           | Some _ => validMembers ++ [member]
           | None => validMembers
           end) [] members.

Definition getOriginalName (channel : SlackChannel) : string :=
  if decide (sc_Name channel = "") then sc_Id channel else sc_Name channel.

(** [channel.Name = ...; channel.Type = ...] on the loop variable. *)
Definition renamed (name : string) (type : ChannelType) (c : SlackChannel) : SlackChannel :=
  {| sc_Id := sc_Id c; sc_Name := name; sc_Creator := sc_Creator c;
     sc_Members := sc_Members c; sc_Purpose := sc_Purpose c;
     sc_Topic := sc_Topic c; sc_Type := type |}.

Definition isDirectOrGroup (type : ChannelType) : bool :=
  bool_decide (type = ChannelTypeDirect ∨ type = ChannelTypeGroup).

Section Channels.
Variables ChannelNameMaxLength ChannelDisplayNameMaxRunes : nat.
Variables ChannelPurposeMaxRunes ChannelHeaderMaxRunes : nat.
Variable ChannelGroupMaxUsers : nat.
Variable isValidChannelNameCharacters : string → bool.
Variable truncateRunes : string → nat → string.
Variable RuneCountInString : string → nat.

(** One round of the loop of [TransformChannels]. *)
Definition transformChannel (teamInternalOnly : bool)
    (acc : list IntermediateChannel * Transformer) (channel : SlackChannel) :
    list IntermediateChannel * Transformer :=
  let '(resultChannels, t) := acc in
  let validMembers := filterValidMembers (sc_Members channel) (UsersById t) in
  if isDirectOrGroup (sc_Type channel) && bool_decide (length validMembers <= 1)%nat then
    (resultChannels,
     logged (Warn ("Bulk export for direct channels containing a single member is not "
                   +:+ "supported. Not importing channel " +:+ sc_Name channel)) t)
  else
    let channel :=
      if bool_decide (sc_Type channel = ChannelTypeGroup)
         && bool_decide (ChannelGroupMaxUsers < length validMembers)%nat
      then renamed (Value (sc_Purpose channel)) ChannelTypePrivate channel
      else channel in
    let name := Trim (sc_Name channel) "_-" in
    let name :=
      if teamInternalOnly && isDirectOrGroup (sc_Type channel) then
        let name := ToLower (sc_Id channel) +:+ "-" in
        let name := if decide (sc_Type channel = ChannelTypeDirect)
                    then name +:+ "direct-" else name +:+ "group-" in
        let validMemberNames :=
          (λ member, iu_Username (default noUser (UsersById t !! member)))
            <$> validMembers in
        name +:+ Join (sortStrings validMemberNames) "-"
      else name in
    let name := if decide (String.length name = 1%nat)
                then "slack-channel-" +:+ name else name in
    let name := if negb (isValidChannelNameCharacters name)
                then ToLower (sc_Id channel) else name in
    let newChannel :=
      {| ic_Id := ""; ic_OriginalName := getOriginalName channel; ic_Name := name;
         ic_DisplayName := name; ic_Members := validMembers; ic_MembersUsernames := [];
         ic_Purpose := Value (sc_Purpose channel); ic_Header := Value (sc_Topic channel);
         ic_Topic := ""; ic_Type := sc_Type channel |} in
    let newChannel :=
      if teamInternalOnly && isDirectOrGroup (ic_Type newChannel)
      then setType ChannelTypePrivate newChannel else newChannel in
    let '(newChannel, t) :=
      if bool_decide (ic_Type newChannel = ChannelTypeOpen
                      ∨ ic_Type newChannel = ChannelTypePrivate)
      then ApplyChannelOverrides t newChannel else (newChannel, t) in
    let '(newChannel, logger) :=
      Sanitise ChannelNameMaxLength ChannelDisplayNameMaxRunes ChannelPurposeMaxRunes
        ChannelHeaderMaxRunes isValidChannelNameCharacters truncateRunes RuneCountInString
        newChannel (Logger t) in
    (resultChannels ++ [newChannel], withLogger logger t).

Definition TransformChannels (t : Transformer) (channels : list SlackChannel)
    (teamInternalOnly : bool) : list IntermediateChannel * Transformer :=
  foldl (transformChannel teamInternalOnly) ([], t) channels.
End Channels.

(** *** intermediate.go: memberships

    The channel lists are fields of [t.Intermediate]; here they are handed
    to the functions that read or fill them. *)

(** The inner loop with its [break]: is [userId] one of the members? *)
Fixpoint isMember (userId : string) (members : list string) : bool :=
  match members with
  | [] => false
  | memberId :: rest => if decide (userId = memberId) then true else isMember userId rest
  end.

Definition membershipsIn (userId : string) (channels : list IntermediateChannel)
    (memberships : list string) : list string :=
  foldl (λ memberships channel,
           if isMember userId (ic_Members channel)
           then memberships ++ [ic_Name channel] else memberships)
        memberships channels.

Definition PopulateUserMemberships (t : Transformer)
    (publicChannels privateChannels : list IntermediateChannel) : Transformer :=
  let t := logged (Info "Populating user memberships") t in
  withUsersById
    (map_imap (λ userId user,
                 let memberships := membershipsIn userId publicChannels [] in
                 let memberships := membershipsIn userId privateChannels memberships in
                 Some (setMemberships memberships user))
              (UsersById t)) t.

Definition memberUsernames (users : gmap string IntermediateUser)
    (channel : IntermediateChannel) : IntermediateChannel :=
  setMembersUsernames
    (foldl (λ members memberId,
              match users !! memberId with
              | Some user => members ++ [iu_Username user]
              | None => members
              end) [] (ic_Members channel))
    channel.

(** Returns the group channels and the direct channels with their member
    usernames filled in. *)
Definition PopulateChannelMemberships (t : Transformer)
    (groupChannels directChannels : list IntermediateChannel) :
    list IntermediateChannel * list IntermediateChannel * Transformer :=
  let t := logged (Info "Populating channel memberships") t in
  (memberUsernames (UsersById t) <$> groupChannels,
   memberUsernames (UsersById t) <$> directChannels, t).

Definition buildChannelsByOriginalNameMap
    (publicChannels privateChannels groupChannels directChannels : list IntermediateChannel) :
    gmap string IntermediateChannel :=
  let add := foldl (λ channelsByName channel,
                      <[ic_OriginalName channel := channel]> channelsByName) in
  add (add (add (add ∅ publicChannels) privateChannels) groupChannels) directChannels.

(** *** Sample inputs *)

(** A [range] that visits the entries in the order [map_to_list] lists
    them, and one that visits them in the opposite order. *)
Definition rangeListed : ∀ V : Type, gmap string V → list (string * V) :=
  λ V m, map_to_list m.
Definition rangeReversed : ∀ V : Type, gmap string V → list (string * V) :=
  λ V m, reverse (map_to_list m).

(** The codec restricted to the two documents without members, [null] and
    the empty object; every other document is reported as an error. *)
Definition unmarshalEmpty (s : string) : result jsonMap :=
  if decide (s = "null") then Ok None
  else if decide (s = "{}") then Ok (Some ∅)
  else Err (JSONError "document not supported").
Definition marshalEmpty (m : jsonMap) : result string :=
  match m with
  | None => Ok "null"
  | Some m => if decide (size m = 0%nat) then Ok "{}" else Err (JSONError "document not supported")
  end.

Definition chanGeneral : SlackChannel :=
  {| sc_Id := "C1"; sc_Name := "general"; sc_Creator := "U1";
     sc_Members := ["U1"; "U2"]; sc_Purpose := {| Value := "all" |};
     sc_Topic := {| Value := "" |}; sc_Type := ChannelTypeOpen |}.

Definition chanRandom : SlackChannel :=
  {| sc_Id := "C2"; sc_Name := "random"; sc_Creator := "U2";
     sc_Members := ["U2"]; sc_Purpose := {| Value := "" |};
     sc_Topic := {| Value := "" |}; sc_Type := ChannelTypeOpen |}.

Definition withMembers (members : list string) (c : SlackChannel) : SlackChannel :=
  {| sc_Id := sc_Id c; sc_Name := sc_Name c; sc_Creator := sc_Creator c;
     sc_Members := members; sc_Purpose := sc_Purpose c;
     sc_Topic := sc_Topic c; sc_Type := sc_Type c |}.

Definition withName (name : string) (c : SlackChannel) : SlackChannel :=
  {| sc_Id := sc_Id c; sc_Name := name; sc_Creator := sc_Creator c;
     sc_Members := sc_Members c; sc_Purpose := sc_Purpose c;
     sc_Topic := sc_Topic c; sc_Type := sc_Type c |}.

(** An upload with one extended-timestamp record of one payload byte. *)
Definition zipPhoto (payload : byte) (crc attrs : Z) : ZipFile :=
  {| zf_Name := "F1/photo.png"; zf_Comment := ""; zf_NonUTF8 := false;
     zf_CreatorVersion := 20; zf_ReaderVersion := 20; zf_Flags := 0;
     zf_CRC32 := crc; zf_UncompressedSize64 := 1024;
     zf_Extra := [x55; x54; x01; x00; payload];
     zf_ExternalAttrs := attrs |}.

Definition exportOf (team : string) (channels : list SlackChannel)
    (uploads : gmap string ZipFile) : SlackExport :=
  {| TeamName := team; Channels := channels; PublicChannels := [];
     PrivateChannels := []; GroupChannels := []; DirectChannels := [];
     Users := []; Posts := ∅; Uploads := uploads |}.

Definition exportUnknownCRC : SlackExport :=
  exportOf "T" [] {["F1" := zipPhoto x03 0 0]}.
Definition exportTwoChannels : SlackExport :=
  exportOf "T" [chanGeneral; chanRandom] {["F1" := zipPhoto x03 3735928559 0]}.
Definition exportRepeatedChannel : SlackExport :=
  exportOf "T" [chanGeneral; chanGeneral] ∅.

Definition postHello (original : string) : SlackPost :=
  {| sp_User := "U1"; sp_BotId := ""; sp_BotUsername := ""; sp_Text := "hello";
     sp_TimeStamp := "1549307811.074100"; sp_ThreadTS := ""; sp_Type := "message";
     sp_SubType := ""; sp_Comment := None; sp_Upload := false; sp_File := None;
     sp_Files := []; sp_Attachments := []; sp_Reactions := None;
     sp_Original := original |}.

(** Limits and helpers of [Sanitise] for ASCII text. *)
Definition asciiTruncateRunes (s : string) (n : nat) : string := substring 0 n s.
Definition asciiRuneCount (s : string) : nat := String.length s.
Definition lowerAlnum (s : string) : bool :=
  forallb (λ c, let n := asciiZ c in
                ((97 <=? n) && (n <=? 122)) || ((48 <=? n) && (n <=? 57))
                || (n =? 45) || (n =? 95))
          (list_ascii_of_string s).

Definition directChannel : IntermediateChannel :=
  {| ic_Id := "D1"; ic_OriginalName := "D1"; ic_Name := "_d_"; ic_DisplayName := "-x";
     ic_Members := ["U1"; "U2"]; ic_MembersUsernames := ["alice"; "bob"];
     ic_Purpose := ""; ic_Header := ""; ic_Topic := ""; ic_Type := ChannelTypeDirect |}.

Definition publicChannel : IntermediateChannel :=
  {| ic_Id := "C1"; ic_OriginalName := "general"; ic_Name := "general";
     ic_DisplayName := "general"; ic_Members := ["U1"; "U2"]; ic_MembersUsernames := [];
     ic_Purpose := "all"; ic_Header := "welcome"; ic_Topic := "";
     ic_Type := ChannelTypeOpen |}.

Definition userAlice : IntermediateUser :=
  {| iu_Id := "U1"; iu_Username := "alice"; iu_FirstName := "Alice"; iu_LastName := "A";
     iu_Position := "dev"; iu_Email := "alice@example.com"; iu_Password := "pw1";
     iu_Memberships := [] |}.

Definition userBob : IntermediateUser :=
  {| iu_Id := "U2"; iu_Username := "bob"; iu_FirstName := "Bob"; iu_LastName := "B";
     iu_Position := "ops"; iu_Email := "bob@example.com"; iu_Password := "pw2";
     iu_Memberships := [] |}.

(** An override row for [alice]: a dash in every column that takes one. *)
Definition dashes : IntermediateUser :=
  {| iu_Id := ""; iu_Username := ""; iu_FirstName := "-"; iu_LastName := "";
     iu_Position := "-"; iu_Email := "-"; iu_Password := ""; iu_Memberships := [] |}.

Definition dashesChannel : IntermediateChannel :=
  {| ic_Id := ""; ic_OriginalName := ""; ic_Name := ""; ic_DisplayName := "General";
     ic_Members := []; ic_MembersUsernames := []; ic_Purpose := "-"; ic_Header := "";
     ic_Topic := "-"; ic_Type := ChannelTypeOpen |}.

Definition transformerWith (users overrides : gmap string IntermediateUser)
    (channelOverrides : gmap string IntermediateChannel) : Transformer :=
  {| UsersById := users; UserOverrides := overrides;
     ChannelOverrides := channelOverrides; Logger := []; idsDrawn := 0 |}.

(** The kinds of post by type and subtype. *)
Definition hasSubType (subTypes : list string) (p : SlackPost) : bool :=
  bool_decide (sp_Type p = "message" ∧ sp_SubType p ∈ subTypes).

Definition sampleNewId (n : nat) : string := "generated-password".
Definition noFiles : SlackPost → bool → bool → list string * list logLine :=
  λ _ _ _, ([], []).
Definition sortedAlready : list SlackPost → list SlackPost := λ l, l.

Definition sampleTransformPost :=
  transformPost sampleNewId ∅ (Z.to_nat 800000) (λ _, 0%nat) noFiles
    (hasSubType [""; "file_share"; "thread_broadcast"]) (hasSubType ["file_comment"])
    (hasSubType ["bot_message"]) (hasSubType ["channel_join"; "channel_leave"])
    (hasSubType ["me_message"]) (hasSubType ["channel_topic"])
    (hasSubType ["channel_purpose"]) (hasSubType ["channel_name"]).

Definition sampleTransformChannelPosts :=
  transformChannelPosts sampleNewId ∅ (Z.to_nat 800000) (λ _, 0%nat) noFiles
    (hasSubType [""; "file_share"; "thread_broadcast"]) (hasSubType ["file_comment"])
    (hasSubType ["bot_message"]) (hasSubType ["channel_join"; "channel_leave"])
    (hasSubType ["me_message"]) (hasSubType ["channel_topic"])
    (hasSubType ["channel_purpose"]) (hasSubType ["channel_name"]) sortedAlready.

(** A file comment by [commentUser] whose own user field is [user]. *)
Definition fileComment (user commentUser : string) : SlackPost :=
  {| sp_User := user; sp_BotId := ""; sp_BotUsername := ""; sp_Text := "";
     sp_TimeStamp := "1549307811.074100"; sp_ThreadTS := ""; sp_Type := "message";
     sp_SubType := "file_comment";
     sp_Comment := Some {| cm_User := commentUser; cm_Comment := "nice picture" |};
     sp_Upload := false; sp_File := None; sp_Files := []; sp_Attachments := [];
     sp_Reactions := None; sp_Original := "" |}.

(** A plain message. *)
Definition message (user timeStamp threadTS text : string) : SlackPost :=
  {| sp_User := user; sp_BotId := ""; sp_BotUsername := ""; sp_Text := text;
     sp_TimeStamp := timeStamp; sp_ThreadTS := threadTS; sp_Type := "message";
     sp_SubType := ""; sp_Comment := None; sp_Upload := false; sp_File := None;
     sp_Files := []; sp_Attachments := []; sp_Reactions := None; sp_Original := "" |}.

(** Raw users: a person and a bot. *)
Definition slackAlice : SlackUser :=
  {| su_Id := "U1"; su_Username := "alice"; su_IsBot := false;
     su_Profile := {| pr_BotID := ""; pr_FirstName := "Alice"; pr_LastName := "A";
                      pr_Title := "dev"; pr_Email := "alice@example.com" |} |}.

Definition slackDeployBot : SlackUser :=
  {| su_Id := "U7"; su_Username := "deploy"; su_IsBot := true;
     su_Profile := {| pr_BotID := "B7"; pr_FirstName := ""; pr_LastName := "";
                      pr_Title := ""; pr_Email := "" |} |}.
(** ** Part II: properties *)

(** *** Timestamp normalizer *)

Lemma digitValue_digitChar d : 0 <= d <= 9 → digitValue (digitChar d) = Some d.
Proof.
  intros Hd.
  assert (d = 0 ∨ d = 1 ∨ d = 2 ∨ d = 3 ∨ d = 4 ∨ d = 5 ∨ d = 6 ∨ d = 7 ∨ d = 8 ∨ d = 9)
    as Hcases by lia.
  repeat destruct Hcases as [->|Hcases]; try subst d; reflexivity.
Qed.

Lemma digitValue_inv c d : digitValue c = Some d → 0 <= d <= 9 ∧ c = digitChar d.
Proof.
  intros H.
  destruct c as [[] [] [] [] [] [] [] []]; vm_compute in H; try discriminate H;
    injection H as <-; (split; [lia|reflexivity]).
Qed.

Lemma digitChar_plain d : 0 <= d <= 9 → digitChar d ≠ "."%char ∧ digitChar d ≠ "-"%char.
Proof.
  intros Hd.
  assert (d = 0 ∨ d = 1 ∨ d = 2 ∨ d = 3 ∨ d = 4 ∨ d = 5 ∨ d = 6 ∨ d = 7 ∨ d = 8 ∨ d = 9)
    as Hcases by lia.
  repeat destruct Hcases as [->|Hcases]; try subst d; split; discriminate.
Qed.

Lemma parseDigits_digitsText ds : ∀ acc,
  isDigits ds → parseDigits (digitsText ds) acc = Some (foldl (λ acc d, 10 * acc + d) acc ds).
Proof.
  induction ds as [|d ds IH]; intros acc Hds; [done|].
  apply Forall_cons in Hds as [Hd Hds]. cbn [digitsText parseDigits foldl].
  rewrite digitValue_digitChar by done. by apply IH.
Qed.

Lemma parseDigits_inv s : ∀ acc v,
  parseDigits s acc = Some v →
  ∃ ds, isDigits ds ∧ s = digitsText ds ∧ v = foldl (λ acc d, 10 * acc + d) acc ds.
Proof.
  induction s as [|c r IH]; intros acc v; cbn [parseDigits].
  - intros [= <-]. exists []. split; [constructor|done].
  - destruct (digitValue c) as [d|] eqn:Hc; [|done]. intros Hv.
    apply digitValue_inv in Hc as [Hd ->].
    destruct (IH _ _ Hv) as (ds & Hds & -> & ->).
    exists (d :: ds). split; [by constructor|done].
Qed.

Lemma digitsText_length ds : String.length (digitsText ds) = length ds.
Proof. induction ds as [|d ds IH]; simpl; congruence. Qed.

Lemma splitDot_whole ds : isDigits ds → splitDot (digitsText ds) = (digitsText ds, None).
Proof.
  induction 1 as [|d ds Hd Hds IH]; [done|].
  cbn [digitsText splitDot]. rewrite decide_False by (by apply digitChar_plain).
  by rewrite IH.
Qed.

Lemma splitDot_dot ds rest :
  isDigits ds →
  splitDot (digitsText ds +:+ "." +:+ rest) = (digitsText ds, Some rest).
Proof.
  induction 1 as [|d ds Hd Hds IH]; [done|].
  cbn [digitsText]. change (String ?c ?a +:+ ?b) with (String c (a +:+ b)).
  cbn [splitDot]. rewrite decide_False by (by apply digitChar_plain).
  by rewrite IH.
Qed.

Lemma splitDot_inv s : ∀ ip fp,
  splitDot s = (ip, fp) →
  s = ip +:+ match fp with Some f => "." +:+ f | None => "" end.
Proof.
  induction s as [|c r IH]; intros ip fp; cbn [splitDot].
  - by intros [= <- <-].
  - case_decide as Hc.
    + intros [= <- <-]. by rewrite Hc.
    + destruct (splitDot r) as [a b]. intros [= <- <-].
      change (String c a +:+ ?x) with (String c (a +:+ x)). f_equal. by apply IH.
Qed.

Lemma append_empty_r (s : string) : s +:+ "" = s.
Proof.
  induction s as [|c s IH]; [done|].
  change (String c (s +:+ "") = String c s). by rewrite IH.
Qed.

Lemma digitsValue_app whole fraction :
  digitsValue (whole ++ fraction)
  = foldl (λ acc d, 10 * acc + d) (digitsValue whole) fraction.
Proof. unfold digitsValue. by rewrite foldl_app. Qed.

(** What the parser makes of a numeral without sign. *)
Lemma parseUnsigned_decimalText whole fraction :
  isDigits whole → whole ≠ [] → from_option isDigits True fraction →
  parseUnsigned (decimalText false whole fraction)
  = Some (Decimal false (digitsValue (whole ++ default [] fraction))
            (length (default [] fraction))).
Proof.
  intros Hw Hne Hf. unfold parseUnsigned, decimalText.
  change ("" +:+ ?x) with x.
  assert (∃ c r, digitsText whole = String c r) as (c & r & Hc).
  { destruct whole as [|d whole]; [done|]. by eexists _, _. }
  destruct fraction as [f|]; cbn [from_option default] in *.
  - rewrite splitDot_dot by done. rewrite Hc, <- Hc.
    rewrite (parseDigits_digitsText whole 0 Hw).
    rewrite (parseDigits_digitsText f _ Hf), digitsText_length.
    by rewrite digitsValue_app.
  - rewrite append_empty_r, splitDot_whole by done. rewrite Hc, <- Hc.
    rewrite (parseDigits_digitsText whole 0 Hw). by rewrite app_nil_r.
Qed.

Lemma parseUnsigned_inv s d :
  parseUnsigned s = Some d →
  ∃ whole fraction,
    isDigits whole ∧ whole ≠ [] ∧ from_option isDigits True fraction ∧
    s = decimalText false whole fraction.
Proof.
  unfold parseUnsigned. destruct (splitDot s) as [ip fp] eqn:Hs.
  apply splitDot_inv in Hs.
  destruct ip as [|c ip]; [done|].
  destruct (parseDigits (String c ip) 0) as [i|] eqn:Hi; [|done].
  apply parseDigits_inv in Hi as (whole & Hw & Hip & _).
  assert (whole ≠ []) as Hne by (intros ->; done).
  destruct fp as [f|].
  - destruct (parseDigits f i) as [m|] eqn:Hm; [|done]. intros _.
    apply parseDigits_inv in Hm as (fs & Hfs & -> & _).
    exists whole, (Some fs). repeat split; try done.
    unfold decimalText. by rewrite Hs, Hip.
  - intros _. exists whole, None. repeat split; try done.
    unfold decimalText. by rewrite Hs, Hip.
Qed.

Lemma parseSeconds_decimalText negative whole fraction :
  isDigits whole → whole ≠ [] → from_option isDigits True fraction →
  parseSeconds (decimalText negative whole fraction)
  = Some (Decimal negative (digitsValue (whole ++ default [] fraction))
            (length (default [] fraction))).
Proof.
  intros Hw Hne Hf.
  pose proof (parseUnsigned_decimalText whole fraction Hw Hne Hf) as Hu.
  destruct negative.
  - unfold decimalText in *. change ("-" +:+ ?x) with (String "-"%char x).
    change ("" +:+ ?x) with x in Hu.
    cbn [parseSeconds]. rewrite Hu. done.
  - unfold parseSeconds. rewrite Hu.
    unfold decimalText. change ("" +:+ ?x) with x.
    destruct whole as [|d whole]; [done|]. apply Forall_cons in Hw as [Hd _].
    cbn [digitsText]. change (String ?c ?a +:+ ?b) with (String c (a +:+ b)).
    destruct (digitChar_plain d Hd) as [_ Hminus].
    destruct (digitChar d) as [[] [] [] [] [] [] [] []]; try done.
Qed.

Lemma parseSeconds_inv s d : parseSeconds s = Some d → isDecimalText s.
Proof.
  assert (∀ r d', parseUnsigned r = Some d' → isDecimalText r) as Hu.
  { intros r d' Hr. destruct (parseUnsigned_inv r d' Hr) as (w & f & ? & ? & ? & ->).
    by exists false, w, f. }
  unfold parseSeconds. destruct s as [|c r]; [by apply Hu|].
  destruct (decide (c = "-"%char)) as [->|Hc].
  - destruct (parseUnsigned r) as [d'|] eqn:Hr; [|done]. intros _.
    destruct (parseUnsigned_inv r d' Hr) as (w & f & ? & ? & ? & ->).
    by exists true, w, f.
  - destruct c as [[] [] [] [] [] [] [] []]; try (by apply Hu). by destruct Hc.
Qed.

Lemma foldl_digits_nonneg ds :
  isDigits ds → ∀ acc, 0 <= acc → 0 <= foldl (λ acc d, 10 * acc + d) acc ds.
Proof.
  induction 1 as [|d ds Hd Hds IH]; intros acc Hacc; [done|].
  cbn [foldl]. apply IH. lia.
Qed.

Lemma digitsValue_nonneg ds : isDigits ds → 0 <= digitsValue ds.
Proof. intros Hds. by apply foldl_digits_nonneg. Qed.

Lemma roundHalfUp_bounds n d :
  0 <= n → 0 < d →
  0 <= roundHalfUp n d ∧ 2 * n - d < 2 * d * roundHalfUp n d <= 2 * n + d.
Proof.
  intros Hn Hd. unfold roundHalfUp.
  pose proof (Z.div_mod (2 * n + d) (2 * d) ltac:(lia)) as E.
  pose proof (Z.mod_pos_bound (2 * n + d) (2 * d) ltac:(lia)) as B.
  split; [apply Z.div_pos; lia | lia].
Qed.

Lemma SlackConvertTimeStamp_decimalText negative whole fraction :
  isDigits whole → whole ≠ [] → from_option isDigits True fraction →
  SlackConvertTimeStamp (decimalText negative whole fraction)
  = scaleDecimal 1000
      (Decimal negative (digitsValue (whole ++ default [] fraction))
         (length (default [] fraction))).
Proof.
  intros Hw Hne Hf. unfold SlackConvertTimeStamp.
  by rewrite parseSeconds_decimalText.
Qed.

(** C6. [SlackConvertTimeStamp] reads a decimal numeral: digits, or
    digits, a dot and any number of digits, none included. A text that is
    no such numeral gives the sentinel [1], not [0]. A numeral without
    fractional digits, with or without the dot, gives a thousand times
    its value; a numeral with fractional digits gives a thousand times
    its value rounded to the nearest integer, a tie going up; under a
    minus sign the result is negated, so that a tie goes away from zero.
    The five strings of the test table give the values it expects. *)
Theorem SlackConvertTimeStamp_spec :
  (∀ s, ¬ isDecimalText s → SlackConvertTimeStamp s = 1 ∧ SlackConvertTimeStamp s ≠ 0) ∧
  (∀ whole,
     isDigits whole → whole ≠ [] →
     SlackConvertTimeStamp (decimalText false whole None) = 1000 * digitsValue whole ∧
     SlackConvertTimeStamp (decimalText false whole (Some [])) = 1000 * digitsValue whole) ∧
  (∀ whole fraction,
     isDigits whole → whole ≠ [] → isDigits fraction →
     roundsHalfUp 1000 (digitsValue (whole ++ fraction)) (length fraction)
       (SlackConvertTimeStamp (decimalText false whole (Some fraction)))) ∧
  (∀ whole fraction,
     isDigits whole → whole ≠ [] → from_option isDigits True fraction →
     SlackConvertTimeStamp (decimalText true whole fraction)
     = - SlackConvertTimeStamp (decimalText false whole fraction)) ∧
  SlackConvertTimeStamp "asd" = 1 ∧
  SlackConvertTimeStamp "1549307811" = 1549307811000 ∧
  SlackConvertTimeStamp "1549307811." = 1549307811000 ∧
  SlackConvertTimeStamp "1549307811.074100" = 1549307811074 ∧
  SlackConvertTimeStamp "1549307811.074500" = 1549307811075 ∧
  SlackConvertTimeStamp "1549307811.12345" = 1549307811123.
Proof.
  split; [|split; [|split; [|split]]].
  - intros s Hs. unfold SlackConvertTimeStamp.
    destruct (parseSeconds s) as [d|] eqn:E; [|split; [done|lia]].
    destruct Hs. by eapply parseSeconds_inv.
  - intros whole Hw Hne.
    rewrite (SlackConvertTimeStamp_decimalText false whole None) by done.
    rewrite (SlackConvertTimeStamp_decimalText false whole (Some [])) by (done || constructor).
    change (default [] (Some (@nil Z))) with (@nil Z). change (default [] (@None (list Z))) with (@nil Z).
    cbn [length]. rewrite app_nil_r. unfold scaleDecimal, roundHalfUp.
    cbn [neg mant digits]. change (10 ^ Z.of_nat 0) with 1.
    replace (2 * (1000 * digitsValue whole) + 1)
      with (1 + (1000 * digitsValue whole) * (2 * 1)) by lia.
    rewrite Z.div_add by lia. change (1 / (2 * 1)) with 0. lia.
  - intros whole fraction Hw Hne Hf.
    rewrite (SlackConvertTimeStamp_decimalText false whole (Some fraction)) by done.
    change (default [] (Some fraction)) with fraction.
    unfold scaleDecimal, roundsHalfUp. cbn [neg mant digits].
    set (p := 10 ^ Z.of_nat (length fraction)).
    assert (0 < p) as Hp by (apply Z.pow_pos_nonneg; lia).
    assert (0 <= digitsValue (whole ++ fraction)) as Hn.
    { apply digitsValue_nonneg. by apply Forall_app. }
    destruct (roundHalfUp_bounds (1000 * digitsValue (whole ++ fraction)) p
                ltac:(lia) Hp) as [_ Hb].
    lia.
  - intros whole fraction Hw Hne Hf.
    rewrite (SlackConvertTimeStamp_decimalText true whole fraction) by done.
    rewrite (SlackConvertTimeStamp_decimalText false whole fraction) by done.
    reflexivity.
  - repeat split; vm_compute; reflexivity.
Qed.

Lemma SlackConvertTimeStamp_spec_witness :
  isDigits [1; 5; 4; 9; 3; 0; 7; 8; 1; 1] ∧ isDigits [0; 7; 4; 5; 0; 0] ∧
  roundsHalfUp 1000
    (digitsValue ([1; 5; 4; 9; 3; 0; 7; 8; 1; 1] ++ [0; 7; 4; 5; 0; 0]))
    (length [0; 7; 4; 5; 0; 0])
    (SlackConvertTimeStamp
       (decimalText false [1; 5; 4; 9; 3; 0; 7; 8; 1; 1] (Some [0; 7; 4; 5; 0; 0]))).
Proof.
  assert (isDigits [1; 5; 4; 9; 3; 0; 7; 8; 1; 1]) as Hw by (repeat constructor; lia).
  assert (isDigits [0; 7; 4; 5; 0; 0]) as Hf by (repeat constructor; lia).
  split; [exact Hw|]. split; [exact Hf|].
  apply (proj1 (proj2 (proj2 SlackConvertTimeStamp_spec))); [exact Hw|discriminate|exact Hf].
Defined.

(** The numeral of the witness is the fourth string of the test table. *)
Example decimalText_table_row :
  decimalText false [1; 5; 4; 9; 3; 0; 7; 8; 1; 1] (Some [0; 7; 4; 5; 0; 0])
  = "1549307811.074500".
Proof. reflexivity. Qed.

(** *** Attachment descriptors *)

Lemma sliceEquals_spec {T} `{EqDecision T} (a b : list T) :
  sliceEquals a b = true ↔ a = b.
Proof.
  unfold sliceEquals. destruct (decide (length a ≠ length b)) as [Hl|Hl].
  - split; [done|]. intros ->. done.
  - assert (length a = length b) as Hlen by (destruct (decide (length a = length b)); tauto).
    clear Hl. revert b Hlen. induction a as [|x a IH]; intros [|y b] Hlen; try done.
    simpl. rewrite andb_true_iff, bool_decide_eq_true, IH by (simpl in Hlen; lia).
    simpl. split; [intros [-> ->]; done | intros [= -> ->]; done].
Qed.

Lemma zipExtraCanBeIgnored_spec fs :
  zipExtraCanBeIgnored fs = true ↔ Forall (λ f, field f = 0x5455) fs.
Proof.
  induction fs as [|f fs IH]; simpl.
  - split; [constructor|done].
  - destruct (decide (field f = 21589)) as [Hf|Hf].
    + rewrite IH. split; [by constructor | by inversion 1].
    + split; [done | inversion 1; done].
Qed.

Lemma parseZipExtraFields_short extra :
  (length extra < 4)%nat →
  parseZipExtraFields extra = match extra with [] => Ok [] | _ => Err (ExtraDataLeftOver extra) end.
Proof.
  intros Hl. rewrite parseZipExtraFields_equation_1.
  destruct (decide (4 <= length extra)%nat); [lia|]. simpl. by destruct extra.
Qed.

Lemma parseZipExtraFields_overrun extra :
  (4 <= length extra)%nat →
  (length extra - 4 < Z.to_nat (Uint16 (drop 2 extra)))%nat →
  parseZipExtraFields extra
  = Err (ExtraFieldTooLarge (Uint16 (drop 2 extra)) (Z.of_nat (length extra - 4))).
Proof.
  intros H4 Hs. rewrite parseZipExtraFields_equation_1.
  destruct (decide (4 <= length extra)%nat); [|lia]. simpl.
  destruct (decide (length extra - 4 < Z.to_nat (Uint16 (drop 2 extra)))%nat); [done|lia].
Qed.

Lemma parseZipExtraFields_record extra :
  (4 <= length extra)%nat →
  (Z.to_nat (Uint16 (drop 2 extra)) <= length extra - 4)%nat →
  parseZipExtraFields extra
  = rest ← parseZipExtraFields (drop (Z.to_nat (Uint16 (drop 2 extra)) + 4) extra);
    Ok ({| field := Uint16 extra;
           data := take (Z.to_nat (Uint16 (drop 2 extra))) (drop 4 extra) |} :: rest).
Proof.
  intros H4 Hs. rewrite parseZipExtraFields_equation_1.
  destruct (decide (4 <= length extra)%nat); [|lia]. simpl.
  destruct (decide (length extra - 4 < Z.to_nat (Uint16 (drop 2 extra)))%nat); [lia|done].
Qed.

Lemma parseZipExtraFields_Malformed extra :
  isErr (parseZipExtraFields extra) ↔ Malformed extra.
Proof.
  remember (length extra) as n eqn:Hn. revert extra Hn.
  induction (lt_wf n) as [n _ IH]. intros extra ->.
  destruct (decide (4 <= length extra)%nat) as [H4|H4].
  - destruct (decide (length extra - 4 < Z.to_nat (Uint16 (drop 2 extra)))%nat) as [Hs|Hs].
    + rewrite parseZipExtraFields_overrun by done.
      split; [intros _; by apply Malformed_overrun | intros _; by eexists].
    + rewrite parseZipExtraFields_record by lia.
      set (rest := drop (Z.to_nat (Uint16 (drop 2 extra)) + 4) extra).
      assert (length rest < length extra)%nat as Hlt
        by (unfold rest; rewrite length_drop; lia).
      specialize (IH _ Hlt rest eq_refl).
      split.
      * intros [e He]. apply Malformed_later; [done|lia|].
        apply IH. destruct (parseZipExtraFields rest); [done|by eexists].
      * intros HM. inversion HM as [? ? Hs'|? Hl|? ? ? HM']; subst; [lia|lia|].
        apply IH in HM' as [e He]. fold rest in He. rewrite He. by eexists.
  - rewrite parseZipExtraFields_short by lia.
    destruct extra as [|b0 extra].
    + split; [intros [e He]; done|].
      inversion 1; simpl in *; lia.
    + split; [intros _; apply Malformed_leftover; simpl in *; lia | intros _; by eexists].
Qed.

Lemma mergeZipFile_Ok_first a b r : mergeZipFile a b = Ok r → r = a.
Proof.
  unfold mergeZipFile. repeat case_decide; try done.
  all: destruct (negb _); simpl; [|congruence].
  all: destruct (parseZipExtraFields (zf_Extra a)); [|done].
  all: destruct (parseZipExtraFields (zf_Extra b)); [|done].
  all: destruct (_ || _); simpl; [done|congruence].
Qed.

(** *** The extra blob: parsing inverts the layout *)

Lemma byteZ_range b : 0 <= byteZ b < 256.
Proof.
  unfold byteZ. pose proof (Byte.to_N_bounded b) as Hb. lia.
Qed.

Lemma byteOfZ_byteZ b : byteOfZ (byteZ b) = b.
Proof.
  unfold byteOfZ, byteZ. rewrite N2Z.id, Byte.of_to_N. done.
Qed.

Lemma byteZ_byteOfZ z : 0 <= z < 256 → byteZ (byteOfZ z) = z.
Proof.
  intros Hz. unfold byteOfZ, byteZ.
  destruct (Byte.of_N (Z.to_N z)) as [b|] eqn:E.
  - simpl. apply Byte.to_of_N in E. rewrite E. lia.
  - apply Byte.of_N_None_iff in E. lia.
Qed.

Lemma lor_shiftl_8 lo hi :
  0 <= lo < 256 → 0 <= hi → Z.lor lo (Z.shiftl hi 8) = lo + 256 * hi.
Proof.
  intros Hlo Hhi. rewrite Z.shiftl_mul_pow2 by lia.
  rewrite <- Z.lxor_lor, <- Z.add_nocarry_lxor; [lia| |];
    (apply Z.bits_inj'; intros n Hn; rewrite Z.land_spec, Z.bits_0;
     destruct (Z.lt_ge_cases n 8);
     [rewrite Z.mul_pow2_bits_low by lia; apply andb_false_r|];
     destruct (decide (lo = 0)) as [->|]; [by rewrite Z.bits_0|];
     rewrite (Z.bits_above_log2 lo n); [done|lia|];
     apply Z.log2_lt_pow2; [lia|];
     assert (2 ^ 8 <= 2 ^ n) by (apply Z.pow_le_mono_r; lia); lia).
Qed.

Lemma Uint16_bytes b0 b1 rest : Uint16 (b0 :: b1 :: rest) = byteZ b0 + 256 * byteZ b1.
Proof.
  unfold Uint16. pose proof (byteZ_range b0). pose proof (byteZ_range b1).
  apply lor_shiftl_8; lia.
Qed.

Lemma Uint16_range b : 0 <= Uint16 b < 65536.
Proof.
  destruct b as [|b0 [|b1 rest]]; [simpl; lia..|].
  rewrite Uint16_bytes. pose proof (byteZ_range b0). pose proof (byteZ_range b1). lia.
Qed.

Lemma Uint16_putUint16 v rest : 0 <= v < 65536 → Uint16 (putUint16 v ++ rest) = v.
Proof.
  intros Hv. unfold putUint16. cbn [app]. rewrite Uint16_bytes.
  change 255 with (Z.ones 8). rewrite Z.land_ones, Z.shiftr_div_pow2 by lia.
  change (2 ^ 8) with 256.
  pose proof (Z.mod_pos_bound v 256 ltac:(lia)).
  assert (0 <= v / 256 < 256) by (split; [apply Z.div_pos; lia|apply Z.div_lt_upper_bound; lia]).
  rewrite !byteZ_byteOfZ by lia.
  pose proof (Z.div_mod v 256 ltac:(lia)). lia.
Qed.

Lemma putUint16_Uint16 b0 b1 rest : putUint16 (Uint16 (b0 :: b1 :: rest)) = [b0; b1].
Proof.
  rewrite Uint16_bytes. unfold putUint16.
  pose proof (byteZ_range b0). pose proof (byteZ_range b1).
  change 255 with (Z.ones 8). rewrite Z.land_ones, Z.shiftr_div_pow2 by lia.
  change (2 ^ 8) with 256.
  replace ((byteZ b0 + 256 * byteZ b1) mod 256) with (byteZ b0)
    by (apply (Z.mod_unique_pos _ _ (byteZ b1)); lia).
  replace ((byteZ b0 + 256 * byteZ b1) / 256) with (byteZ b1)
    by (apply (Z.div_unique_pos _ _ _ (byteZ b0)); lia).
  by rewrite !byteOfZ_byteZ.
Qed.

Lemma parseZipExtraFields_encode fs :
  Forall fitsRecord fs → parseZipExtraFields (encodeExtra fs) = Ok fs.
Proof.
  induction fs as [|f fs IH]; intros Hfit.
  - by rewrite parseZipExtraFields_short by (simpl; lia).
  - apply Forall_cons in Hfit as [[Hfield Hlen] Hfit].
    unfold encodeExtra. rewrite bind_cons. fold (encodeExtra fs).
    set (extra := encodeExtraField f ++ encodeExtra fs).
    assert (Uint16 extra = field f) as Hf.
    { unfold extra, encodeExtraField. rewrite <- app_assoc. by apply Uint16_putUint16. }
    assert (drop 2 extra
            = putUint16 (Z.of_nat (length (data f))) ++ data f ++ encodeExtra fs) as Hd.
    { unfold extra, encodeExtraField. by rewrite <- !app_assoc. }
    assert (Uint16 (drop 2 extra) = Z.of_nat (length (data f))) as Hs.
    { rewrite Hd. apply Uint16_putUint16. lia. }
    assert (drop 4 extra = data f ++ encodeExtra fs) as Hd4.
    { unfold extra, encodeExtraField. by rewrite <- !app_assoc. }
    assert (length extra = (4 + length (data f) + length (encodeExtra fs))%nat) as Hl.
    { unfold extra, encodeExtraField. rewrite !length_app. simpl. lia. }
    rewrite parseZipExtraFields_record by (rewrite ?Hs, ?Nat2Z.id; lia).
    rewrite Hs, Nat2Z.id, Hf, Hd4, take_app_length.
    replace (length (data f) + 4)%nat with (4 + length (data f))%nat by lia.
    rewrite <- drop_drop, Hd4, drop_app_length, (IH Hfit). simpl. by destruct f.
Qed.

Lemma parseZipExtraFields_decode extra : ∀ fs,
  parseZipExtraFields extra = Ok fs → encodeExtra fs = extra ∧ Forall fitsRecord fs.
Proof.
  remember (length extra) as n eqn:Hn. revert extra Hn.
  induction (lt_wf n) as [n _ IH]. intros extra -> fs.
  destruct (decide (4 <= length extra)%nat) as [H4|H4].
  - destruct (decide (length extra - 4 < Z.to_nat (Uint16 (drop 2 extra)))%nat) as [Hs|Hs].
    { by rewrite parseZipExtraFields_overrun. }
    rewrite parseZipExtraFields_record by lia.
    set (size := Z.to_nat (Uint16 (drop 2 extra))) in *.
    destruct (parseZipExtraFields (drop (size + 4) extra)) as [rest|] eqn:Er; [|done].
    simpl. intros [= <-].
    destruct (IH (length (drop (size + 4) extra))
                ltac:(rewrite length_drop; lia) _ eq_refl rest Er) as [Henc Hfit].
    pose proof (Uint16_range extra). pose proof (Uint16_range (drop 2 extra)).
    assert (length (take size (drop 4 extra)) = size) as Hlen
      by (rewrite length_take, length_drop; lia).
    split.
    + unfold encodeExtra. rewrite bind_cons. fold (encodeExtra rest). rewrite Henc.
      unfold encodeExtraField. cbn [field data]. rewrite Hlen.
      unfold size at 1. rewrite Z2Nat.id by lia.
      destruct extra as [|b0 [|b1 [|b2 [|b3 tail]]]]; simpl in H4; try lia.
      rewrite putUint16_Uint16. cbn [drop]. rewrite putUint16_Uint16.
      cbn [app]. do 4 f_equal.
      replace (size + 4)%nat with (S (S (S (S size)))) by lia. cbn [drop].
      apply take_drop.
    + apply Forall_cons. split; [|done]. unfold fitsRecord. cbn [field data].
      rewrite Hlen. unfold size. lia.
  - rewrite parseZipExtraFields_short by lia.
    destruct extra; [|done]. intros [= <-]. split; [done|constructor].
Qed.

Lemma parseZipExtraFields_roundtrip extra fs :
  parseZipExtraFields extra = Ok fs ↔ encodeExtra fs = extra ∧ Forall fitsRecord fs.
Proof.
  split; [apply parseZipExtraFields_decode|].
  intros [<- Hfit]. by apply parseZipExtraFields_encode.
Qed.

(** *** A conflict between two uploads stops the merge *)

Lemma mergeEntries_conflict {V} (merge : V → V → result V) entries : ∀ ret k x y,
  NoDup entries.*1 → (k, y) ∈ entries → ret !! k = Some x → isErr (merge x y) →
  isErr (mergeEntries merge entries ret).
Proof.
  induction entries as [|[k' v'] entries IH]; intros ret k x y Hnd Hin Hret Herr.
  { by apply elem_of_nil in Hin. }
  rewrite fmap_cons in Hnd. apply NoDup_cons in Hnd as [Hk' Hnd]. cbn [fst] in Hk'.
  cbn [mergeEntries]. destruct (decide (k' = k)) as [->|Hne].
  - apply elem_of_cons in Hin as [[= <-]|Hin].
    + rewrite Hret. destruct Herr as [e ->]. by eexists.
    + exfalso. apply Hk'. apply list_elem_of_fmap. by exists (k, y).
  - apply elem_of_cons in Hin as [[= ? ?]|Hin]; [congruence|].
    destruct (ret !! k') as [existing|].
    + destruct (merge existing v') as [merged|e]; simpl; [|by eexists].
      apply (IH _ k x y); try done. by rewrite lookup_insert_ne.
    + apply (IH _ k x y); try done. by rewrite lookup_insert_ne.
Qed.

Lemma mergeMapsWith_conflict {V} (rangeMap : ∀ V : Type, gmap string V → list (string * V))
    (merge : V → V → result V) (a b : gmap string V) k x y :
  visitsAll rangeMap → a !! k = Some x → b !! k = Some y → isErr (merge x y) →
  isErr (mergeMapsWith rangeMap a b merge).
Proof.
  intros Hrange Ha Hb Herr. unfold mergeMapsWith, cloneMap.
  apply (mergeEntries_conflict merge _ a k x y); try done.
  - rewrite (Hrange V b). apply NoDup_fst_map_to_list.
  - rewrite (Hrange V b). by apply elem_of_map_to_list.
Qed.

Lemma MergeSlackExports_uploads_conflict (Unmarshal : string → result jsonMap)
    (Marshal : jsonMap → result string)
    (rangeMap : ∀ V : Type, gmap string V → list (string * V)) e1 e2 rest k a b :
  visitsAll rangeMap →
  Uploads e1 !! k = Some a → Uploads e2 !! k = Some b → isErr (mergeZipFile a b) →
  isErr (MergeSlackExports Unmarshal Marshal rangeMap (e1 :: e2 :: rest)).
Proof.
  intros Hrange Ha Hb Herr. unfold MergeSlackExports. cbn [mergeRounds].
  assert (isErr (mergeExport Unmarshal Marshal rangeMap (cloneExport e1) e2)) as [e ->];
    [|by eexists].
  unfold mergeExport. case_decide; [by eexists|].
  do 7 (match goal with
        | |- isErr (?r ≫= _) => destruct r; simpl; [|by eexists]
        end).
  destruct (mergeMapsWith_conflict rangeMap mergeZipFile (Uploads (cloneExport e1))
              (Uploads e2) k a b Hrange Ha Hb Herr) as [e He].
  unfold cloneExport, cloneMap in *. cbn [Uploads] in *.
  unfold mergeUploads. rewrite He. by eexists.
Qed.

(** C7 (amended). Let two descriptors agree on name, non-UTF8 flag, known
    checksum, uncompressed size and external attributes, and differ in the
    bytes of their extra blobs. A blob parses into the records [fs]
    exactly when it is the sequence of these records, each laid out as its
    field id and the length of its payload, two bytes each with the low
    byte first, and then the payload. A blob is rejected exactly when it
    is malformed (a record longer than the bytes left, or one to three
    bytes left over); a rejected blob on either side makes [mergeZipFile]
    return the parse error under the name of that descriptor, and stops
    the merge of exports that hold the two descriptors under one key.
    When both blobs parse, the merge succeeds exactly when every record
    of both has field id [0x5455], and it returns the first descriptor;
    otherwise it returns the conflict of the two blobs. *)
Theorem mergeZipFile_differing_extra a b :
  zf_Name a = zf_Name b →
  zf_NonUTF8 a = zf_NonUTF8 b →
  zf_CRC32 a ≠ 0 →
  zf_CRC32 a = zf_CRC32 b →
  zf_UncompressedSize64 a = zf_UncompressedSize64 b →
  zf_ExternalAttrs a = zf_ExternalAttrs b →
  zf_Extra a ≠ zf_Extra b →
  (∀ extra fs,
     parseZipExtraFields extra = Ok fs ↔ encodeExtra fs = extra ∧ Forall fitsRecord fs) ∧
  (∀ extra, isErr (parseZipExtraFields extra) ↔ Malformed extra) ∧
  (∀ err, parseZipExtraFields (zf_Extra a) = Err err →
     mergeZipFile a b = Err (ZipExtraUnparsable (zf_Name a) err)) ∧
  (∀ fa err,
     parseZipExtraFields (zf_Extra a) = Ok fa →
     parseZipExtraFields (zf_Extra b) = Err err →
     mergeZipFile a b = Err (ZipExtraUnparsable (zf_Name b) err)) ∧
  (∀ (Unmarshal : string → result jsonMap) (Marshal : jsonMap → result string)
     (rangeMap : ∀ V : Type, gmap string V → list (string * V)) e1 e2 rest k,
     visitsAll rangeMap →
     Uploads e1 !! k = Some a → Uploads e2 !! k = Some b →
     Malformed (zf_Extra a) ∨ Malformed (zf_Extra b) →
     isErr (MergeSlackExports Unmarshal Marshal rangeMap (e1 :: e2 :: rest))) ∧
  (∀ fa fb,
     parseZipExtraFields (zf_Extra a) = Ok fa →
     parseZipExtraFields (zf_Extra b) = Ok fb →
     (mergeZipFile a b = Ok a ↔ Forall (λ f, field f = 0x5455) (fa ++ fb)) ∧
     (¬ Forall (λ f, field f = 0x5455) (fa ++ fb) →
      mergeZipFile a b = Err (ZipExtraDiffer (zf_Extra a) (zf_Extra b)))).
Proof.
  intros Hname Hutf Hcrc0 Hcrc Hsize Hattr Hextra.
  assert (sliceEquals (zf_Extra a) (zf_Extra b) = false) as Hne.
  { destruct (sliceEquals _ _) eqn:E; [|done]. by apply sliceEquals_spec in E. }
  assert (mergeZipFile a b =
    match parseZipExtraFields (zf_Extra a) with
    | Err err => Err (ZipExtraUnparsable (zf_Name a) err)
    | Ok fa =>
        match parseZipExtraFields (zf_Extra b) with
        | Err err => Err (ZipExtraUnparsable (zf_Name b) err)
        | Ok fb =>
            if negb (zipExtraCanBeIgnored fa) || negb (zipExtraCanBeIgnored fb)
            then Err (ZipExtraDiffer (zf_Extra a) (zf_Extra b)) else Ok a
        end
    end) as Hm.
  { unfold mergeZipFile. rewrite Hne. simpl.
    repeat case_decide; try congruence; try (exfalso; intuition congruence).
    destruct (parseZipExtraFields (zf_Extra a)); [|done].
    destruct (parseZipExtraFields (zf_Extra b)); [|done].
    by destruct (_ || _). }
  split; [apply parseZipExtraFields_roundtrip|].
  split; [apply parseZipExtraFields_Malformed|].
  split; [intros err Ha; by rewrite Hm, Ha|].
  split; [intros fa err Ha Hb; by rewrite Hm, Ha, Hb|].
  split.
  - intros Unmarshal Marshal rangeMap e1 e2 rest k Hrange H1 H2 HM.
    apply (MergeSlackExports_uploads_conflict _ _ _ e1 e2 rest k a b Hrange H1 H2).
    rewrite Hm.
    destruct (parseZipExtraFields (zf_Extra a)) as [fa|ea] eqn:Ea; [|by eexists].
    destruct HM as [HM|HM]; apply parseZipExtraFields_Malformed in HM as [e He].
    + congruence.
    + rewrite He. by eexists.
  - intros fa fb Ha Hb. rewrite Hm, Ha, Hb, Forall_app, <- !zipExtraCanBeIgnored_spec.
    destruct (zipExtraCanBeIgnored fa), (zipExtraCanBeIgnored fb); simpl;
      (split; [split; [try done; intuition | try done; intros [? ?]; done]
              | intros Hn; try done; exfalso; apply Hn; done ]).
Qed.

Lemma mergeZipFile_differing_extra_witness :
  mergeZipFile (zipPhoto x03 3735928559 0) (zipPhoto x07 3735928559 0)
  = Ok (zipPhoto x03 3735928559 0).
Proof.
  destruct (mergeZipFile_differing_extra
              (zipPhoto x03 3735928559 0) (zipPhoto x07 3735928559 0))
    as (_ & _ & _ & _ & _ & H); [reflexivity|reflexivity|simpl; lia|reflexivity|reflexivity
                                |reflexivity|simpl; discriminate|].
  apply (H [{| field := 0x5455; data := [x03] |}] [{| field := 0x5455; data := [x07] |}]);
    [vm_compute; reflexivity|vm_compute; reflexivity|].
  repeat constructor.
Defined.

(** C7, as stated, fails: two descriptors that agree on name, flag,
    checksum and size and carry nothing but extended-timestamp records do
    not merge when their external attributes differ. *)
Lemma mergeZipFile_external_attrs_counterexample :
  zf_Name (zipPhoto x03 3735928559 0) = zf_Name (zipPhoto x07 3735928559 420) ∧
  zf_NonUTF8 (zipPhoto x03 3735928559 0) = zf_NonUTF8 (zipPhoto x07 3735928559 420) ∧
  zf_CRC32 (zipPhoto x03 3735928559 0) ≠ 0 ∧
  zf_CRC32 (zipPhoto x03 3735928559 0) = zf_CRC32 (zipPhoto x07 3735928559 420) ∧
  zf_UncompressedSize64 (zipPhoto x03 3735928559 0)
    = zf_UncompressedSize64 (zipPhoto x07 3735928559 420) ∧
  zf_Extra (zipPhoto x03 3735928559 0) ≠ zf_Extra (zipPhoto x07 3735928559 420) ∧
  parseZipExtraFields (zf_Extra (zipPhoto x03 3735928559 0))
    = Ok [{| field := 0x5455; data := [x03] |}] ∧
  parseZipExtraFields (zf_Extra (zipPhoto x07 3735928559 420))
    = Ok [{| field := 0x5455; data := [x07] |}] ∧
  mergeZipFile (zipPhoto x03 3735928559 0) (zipPhoto x07 3735928559 420)
    = Err (ZipExternalAttrsDiffer 0 420).
Proof.
  repeat split; try (vm_compute; reflexivity); simpl; [lia|discriminate].
Qed.

(** *** Channel reconciliation *)

Lemma sortStrings_Permutation l : sortStrings l ≡ₚ l.
Proof. apply merge_sort_Permutation. Qed.

Lemma sortStrings_Sorted l : Sorted String.le (sortStrings l).
Proof. apply (Sorted_merge_sort String.le). Qed.

(** Two slices sort to the same sequence exactly when one is a
    rearrangement of the other. *)
Lemma sortStrings_eq_iff l1 l2 : sortStrings l1 = sortStrings l2 ↔ l1 ≡ₚ l2.
Proof.
  split.
  - intros E. rewrite <- (sortStrings_Permutation l1), E. apply sortStrings_Permutation.
  - intros P. apply (Sorted_unique String.le); [apply sortStrings_Sorted..|].
    by rewrite !sortStrings_Permutation.
Qed.

Lemma mergeChannel_Ok_iff a b :
  mergeChannel a b = Ok a ↔ scalarsAgree a b ∧ sc_Members a ≡ₚ sc_Members b.
Proof.
  unfold mergeChannel, scalarsAgree. rewrite <- sortStrings_eq_iff.
  repeat case_decide; split; try done; try (intros; exfalso; intuition congruence).
Qed.

Lemma mergeChannel_Ok_first a b r : mergeChannel a b = Ok r → r = a.
Proof. unfold mergeChannel. repeat case_decide; congruence. Qed.

Lemma mergeChannel_self a : mergeChannel a a = Ok a.
Proof. apply mergeChannel_Ok_iff. unfold scalarsAgree. done. Qed.

(** C3 (amended). Channel reconciliation compares the sorted member
    slices, so two member lists count as equal exactly when one is a
    rearrangement of the other, repeated entries included. Two channels
    that agree on every scalar field merge (to the first of them) exactly
    when their member lists are rearrangements of each other, and
    otherwise the merge stops with the members conflict. *)
Theorem mergeChannel_members a b :
  scalarsAgree a b →
  (sortStrings (sc_Members a) = sortStrings (sc_Members b)
     ↔ sc_Members a ≡ₚ sc_Members b) ∧
  (mergeChannel a b = Ok a ↔ sc_Members a ≡ₚ sc_Members b) ∧
  (¬ sc_Members a ≡ₚ sc_Members b →
     mergeChannel a b = Err (ChannelMembersDiffer (sc_Members a) (sc_Members b))).
Proof.
  intros Hs. split; [apply sortStrings_eq_iff|]. split.
  - rewrite mergeChannel_Ok_iff. tauto.
  - intros Hn. rewrite <- sortStrings_eq_iff in Hn.
    destruct Hs as (? & ? & ? & ? & ? & ?).
    unfold mergeChannel. repeat case_decide; done.
Qed.

Lemma mergeChannel_members_witness :
  mergeChannel (withMembers ["U2"; "U1"] chanGeneral) chanGeneral
  = Ok (withMembers ["U2"; "U1"] chanGeneral).
Proof.
  apply (mergeChannel_members (withMembers ["U2"; "U1"] chanGeneral) chanGeneral).
  - unfold scalarsAgree. simpl. done.
  - simpl. apply Permutation_swap.
Defined.

(** C3, as stated, fails: the member lists [U1, U1] and [U1] name the same
    set of members and are equal once duplicates are removed, yet the
    channels do not merge. *)
Lemma mergeChannel_repeated_member_counterexample :
  scalarsAgree (withMembers ["U1"; "U1"] chanGeneral) (withMembers ["U1"] chanGeneral) ∧
  (list_to_set (sc_Members (withMembers ["U1"; "U1"] chanGeneral)) : gset string)
    = list_to_set (sc_Members (withMembers ["U1"] chanGeneral)) ∧
  sortStrings (remove_dups (sc_Members (withMembers ["U1"; "U1"] chanGeneral)))
    = sortStrings (remove_dups (sc_Members (withMembers ["U1"] chanGeneral))) ∧
  mergeChannel (withMembers ["U1"; "U1"] chanGeneral) (withMembers ["U1"] chanGeneral)
    = Err (ChannelMembersDiffer ["U1"; "U1"] ["U1"]).
Proof.
  split; [unfold scalarsAgree; simpl; done|].
  split; [simpl; set_solver|].
  split; vm_compute; reflexivity.
Qed.

(** *** Post reconciliation *)

Lemma setOriginal_eq_iff a b :
  setOriginal "" a = setOriginal "" b ↔ agreeExceptOriginal a b.
Proof.
  unfold agreeExceptOriginal. split.
  - intros E. injection E. intros. repeat split; assumption.
  - intros (?&?&?&?&?&?&?&?&?&?&?&?&?&?). destruct a, b. simpl in *. by subst.
Qed.

(** What the stripping leaves of a block and of a document. *)
Lemma stripBlock_lookup bm :
  ∃ bm', stripBlock (JObject bm) = JObject bm' ∧
         bm' !! "block_id" = None ∧
         ∀ k, k ≠ "block_id" → bm' !! k = bm !! k.
Proof.
  exists (delete "block_id" bm). split; [done|]. split.
  - apply lookup_delete_eq.
  - intros k Hk. by apply lookup_delete_ne.
Qed.

Lemma stripBlock_other block :
  (∀ bm, block ≠ JObject bm) → stripBlock block = block.
Proof. destruct block; try done. intros H. by destruct (H m). Qed.

Lemma stripVolatile_lookup (m : gmap string json) :
  ∃ m', stripVolatile (Some m) = Some m' ∧
        m' !! "last_read" = None ∧
        m' !! "subscribed" = None ∧
        m' !! "blocks" =
          match m !! "blocks" with
          | Some (JArray blocks) => Some (JArray (stripBlock <$> blocks))
          | other => other
          end ∧
        ∀ k, k ≠ "last_read" → k ≠ "subscribed" → k ≠ "blocks" → m' !! k = m !! k.
Proof.
  unfold stripVolatile.
  set (m2 := delete "subscribed" (delete "last_read" m)).
  assert (m2 !! "blocks" = m !! "blocks") as Hb
    by (unfold m2; by rewrite !lookup_delete_ne).
  assert (m2 !! "last_read" = None) as Hl
    by (unfold m2; by rewrite lookup_delete_ne, lookup_delete_eq).
  assert (m2 !! "subscribed" = None) as Hs
    by (unfold m2; by rewrite lookup_delete_eq).
  assert (∀ k, k ≠ "last_read" → k ≠ "subscribed" → m2 !! k = m !! k) as Ho
    by (intros k ? ?; unfold m2; by rewrite !lookup_delete_ne).
  rewrite Hb.
  destruct (m !! "blocks") as [[| | | |blocks|]|] eqn:E;
    try (exists m2; repeat split; try done; try congruence; by auto).
  eexists. split; [done|]. repeat split.
  - by rewrite lookup_insert_ne.
  - by rewrite lookup_insert_ne.
  - by rewrite lookup_insert_eq.
  - intros k ? ? ?. rewrite lookup_insert_ne by done. by apply Ho.
Qed.

Section PostProperties.
Context (Unmarshal : string → result jsonMap) (Marshal : jsonMap → result string).

#[local] Abbreviation originalsEquivalent := (originalsEquivalent Unmarshal Marshal).

Lemma postOriginalEquivalent_true a b :
  postOriginalEquivalent Unmarshal Marshal a b = Ok true ↔ originalsEquivalent a b.
Proof.
  unfold postOriginalEquivalent, originalsEquivalent. split.
  - destruct (Unmarshal a) as [m1|]; simpl; [|done].
    destruct (Unmarshal b) as [m2|]; simpl; [|done].
    destruct (Marshal (stripVolatile m1)) as [s1|] eqn:E1; simpl; [|done].
    destruct (Marshal (stripVolatile m2)) as [s2|] eqn:E2; simpl; [|done].
    intros [= E]. apply bool_decide_eq_true in E as ->. by exists m1, m2, s2.
  - intros (m1 & m2 & s & -> & -> & E1 & E2). simpl. rewrite E1, E2. simpl.
    by rewrite bool_decide_eq_true_2.
Qed.

Lemma mergePost_Ok_iff a b :
  mergePost Unmarshal Marshal a b = Ok a
  ↔ agreeExceptOriginal a b ∧ originalsEquivalent (sp_Original a) (sp_Original b).
Proof.
  unfold mergePost. rewrite <- setOriginal_eq_iff, <- postOriginalEquivalent_true.
  case_decide as Hd.
  - split; [done|]. intros [? _]. done.
  - destruct (postOriginalEquivalent _ _ _ _) as [[]|]; simpl; split; try done;
      try (intros [_ ?]; done).
Qed.

Lemma mergePost_Ok_first a b r : mergePost Unmarshal Marshal a b = Ok r → r = a.
Proof.
  unfold mergePost. case_decide; [done|].
  destruct (postOriginalEquivalent _ _ _ _) as [[]|]; simpl; congruence.
Qed.

(** C4. [mergePost] succeeds (returning its first argument) exactly when
    the two posts agree on every field but [Original], both originals
    parse, and the documents left after deleting [last_read],
    [subscribed] and the [block_id] of every object in the top-level
    [blocks] array serialize to the same string; in every other case,
    an original that does not parse included, it returns an error. *)
Theorem mergePost_spec a b :
  (mergePost Unmarshal Marshal a b = Ok a
     ↔ agreeExceptOriginal a b ∧ originalsEquivalent (sp_Original a) (sp_Original b)) ∧
  (isErr (mergePost Unmarshal Marshal a b)
     ↔ ¬ (agreeExceptOriginal a b ∧ originalsEquivalent (sp_Original a) (sp_Original b))) ∧
  (isErr (Unmarshal (sp_Original a)) ∨ isErr (Unmarshal (sp_Original b))
     → isErr (mergePost Unmarshal Marshal a b)) ∧
  (∀ m : gmap string json, ∃ m',
     stripVolatile (Some m) = Some m' ∧
     m' !! "last_read" = None ∧ m' !! "subscribed" = None ∧
     m' !! "blocks" =
       match m !! "blocks" with
       | Some (JArray blocks) => Some (JArray (stripBlock <$> blocks))
       | other => other
       end ∧
     ∀ k, k ≠ "last_read" → k ≠ "subscribed" → k ≠ "blocks" → m' !! k = m !! k) ∧
  (∀ bm, ∃ bm', stripBlock (JObject bm) = JObject bm' ∧ bm' !! "block_id" = None ∧
                ∀ k, k ≠ "block_id" → bm' !! k = bm !! k) ∧
  (∀ block, (∀ bm, block ≠ JObject bm) → stripBlock block = block) ∧
  stripVolatile None = None.
Proof.
  assert (isErr (mergePost Unmarshal Marshal a b)
     ↔ ¬ (agreeExceptOriginal a b ∧ originalsEquivalent (sp_Original a) (sp_Original b)))
    as Herr.
  { rewrite <- mergePost_Ok_iff. split.
    - intros [e He] Hok. congruence.
    - intros Hn. destruct (mergePost Unmarshal Marshal a b) as [r|e] eqn:E; [|by eexists].
      destruct Hn. by rewrite (mergePost_Ok_first _ _ _ E). }
  split; [apply mergePost_Ok_iff|]. split; [exact Herr|]. split.
  - intros Hu. apply Herr. intros [_ (m1 & m2 & s & E1 & E2 & _)].
    destruct Hu as [[e He]|[e He]]; congruence.
  - split; [apply stripVolatile_lookup|]. split; [apply stripBlock_lookup|].
    split; [apply stripBlock_other|done].
Qed.
End PostProperties.

Lemma mergePost_spec_witness :
  mergePost unmarshalEmpty marshalEmpty (postHello "{}") (postHello "{}")
  = Ok (postHello "{}").
Proof.
  apply (proj1 (mergePost_spec unmarshalEmpty marshalEmpty (postHello "{}") (postHello "{}"))).
  split.
  - unfold agreeExceptOriginal. simpl. done.
  - exists (Some ∅), (Some ∅), "{}". vm_compute. done.
Defined.

(** *** The generic merges *)

Section GenericMerge.
Context {T : Type} (id : T → string) (merge : T → T → result T).

#[local] Abbreviation keyed := (keyed id).

Lemma keyed_fst l : (keyed l).*1 = id <$> l.
Proof. unfold keyed. rewrite <- list_fmap_compose. done. Qed.

Lemma keyed_snd l : (keyed l).*2 = l.
Proof. unfold keyed. rewrite <- list_fmap_compose. apply list_fmap_id. Qed.

Lemma index_lookup l x :
  NoDup (id <$> l) → x ∈ l → (list_to_map (keyed l) : gmap string T) !! id x = Some x.
Proof.
  intros Hnd Hx. apply elem_of_list_to_map_1; [by rewrite keyed_fst|].
  unfold keyed. apply list_elem_of_fmap. by exists x.
Qed.

(** A slice without repeated keys is entered into the map as it is. *)
Lemma mergeItems_fresh l : ∀ itemMap,
  NoDup (id <$> l) → (∀ x, x ∈ l → itemMap !! id x = None) →
  mergeItems id merge l itemMap = Ok (list_to_map (keyed l) ∪ itemMap).
Proof.
  induction l as [|x l IH]; intros itemMap Hnd Hfresh; simpl.
  - by rewrite (left_id_L ∅ (∪)).
  - apply NoDup_cons in Hnd as [Hx Hnd].
    rewrite Hfresh by left. rewrite IH; [|done|].
    + f_equal. rewrite <- insert_union_l, <- insert_union_r; [done|].
      apply not_elem_of_list_to_map_1. by rewrite keyed_fst.
    + intros y Hy. rewrite lookup_insert_ne; [apply Hfresh; by right|].
      intros E. apply Hx. rewrite E. apply list_elem_of_fmap. by exists y.
Qed.

(** Items already in the map that merge with themselves leave it as it is. *)
Lemma mergeItems_known l : ∀ itemMap,
  (∀ x, x ∈ l → itemMap !! id x = Some x ∧ merge x x = Ok x) →
  mergeItems id merge l itemMap = Ok itemMap.
Proof.
  induction l as [|x l IH]; intros itemMap Hk; simpl; [done|].
  destruct (Hk x ltac:(left)) as [Hx Hm]. rewrite Hx, Hm. simpl.
  rewrite insert_id by done. apply IH. intros y Hy. apply Hk. by right.
Qed.
End GenericMerge.

Section MergeProperties.
Context (Unmarshal : string → result jsonMap) (Marshal : jsonMap → result string).
Context (rangeMap : ∀ V : Type, gmap string V → list (string * V)).

Lemma mergeExport_TeamName r e r' :
  mergeExport Unmarshal Marshal rangeMap r e = Ok r' → TeamName r' = TeamName r.
Proof.
  unfold mergeExport. case_decide; [done|].
  repeat (match goal with
          | |- context [?r ≫= _] => destruct r; simpl; [|done]
          end).
  by intros [= <-].
Qed.

Lemma mergeRounds_TeamName es : ∀ r r',
  mergeRounds Unmarshal Marshal rangeMap r es = Ok r' → TeamName r' = TeamName r.
Proof.
  induction es as [|e es IH]; intros r r'; simpl; [by intros [= <-]|].
  destruct (mergeExport _ _ _ r e) as [r1|] eqn:E; simpl; [|done].
  intros H. rewrite (IH _ _ H). by eapply mergeExport_TeamName.
Qed.

Lemma mergeRounds_app pre post r :
  mergeRounds Unmarshal Marshal rangeMap r (pre ++ post)
  = r1 ← mergeRounds Unmarshal Marshal rangeMap r pre;
    mergeRounds Unmarshal Marshal rangeMap r1 post.
Proof.
  revert r. induction pre as [|e pre IH]; intros r; simpl; [done|].
  destruct (mergeExport _ _ _ r e); simpl; [apply IH|done].
Qed.

Lemma mergeExport_TeamNames r e r' :
  mergeExport Unmarshal Marshal rangeMap r e = Ok r' → TeamName e = TeamName r.
Proof.
  unfold mergeExport. case_decide as E; [done|]. intros _.
  by destruct (decide (TeamName r = TeamName e)).
Qed.

Lemma mergeRounds_TeamNames es : ∀ r r',
  mergeRounds Unmarshal Marshal rangeMap r es = Ok r' →
  ∀ e, e ∈ es → TeamName e = TeamName r.
Proof.
  induction es as [|e0 es IH]; intros r r' Hr e He; [by apply elem_of_nil in He|].
  simpl in Hr. destruct (mergeExport _ _ _ r e0) as [r1|] eqn:E; simpl in Hr; [|done].
  apply elem_of_cons in He as [->|He].
  - by eapply mergeExport_TeamNames.
  - rewrite (IH _ _ Hr e He). by eapply mergeExport_TeamName.
Qed.

Lemma MergeSlackExports_rounds first rest :
  rest ≠ [] →
  MergeSlackExports Unmarshal Marshal rangeMap (first :: rest)
  = mergeRounds Unmarshal Marshal rangeMap (cloneExport first) rest.
Proof. by destruct rest. Qed.

Lemma MergeSlackExports_Ok_rounds first rest r :
  MergeSlackExports Unmarshal Marshal rangeMap (first :: rest) = Ok r →
  ∃ r', mergeRounds Unmarshal Marshal rangeMap (cloneExport first) rest = Ok r'.
Proof.
  destruct rest as [|x rest]; [by eexists|].
  rewrite MergeSlackExports_rounds by done. by eexists.
Qed.

(** C5 (amended). Merging no snapshot fails, and so does merging
    snapshots of which one names another team than the first. The team
    name of a snapshot is compared with that of the first one at the start
    of the round that merges this snapshot: when the snapshots before it
    merge and its team name differs, the merge returns the team-name
    mismatch, whatever the entities of this and of the later snapshots
    are; for the second snapshot this is before any entity is merged. An
    error of the snapshots before it is returned instead, whatever the
    team names of the later snapshots are: so is a conflict between the
    channels of the first two snapshots. *)
Theorem MergeSlackExports_team_names :
  MergeSlackExports Unmarshal Marshal rangeMap [] = Err NoExports ∧
  (∀ first rest x,
     x ∈ rest → TeamName x ≠ TeamName first →
     isErr (MergeSlackExports Unmarshal Marshal rangeMap (first :: rest))) ∧
  (∀ first x rest,
     TeamName x ≠ TeamName first →
     MergeSlackExports Unmarshal Marshal rangeMap (first :: x :: rest)
     = Err (TeamNamesDiffer (TeamName first) (TeamName x))) ∧
  (∀ first before x rest r,
     MergeSlackExports Unmarshal Marshal rangeMap (first :: before) = Ok r →
     TeamName x ≠ TeamName first →
     MergeSlackExports Unmarshal Marshal rangeMap (first :: before ++ x :: rest)
     = Err (TeamNamesDiffer (TeamName first) (TeamName x))) ∧
  (∀ first second before rest err,
     MergeSlackExports Unmarshal Marshal rangeMap (first :: second :: before) = Err err →
     MergeSlackExports Unmarshal Marshal rangeMap (first :: second :: before ++ rest)
     = Err err) ∧
  (∀ first x rest err,
     TeamName x = TeamName first →
     mergeChannels rangeMap (Channels first) (Channels x) = Err err →
     MergeSlackExports Unmarshal Marshal rangeMap (first :: x :: rest) = Err err).
Proof.
  assert (∀ first before x rest r,
     MergeSlackExports Unmarshal Marshal rangeMap (first :: before) = Ok r →
     TeamName x ≠ TeamName first →
     MergeSlackExports Unmarshal Marshal rangeMap (first :: before ++ x :: rest)
     = Err (TeamNamesDiffer (TeamName first) (TeamName x))) as Hgen.
  { intros first before x rest r Hr Hx.
    apply MergeSlackExports_Ok_rounds in Hr as [r' Hr].
    rewrite MergeSlackExports_rounds by (by destruct before).
    rewrite mergeRounds_app, Hr. simpl.
    apply mergeRounds_TeamName in Hr. simpl in Hr.
    unfold mergeExport. rewrite Hr. case_decide; [done|]. congruence. }
  split; [done|]. split; [|split; [|split; [exact Hgen|split]]].
  - intros first rest x Hx Hname.
    destruct (MergeSlackExports _ _ _ (first :: rest)) as [r|err] eqn:E; [|by eexists].
    exfalso. apply Hname. apply MergeSlackExports_Ok_rounds in E as [r' Hr].
    rewrite (mergeRounds_TeamNames _ _ _ Hr x Hx). done.
  - intros first x rest Hx. by apply (Hgen first [] x rest first).
  - intros first second before rest err.
    rewrite !MergeSlackExports_rounds by done.
    rewrite app_comm_cons, mergeRounds_app. by intros ->.
  - intros first x rest err Hname Herr.
    rewrite MergeSlackExports_rounds by done. cbn [mergeRounds].
    unfold mergeExport. cbn [cloneExport TeamName Channels cloneSlice].
    rewrite decide_False by (intros Hn; by apply Hn).
    unfold cloneSlice. by rewrite Herr.
Qed.

(** **** Merging copies of one export *)

Hypothesis rangeMap_visitsAll : visitsAll rangeMap.

Lemma mergeSlicesWith_copy {T} (id : T → string) (merge : T → T → result T) a l :
  a ≡ₚ l → NoDup (id <$> l) → (∀ x, x ∈ l → merge x x = Ok x) →
  ∃ r, mergeSlicesWith rangeMap a l id merge = Ok r ∧ r ≡ₚ l.
Proof.
  intros Hp Hnd Hself.
  assert (NoDup (id <$> a)) as Hnda by (by rewrite Hp).
  unfold mergeSlicesWith.
  rewrite (mergeItems_fresh id merge a ∅ Hnda) by (intros; apply lookup_empty).
  rewrite (right_id_L ∅ (∪)). simpl.
  assert ((list_to_map (keyed id a) : gmap string T) = list_to_map (keyed id l)) as ->.
  { apply list_to_map_proper; [by rewrite keyed_fst|]. unfold keyed. by rewrite Hp. }
  rewrite mergeItems_known.
  - simpl. eexists. split; [done|].
    rewrite (rangeMap_visitsAll T), map_to_list_to_map by (by rewrite keyed_fst).
    by rewrite keyed_snd.
  - intros x Hx. split; [by apply index_lookup|by apply Hself].
Qed.

Lemma mergeEntries_copy {V} (merge : V → V → result V) (R : relation V)
    (b : gmap string V) :
  (∀ k v existing, b !! k = Some v → R existing v →
     ∃ m, merge existing v = Ok m ∧ R m v) →
  ∀ entries ret,
    (∀ k v, (k, v) ∈ entries → b !! k = Some v) →
    (∀ k, option_Forall2 R (ret !! k) (b !! k)) →
    ∃ ret', mergeEntries merge entries ret = Ok ret' ∧
            ∀ k, option_Forall2 R (ret' !! k) (b !! k).
Proof.
  intros Hmerge. induction entries as [|[k v] entries IH]; intros ret Hin Hinv; simpl.
  - by exists ret.
  - assert (b !! k = Some v) as Hb by (apply Hin; left).
    pose proof (Hinv k) as Hk. rewrite Hb in Hk.
    inversion Hk as [existing v' HR Hret Hv|]; subst.
    destruct (Hmerge k v existing Hb HR) as (m & -> & Hm). simpl.
    apply IH.
    + intros k' v' Hin'. apply Hin. by right.
    + intros k'. destruct (decide (k = k')) as [<-|Hne].
      * rewrite lookup_insert_eq, Hb. by constructor.
      * rewrite lookup_insert_ne by done. apply Hinv.
Qed.

Lemma mergeMapsWith_copy {V} (merge : V → V → result V) (R : relation V)
    (a b : gmap string V) :
  (∀ k v existing, b !! k = Some v → R existing v →
     ∃ m, merge existing v = Ok m ∧ R m v) →
  (∀ k, option_Forall2 R (a !! k) (b !! k)) →
  ∃ ret, mergeMapsWith rangeMap a b merge = Ok ret ∧
         ∀ k, option_Forall2 R (ret !! k) (b !! k).
Proof.
  intros Hmerge Hinv. unfold mergeMapsWith, cloneMap.
  apply (mergeEntries_copy merge R b Hmerge); [|done].
  intros k v Hin. rewrite (rangeMap_visitsAll V) in Hin.
  by apply elem_of_map_to_list.
Qed.

Lemma mergePost_self p :
  originalReadable Unmarshal Marshal p → mergePost Unmarshal Marshal p p = Ok p.
Proof.
  intros (m & s & Hm & Hs). apply mergePost_Ok_iff. split.
  - by apply setOriginal_eq_iff.
  - by exists m, m, s.
Qed.

Lemma mergeUser_self u : mergeUser u u = Ok u.
Proof. unfold mergeUser. by case_decide. Qed.

Lemma mergeZipFile_self f : zf_CRC32 f ≠ 0 → mergeZipFile f f = Ok f.
Proof.
  intros Hcrc. unfold mergeZipFile.
  assert (sliceEquals (zf_Extra f) (zf_Extra f) = true) as -> by by apply sliceEquals_spec.
  simpl. repeat case_decide; try done. tauto.
Qed.

Lemma mergeExport_copy r e :
  selfMergeable Unmarshal Marshal e → sameEntities r e →
  ∃ r', mergeExport Unmarshal Marshal rangeMap r e = Ok r' ∧ sameEntities r' e.
Proof.
  intros Hsm Hse. destruct Hsm, Hse. unfold mergeExport.
  case_decide; [done|]. unfold mergeChannels, mergeUsers.
  destruct (mergeSlicesWith_copy sc_Id mergeChannel (Channels r) (Channels e))
    as (c1 & -> & ?); [done|done|intros; apply mergeChannel_self|]. simpl.
  destruct (mergeSlicesWith_copy sc_Id mergeChannel (PublicChannels r) (PublicChannels e))
    as (c2 & -> & ?); [done|done|intros; apply mergeChannel_self|]. simpl.
  destruct (mergeSlicesWith_copy sc_Id mergeChannel (PrivateChannels r) (PrivateChannels e))
    as (c3 & -> & ?); [done|done|intros; apply mergeChannel_self|]. simpl.
  destruct (mergeSlicesWith_copy sc_Id mergeChannel (GroupChannels r) (GroupChannels e))
    as (c4 & -> & ?); [done|done|intros; apply mergeChannel_self|]. simpl.
  destruct (mergeSlicesWith_copy sc_Id mergeChannel (DirectChannels r) (DirectChannels e))
    as (c5 & -> & ?); [done|done|intros; apply mergeChannel_self|]. simpl.
  destruct (mergeSlicesWith_copy su_Id mergeUser (Users r) (Users e))
    as (us & -> & ?); [done|done|intros; apply mergeUser_self|]. simpl.
  destruct (mergeMapsWith_copy (mergePostSlice Unmarshal Marshal rangeMap) (≡ₚ)
              (Posts r) (Posts e)) as (ps & Hps & ?); [|done|].
  { intros k v existing Hk HR. destruct (sm_Posts0 k v Hk) as [Hnd Hread].
    apply mergeSlicesWith_copy; [done|done|].
    intros p Hp. apply mergePost_self. by eapply Forall_forall in Hread. }
  unfold mergePosts. rewrite Hps. simpl.
  destruct (mergeMapsWith_copy mergeZipFile (=) (Uploads r) (Uploads e))
    as (ups & Hups & Hupl).
  { intros k v existing Hk ->. exists v. split; [|done].
    apply mergeZipFile_self. by eapply sm_Uploads0. }
  { intros k. rewrite se_Uploads0. destruct (Uploads e !! k); by constructor. }
  unfold mergeUploads. rewrite Hups. simpl.
  eexists. split; [done|]. constructor; simpl; try done.
  apply map_eq. intros k. specialize (Hupl k). by inversion Hupl; subst.
Qed.

Lemma mergeRounds_copies e n : ∀ r,
  selfMergeable Unmarshal Marshal e → sameEntities r e →
  ∃ r', mergeRounds Unmarshal Marshal rangeMap r (replicate n e) = Ok r' ∧
        sameEntities r' e.
Proof.
  induction n as [|n IH]; intros r Hsm Hse; simpl; [by exists r|].
  destruct (mergeExport_copy r e Hsm Hse) as (r1 & -> & Hse1). simpl. by apply IH.
Qed.

Lemma sameEntities_clone e : sameEntities (cloneExport e) e.
Proof.
  constructor; simpl; done.
Qed.

(** C2 (amended). Merging a single export returns it unchanged. Merging
    two or more copies of an export in which no identity key is repeated
    within a collection and every post and upload can be reconciled with
    itself (the original of each post parses, the checksum of each upload
    is known) succeeds, and the result has the team name, the uploads and
    the channels, users and posts of the copy, each slice in an order the
    merge does not fix. *)
Theorem MergeSlackExports_copies :
  (∀ e, MergeSlackExports Unmarshal Marshal rangeMap [e] = Ok e) ∧
  (∀ e n, selfMergeable Unmarshal Marshal e →
     ∃ r, MergeSlackExports Unmarshal Marshal rangeMap (e :: replicate (S n) e) = Ok r ∧
          sameEntities r e).
Proof.
  split; [done|]. intros e n Hsm.
  apply (mergeRounds_copies e (S n) (cloneExport e) Hsm (sameEntities_clone e)).
Qed.
End MergeProperties.

Lemma MergeSlackExports_team_names_witness :
  MergeSlackExports unmarshalEmpty marshalEmpty rangeListed
    [exportOf "A" [chanGeneral] ∅; exportOf "B" [chanGeneral] ∅; exportOf "A" [] ∅]
  = Err (TeamNamesDiffer "A" "B").
Proof.
  apply (proj1 (proj2 (proj2 (MergeSlackExports_team_names
                                unmarshalEmpty marshalEmpty rangeListed)))).
  simpl. discriminate.
Defined.

(** C5, as stated, fails: the third snapshot names another team than the
    first, but the merge has already stopped at the channel conflict
    between the first two snapshots. *)
Lemma MergeSlackExports_team_names_counterexample :
  TeamName (exportOf "B" [] ∅) ≠ TeamName (exportOf "A" [chanGeneral] ∅) ∧
  MergeSlackExports unmarshalEmpty marshalEmpty rangeListed
    [exportOf "A" [chanGeneral] ∅;
     exportOf "A" [withName "renamed" chanGeneral] ∅;
     exportOf "B" [] ∅]
  = Err (ChannelNamesDiffer "general" "renamed").
Proof. split; [simpl; discriminate | vm_compute; reflexivity]. Qed.

Lemma rangeListed_visitsAll : visitsAll rangeListed.
Proof. intros V m. reflexivity. Qed.

Lemma exportTwoChannels_selfMergeable :
  selfMergeable unmarshalEmpty marshalEmpty exportTwoChannels.
Proof.
  constructor; simpl; try apply NoDup_nil_2.
  - apply (bool_decide_unpack _). vm_compute. reflexivity.
  - intros k ps Hk. by rewrite lookup_empty in Hk.
  - intros k f Hk. apply lookup_singleton_Some in Hk as [_ <-]. simpl. lia.
Qed.

Lemma MergeSlackExports_copies_witness :
  ∃ r, MergeSlackExports unmarshalEmpty marshalEmpty rangeListed
         (exportTwoChannels :: replicate 1 exportTwoChannels) = Ok r ∧
       sameEntities r exportTwoChannels.
Proof.
  apply (proj2 (MergeSlackExports_copies unmarshalEmpty marshalEmpty rangeListed
                  rangeListed_visitsAll)).
  apply exportTwoChannels_selfMergeable.
Defined.

(** C2, as stated, fails: copies whose upload has no known checksum do not
    merge at all; the channels of the merged copies may come out in another
    order than in the copy; and a channel listed twice in the copy is
    listed once in the result. *)
Lemma MergeSlackExports_copies_counterexample :
  MergeSlackExports unmarshalEmpty marshalEmpty rangeListed
    [exportUnknownCRC; exportUnknownCRC] = Err (ZipCRC32Unknown 0 0) ∧
  (Channels <$> MergeSlackExports unmarshalEmpty marshalEmpty rangeReversed
                  [exportTwoChannels; exportTwoChannels])
    = Ok [chanRandom; chanGeneral] ∧
  Channels exportTwoChannels = [chanGeneral; chanRandom] ∧
  (Channels <$> MergeSlackExports unmarshalEmpty marshalEmpty rangeListed
                  [exportRepeatedChannel; exportRepeatedChannel])
    = Ok [chanGeneral] ∧
  Channels exportRepeatedChannel = [chanGeneral; chanGeneral].
Proof. repeat split; vm_compute; reflexivity. Qed.

(** *** Channel sanitisation *)

(** C10. [Sanitise] leaves a direct channel and the log as they are: no
    trimming, no prefix, no fallback to the id, no truncation and no
    warning. *)
Theorem Sanitise_direct
    (ChannelNameMaxLength ChannelDisplayNameMaxRunes : nat)
    (ChannelPurposeMaxRunes ChannelHeaderMaxRunes : nat)
    (isValidChannelNameCharacters : string → bool)
    (truncateRunes : string → nat → string) (RuneCountInString : string → nat)
    (c : IntermediateChannel) (logger : list logLine) :
  ic_Type c = ChannelTypeDirect →
  Sanitise ChannelNameMaxLength ChannelDisplayNameMaxRunes ChannelPurposeMaxRunes
    ChannelHeaderMaxRunes isValidChannelNameCharacters truncateRunes RuneCountInString
    c logger = (c, logger).
Proof. intros Hd. unfold Sanitise. by rewrite decide_True. Qed.

Lemma Sanitise_direct_witness :
  Sanitise 64 64 250 1024 lowerAlnum asciiTruncateRunes asciiRuneCount directChannel []
  = (directChannel, []).
Proof.
  apply (Sanitise_direct 64 64 250 1024 lowerAlnum asciiTruncateRunes asciiRuneCount
           directChannel []).
  reflexivity.
Defined.

(** A channel of another type with the same fields is changed. *)
Example Sanitise_group_trims :
  ic_Name (Sanitise 64 64 250 1024 lowerAlnum asciiTruncateRunes asciiRuneCount
             {| ic_Id := "D1"; ic_OriginalName := "D1"; ic_Name := "_d_";
                ic_DisplayName := "-x"; ic_Members := []; ic_MembersUsernames := [];
                ic_Purpose := ""; ic_Header := ""; ic_Topic := "";
                ic_Type := ChannelTypeGroup |} []).1
  = "slack-channel-d".
Proof. vm_compute. reflexivity. Qed.

(** *** Overrides *)

Lemma overridden_cases o v :
  (o = "" → overridden o v = v) ∧
  (o = "-" → overridden o v = "") ∧
  (o ≠ "" → o ≠ "-" → overridden o v = o).
Proof.
  unfold overridden. repeat split; intros; repeat case_decide; congruence.
Qed.

Lemma copied_cases o v :
  (o = "" → copied o v = v) ∧ (o ≠ "" → copied o v = o).
Proof. unfold copied. split; intros; case_decide; congruence. Qed.

Lemma lookup_size_ne_0 {V} (m : gmap string V) k x : m !! k = Some x → size m ≠ 0%nat.
Proof.
  intros Hk Hs. apply map_size_empty_iff in Hs. subst. by rewrite lookup_empty in Hk.
Qed.

(** One field of an override: the assignment followed by the test for the
    dash, and the plain assignment. *)
Lemma override_dash {A} (get : A → string) (set : string → A → A) o u :
  (∀ v u', get (set v u') = v) → (∀ v w u', set v (set w u') = set v u') →
  set (get u) u = u →
  (if decide (o ≠ "")
   then (if decide (get (set o u) = "-") then set "" (set o u) else set o u)
   else u)
  = set (overridden o (get u)) u.
Proof.
  intros Hgs Hss Hid. unfold overridden. rewrite Hgs.
  repeat case_decide; subst; try done; by rewrite ?Hss.
Qed.

Lemma override_copied {A} (get : A → string) (set : string → A → A) o u :
  set (get u) u = u →
  (if decide (o ≠ "") then set o u else u) = set (copied o (get u)) u.
Proof. intros Hid. unfold copied. repeat case_decide; subst; done. Qed.

Lemma ApplyUserOverrides_found t user o :
  UserOverrides t !! iu_Username user = Some o →
  ApplyUserOverrides t user =
  ({| iu_Id := iu_Id user;
      iu_Username := copied (iu_Username o) (iu_Username user);
      iu_FirstName := overridden (iu_FirstName o) (iu_FirstName user);
      iu_LastName := overridden (iu_LastName o) (iu_LastName user);
      iu_Position := overridden (iu_Position o) (iu_Position user);
      iu_Email := copied (iu_Email o) (iu_Email user);
      iu_Password := copied (iu_Password o) (iu_Password user);
      iu_Memberships := iu_Memberships user |}, t).
Proof.
  intros Ho. unfold ApplyUserOverrides.
  rewrite decide_False by (by eapply lookup_size_ne_0). rewrite Ho. cbv zeta.
  destruct user.
  rewrite (override_copied iu_Username setUsername) by reflexivity.
  rewrite (override_dash iu_FirstName setFirstName) by reflexivity.
  rewrite (override_dash iu_LastName setLastName) by reflexivity.
  rewrite (override_dash iu_Position setPosition) by reflexivity.
  rewrite (override_copied iu_Email setUserEmail) by reflexivity.
  rewrite (override_copied iu_Password setPassword) by reflexivity.
  reflexivity.
Qed.

Lemma ApplyChannelOverrides_found t channel o :
  ChannelOverrides t !! ic_Name channel = Some o →
  ApplyChannelOverrides t channel =
  ({| ic_Id := ic_Id channel; ic_OriginalName := ic_OriginalName channel;
      ic_Name := overridden (ic_Name o) (ic_Name channel);
      ic_DisplayName := overridden (ic_DisplayName o) (ic_DisplayName channel);
      ic_Members := ic_Members channel;
      ic_MembersUsernames := ic_MembersUsernames channel;
      ic_Purpose := overridden (ic_Purpose o) (ic_Purpose channel);
      ic_Header := overridden (ic_Header o) (ic_Header channel);
      ic_Topic := overridden (ic_Topic o) (ic_Topic channel);
      ic_Type := ic_Type channel |}, t).
Proof.
  intros Ho. unfold ApplyChannelOverrides.
  rewrite decide_False by (by eapply lookup_size_ne_0). rewrite Ho. cbv zeta.
  destruct channel.
  rewrite (override_dash ic_Name setName) by reflexivity.
  rewrite (override_dash ic_DisplayName setDisplayName) by reflexivity.
  rewrite (override_dash ic_Purpose setPurpose) by reflexivity.
  rewrite (override_dash ic_Header setHeader) by reflexivity.
  rewrite (override_dash ic_Topic setTopic) by reflexivity.
  reflexivity.
Qed.

(** C8 (amended). When the override table has a row for the target, each
    override field that is empty leaves the target field as it is and each
    other override field replaces it; a single dash clears the field
    instead of being stored in the first name, last name and position of a
    user and in the name, display name, purpose, header and topic of a
    channel, whereas the username, email and password of a user take the
    override value as it is, a dash included. *)
Theorem ApplyOverrides_fields :
  (∀ t user o,
     UserOverrides t !! iu_Username user = Some o →
     ApplyUserOverrides t user =
     ({| iu_Id := iu_Id user;
         iu_Username := copied (iu_Username o) (iu_Username user);
         iu_FirstName := overridden (iu_FirstName o) (iu_FirstName user);
         iu_LastName := overridden (iu_LastName o) (iu_LastName user);
         iu_Position := overridden (iu_Position o) (iu_Position user);
         iu_Email := copied (iu_Email o) (iu_Email user);
         iu_Password := copied (iu_Password o) (iu_Password user);
         iu_Memberships := iu_Memberships user |}, t)) ∧
  (∀ t channel o,
     ChannelOverrides t !! ic_Name channel = Some o →
     ApplyChannelOverrides t channel =
     ({| ic_Id := ic_Id channel; ic_OriginalName := ic_OriginalName channel;
         ic_Name := overridden (ic_Name o) (ic_Name channel);
         ic_DisplayName := overridden (ic_DisplayName o) (ic_DisplayName channel);
         ic_Members := ic_Members channel;
         ic_MembersUsernames := ic_MembersUsernames channel;
         ic_Purpose := overridden (ic_Purpose o) (ic_Purpose channel);
         ic_Header := overridden (ic_Header o) (ic_Header channel);
         ic_Topic := overridden (ic_Topic o) (ic_Topic channel);
         ic_Type := ic_Type channel |}, t)) ∧
  (∀ o v, (o = "" → overridden o v = v) ∧ (o = "-" → overridden o v = "") ∧
          (o ≠ "" → o ≠ "-" → overridden o v = o)) ∧
  (∀ o v, (o = "" → copied o v = v) ∧ (o ≠ "" → copied o v = o)).
Proof.
  split; [apply ApplyUserOverrides_found|]. split; [apply ApplyChannelOverrides_found|].
  split; [apply overridden_cases | apply copied_cases].
Qed.

Lemma ApplyOverrides_fields_witness :
  ApplyChannelOverrides (transformerWith ∅ ∅ {["general" := dashesChannel]}) publicChannel
  = ({| ic_Id := "C1"; ic_OriginalName := "general"; ic_Name := "general";
        ic_DisplayName := "General"; ic_Members := ["U1"; "U2"];
        ic_MembersUsernames := []; ic_Purpose := ""; ic_Header := "welcome";
        ic_Topic := ""; ic_Type := ChannelTypeOpen |},
     transformerWith ∅ ∅ {["general" := dashesChannel]}).
Proof.
  apply (proj1 (proj2 ApplyOverrides_fields)
           (transformerWith ∅ ∅ {["general" := dashesChannel]}) publicChannel dashesChannel).
  vm_compute. reflexivity.
Defined.

(** C8, as stated, fails: a dash in the email column of a user override is
    stored as the email address; the first name and the position of the
    same row are cleared. *)
Lemma ApplyUserOverrides_dash_counterexample :
  UserOverrides (transformerWith ∅ {["alice" := dashes]} ∅) !! iu_Username userAlice
    = Some dashes ∧
  iu_Email dashes = "-" ∧
  iu_Email (ApplyUserOverrides (transformerWith ∅ {["alice" := dashes]} ∅) userAlice).1
    = "-" ∧
  iu_FirstName (ApplyUserOverrides (transformerWith ∅ {["alice" := dashes]} ∅) userAlice).1
    = "".
Proof. repeat split; vm_compute; reflexivity. Qed.

(** *** Placeholder users *)

Section PlaceholderUsers.
Context (NewId : nat → string).

Lemma CreateIntermediateUser_indexed t userID :
  UsersById (CreateIntermediateUser NewId t userID) !! userID
  = Some (ApplyUserOverrides (drawId t)
            {| iu_Id := userID; iu_Username := ToLower userID;
               iu_FirstName := "Deleted"; iu_LastName := "User"; iu_Position := "";
               iu_Email := userID +:+ "@local"; iu_Password := NewId (idsDrawn t);
               iu_Memberships := [] |}).1.
Proof.
  unfold CreateIntermediateUser.
  destruct (ApplyUserOverrides _ _) as [u t']. simpl. apply lookup_insert_eq.
Qed.

(** Where the author is looked up and created under one and the same id,
    a missing author is indexed under exactly that id and becomes the
    author. *)
Lemma authorOf_missing t userID :
  UsersById t !! userID = None →
  ∃ placeholder t',
    authorOf NewId t userID userID = (placeholder, t') ∧
    UsersById t' !! userID = Some placeholder ∧
    placeholder = (ApplyUserOverrides (drawId t)
            {| iu_Id := userID; iu_Username := ToLower userID;
               iu_FirstName := "Deleted"; iu_LastName := "User"; iu_Position := "";
               iu_Email := userID +:+ "@local"; iu_Password := NewId (idsDrawn t);
               iu_Memberships := [] |}).1.
Proof.
  intros Hm. unfold authorOf. rewrite Hm.
  rewrite CreateIntermediateUser_indexed. simpl. eexists _, _.
  split; [done|]. split; [apply CreateIntermediateUser_indexed|done].
Qed.
End PlaceholderUsers.

(** C9 fails for file comments. A file comment by the unknown user [U1]
    whose own user field is empty yields a placeholder indexed under the
    empty id, with an empty username, and [U1] stays out of the index;
    when the user field names the known user [U2], the entry of [U2] is
    replaced by a placeholder, which becomes the author. *)
Theorem file_comment_author_defect :
  UsersById (sampleTransformPost publicChannel false false false false
               (transformerWith {["U2" := userBob]} ∅ ∅, noThreads)
               (fileComment "" "U1")).1 !! "U1" = None ∧
  (iu_Email <$> UsersById (sampleTransformPost publicChannel false false false false
               (transformerWith {["U2" := userBob]} ∅ ∅, noThreads)
               (fileComment "" "U1")).1 !! "") = Some "@local" ∧
  (ip_User <$> threads (sampleTransformPost publicChannel false false false false
               (transformerWith {["U2" := userBob]} ∅ ∅, noThreads)
               (fileComment "" "U1")).2 !! "1549307811.074100") = Some "" ∧
  UsersById (sampleTransformPost publicChannel false false false false
               (transformerWith {["U2" := userBob]} ∅ ∅, noThreads)
               (fileComment "U2" "U1")).1 !! "U1" = None ∧
  (iu_FirstName <$> UsersById (sampleTransformPost publicChannel false false false false
               (transformerWith {["U2" := userBob]} ∅ ∅, noThreads)
               (fileComment "U2" "U1")).1 !! "U2") = Some "Deleted" ∧
  (ip_User <$> threads (sampleTransformPost publicChannel false false false false
               (transformerWith {["U2" := userBob]} ∅ ∅, noThreads)
               (fileComment "U2" "U1")).2 !! "1549307811.074100") = Some "u2".
Proof. repeat split; vm_compute; reflexivity. Qed.

(** *** Thread assembly: collision resolution *)

Lemma wrap64_range z : MinInt64 <= wrap64 z <= MaxInt64.
Proof.
  unfold wrap64, MinInt64, MaxInt64.
  pose proof (Z.mod_pos_bound (z + 2 ^ 63) (2 ^ 64) ltac:(lia)). lia.
Qed.

Lemma wrap64_id z : MinInt64 <= z <= MaxInt64 → wrap64 z = z.
Proof.
  unfold wrap64, MinInt64, MaxInt64. intros H. rewrite Z.mod_small; lia.
Qed.

Lemma wrap64_add_wrap z k : wrap64 (wrap64 z + k) = wrap64 (z + k).
Proof.
  unfold wrap64.
  replace ((z + 2 ^ 63) mod 2 ^ 64 - 2 ^ 63 + k + 2 ^ 63)
    with ((z + 2 ^ 63) mod 2 ^ 64 + k) by lia.
  rewrite Zplus_mod_idemp_l. f_equal. f_equal. lia.
Qed.

Lemma incremented_S k c : incremented (S k) c = wrap64 (c + Z.of_nat (S k)).
Proof.
  induction k as [|k IH]; [done|].
  change (incremented (S (S k)) c) with (wrap64 (incremented (S k) c + 1)).
  rewrite IH, wrap64_add_wrap. f_equal. lia.
Qed.

Lemma wrap64_eq a b : wrap64 a = wrap64 b → (a - b) mod 2 ^ 64 = 0.
Proof.
  unfold wrap64. intros H.
  assert ((a + 2 ^ 63) mod 2 ^ 64 = (b + 2 ^ 63) mod 2 ^ 64) as E by lia.
  replace (a - b) with ((a + 2 ^ 63) - (b + 2 ^ 63)) by lia.
  rewrite Zminus_mod, E, Z.sub_diag. done.
Qed.

(** Fewer than [2 ^ 64] successive increments never meet the same value
    twice. *)
Lemma incremented_inj c i j :
  (i < j)%nat → Z.of_nat j < 2 ^ 64 → incremented i c ≠ incremented j c.
Proof.
  intros Hij Hj E. destruct j as [|j]; [lia|]. rewrite incremented_S in E.
  destruct i as [|i].
  - simpl in E. assert (wrap64 c = wrap64 (c + Z.of_nat (S j))) as E'.
    { assert (wrap64 c = c) as Hc by (apply wrap64_id; rewrite E; apply wrap64_range).
      by rewrite Hc. }
    apply wrap64_eq in E'.
    replace (c - (c + Z.of_nat (S j))) with (- Z.of_nat (S j)) in E' by lia.
    apply Z.mod_divide in E'; [|lia]. destruct E' as [q Hq]. nia.
  - rewrite incremented_S in E. apply wrap64_eq in E.
    replace (c + Z.of_nat (S i) - (c + Z.of_nat (S j)))
      with (- (Z.of_nat (S j) - Z.of_nat (S i))) in E by lia.
    apply Z.mod_divide in E; [|lia]. destruct E as [q Hq]. nia.
Qed.

Lemma nextFree_spec fuel ts : ∀ c,
  ∃ k, (k <= fuel)%nat ∧ nextFree fuel ts c = incremented k c ∧
       (∀ j, (j < k)%nat → incremented j c ∈ ts) ∧
       ((k < fuel)%nat → nextFree fuel ts c ∉ ts).
Proof.
  induction fuel as [|fuel IH]; intros c; simpl.
  - exists 0%nat. repeat split; [done|intros; lia|intros; lia].
  - case_decide as Hc.
    + destruct (IH (wrap64 (c + 1))) as (k & Hk & E & Hin & Hout).
      assert (∀ j, incremented j (wrap64 (c + 1)) = incremented (S j) c) as Hshift.
      { intros j. induction j as [|j IHj]; [done|].
        change (incremented (S j) (wrap64 (c + 1)))
          with (wrap64 (incremented j (wrap64 (c + 1)) + 1)).
        by rewrite IHj. }
      exists (S k). split; [lia|]. split; [by rewrite E, Hshift|]. split.
      * intros [|j] Hj; [done|]. rewrite <- Hshift. apply Hin. lia.
      * intros Hlt. apply Hout. lia.
    + exists 0%nat. repeat split; [lia|intros; lia|done].
Qed.

(** The loop ends on a timestamp that is not in the map. *)
Lemma freeTimestamp_fresh ts c :
  Z.of_nat (size ts) < 2 ^ 64 → freeTimestamp ts c ∉ ts.
Proof.
  intros Hsize. unfold freeTimestamp.
  destruct (nextFree_spec (S (size ts)) ts c) as (k & Hk & E & Hin & Hout).
  destruct (decide (k < S (size ts))%nat) as [Hlt|Hge]; [by apply Hout|].
  assert (k = S (size ts)) as -> by lia. exfalso.
  set (l := (λ j, incremented j c) <$> seq 0 (S (size ts))).
  assert (NoDup l) as Hnd.
  { unfold l. apply NoDup_fmap_2_strong; [|apply NoDup_seq].
    intros i j Hi Hj Heq. apply elem_of_seq in Hi, Hj.
    destruct (decide (i = j)) as [|Hne]; [done|exfalso].
    destruct (decide (i < j)%nat).
    - by apply (incremented_inj c i j); [|lia|].
    - by apply (incremented_inj c j i); [lia|lia|]. }
  assert (length l <= size ts)%nat as Hlen.
  { rewrite <- (size_list_to_set (C := gset Z) l Hnd). apply subseteq_size.
    intros x Hx. apply elem_of_list_to_set in Hx. unfold l in Hx.
    apply list_elem_of_fmap in Hx as (j & -> & Hj). apply elem_of_seq in Hj.
    apply Hin. lia. }
  unfold l in Hlen. rewrite length_fmap, length_seq in Hlen. lia.
Qed.

(** The loop increments [createAt] by one until it is absent. *)
Lemma freeTimestamp_incremented ts c :
  ∃ k, (k <= S (size ts))%nat ∧ freeTimestamp ts c = incremented k c ∧
       ∀ j, (j < k)%nat → incremented j c ∈ ts.
Proof.
  destruct (nextFree_spec (S (size ts)) ts c) as (k & Hk & E & Hin & _).
  by exists k.
Qed.

Lemma incremented_small k c :
  MinInt64 <= c → c + Z.of_nat k <= MaxInt64 → incremented k c = c + Z.of_nat k.
Proof.
  intros Hlo Hhi. destruct k as [|k]; [simpl; lia|].
  rewrite incremented_S. apply wrap64_id. lia.
Qed.

(** Away from the end of the [int64] range the result is the least free
    timestamp from [createAt] upwards. *)
Lemma freeTimestamp_least ts c :
  MinInt64 <= c → c + Z.of_nat (size ts) < MaxInt64 →
  c <= freeTimestamp ts c ∧ (freeTimestamp ts c ∉ ts) ∧
  ∀ x, c <= x < freeTimestamp ts c → x ∈ ts.
Proof.
  intros Hlo Hhi.
  assert (Z.of_nat (size ts) < 2 ^ 64) as Hsize by (unfold MinInt64, MaxInt64 in *; lia).
  destruct (freeTimestamp_incremented ts c) as (k & Hk & E & Hin).
  rewrite incremented_small in E by lia.
  split; [lia|]. split; [by apply freeTimestamp_fresh|].
  intros x Hx. specialize (Hin (Z.to_nat (x - c)) ltac:(lia)).
  rewrite incremented_small in Hin by lia.
  by replace (c + Z.of_nat (Z.to_nat (x - c))) with x in Hin by lia.
Qed.

(** *** Thread assembly: distinct timestamps *)

Lemma placePost_CreateAt channel ts p :
  ip_CreateAt (placePost channel ts p) = freeTimestamp ts (ip_CreateAt p).
Proof. unfold placePost. by case_decide. Qed.

Lemma placePost_Replies channel ts p :
  ip_Replies (placePost channel ts p) = ip_Replies p.
Proof. unfold placePost. by case_decide. Qed.

Lemma AddPostToThreads_timestamps o p channel st :
  timestamps (AddPostToThreads o p channel st)
  = {[ip_CreateAt (placePost channel (timestamps st) p)]} ∪ timestamps st.
Proof.
  unfold AddPostToThreads. destruct (isReply o).
  - by destruct (threads st !! sp_ThreadTS o).
  - by case_decide.
Qed.

Lemma AddPostToThreads_threads o p channel st :
  threads (AddPostToThreads o p channel st)
  = if isReply o then
      match threads st !! sp_ThreadTS o with
      | Some root =>
          <[sp_ThreadTS o := setReplies (ip_Replies root
               ++ [placePost channel (timestamps st) p]) root]> (threads st)
      | None => threads st
      end
    else <[sp_TimeStamp o := placePost channel (timestamps st) p]> (threads st).
Proof.
  unfold AddPostToThreads. destruct (isReply o).
  - by destruct (threads st !! sp_ThreadTS o).
  - case_decide as E; [by rewrite E|done].
Qed.

Section Held.
(** The timestamps of the posts a [threads] map holds. *)
#[local] Abbreviation held m :=
  (ip_CreateAt <$> ((map_to_list m).*2 ≫= withReplies)).

Lemma held_insert_fresh (m : gmap string IntermediatePost) k v :
  m !! k = None → held (<[k := v]> m) ≡ₚ (ip_CreateAt <$> withReplies v) ++ held m.
Proof.
  intros Hk. rewrite map_to_list_insert by done. simpl. by rewrite fmap_app.
Qed.

Lemma held_lookup (m : gmap string IntermediatePost) k v :
  m !! k = Some v → held m ≡ₚ (ip_CreateAt <$> withReplies v) ++ held (delete k m).
Proof.
  intros Hk. rewrite <- (map_to_list_delete m k v Hk). simpl. by rewrite fmap_app.
Qed.

Lemma held_insert (m : gmap string IntermediatePost) k v :
  held (<[k := v]> m) ≡ₚ (ip_CreateAt <$> withReplies v) ++ held (delete k m).
Proof.
  rewrite <- insert_delete_eq. apply held_insert_fresh. apply lookup_delete_eq.
Qed.

Lemma held_delete_NoDup (m : gmap string IntermediatePost) k :
  NoDup (held m) → NoDup (held (delete k m)).
Proof.
  destruct (m !! k) as [v|] eqn:Hk; [|by rewrite delete_id].
  rewrite (held_lookup m k v Hk). by intros [_ [_ ?]]%NoDup_app.
Qed.

Lemma held_delete_elem (m : gmap string IntermediatePost) k c :
  c ∈ held (delete k m) → c ∈ held m.
Proof.
  destruct (m !! k) as [v|] eqn:Hk; [|by rewrite delete_id].
  rewrite (held_lookup m k v Hk), elem_of_app. by right.
Qed.

Lemma withReplies_append root q :
  ip_CreateAt <$> withReplies (setReplies (ip_Replies root ++ [q]) root)
  ≡ₚ ip_CreateAt q :: (ip_CreateAt <$> withReplies root).
Proof.
  unfold withReplies. cbn [setReplies ip_Replies]. rewrite !fmap_cons, fmap_app.
  cbn [setReplies ip_CreateAt].
  rewrite (Permutation_app_comm _ (ip_CreateAt <$> [q])). simpl. apply perm_swap.
Qed.

(** One call keeps the timestamps distinct. *)
Lemma AddPostToThreads_distinct n o p channel st :
  Z.of_nat n < 2 ^ 64 → ip_Replies p = [] →
  distinctTimestamps n st →
  distinctTimestamps (S n) (AddPostToThreads o p channel st).
Proof.
  intros Hn Hp (Hnd & Hin & Hsize).
  set (q := placePost channel (timestamps st) p).
  assert (ip_CreateAt q ∉ timestamps st) as Hfresh.
  { unfold q. rewrite placePost_CreateAt. apply freeTimestamp_fresh. lia. }
  assert (ip_CreateAt q ∉ held (threads st)) as Hnew by (intros Hc; by apply Hfresh, Hin).
  unfold distinctTimestamps.
  rewrite AddPostToThreads_timestamps, AddPostToThreads_threads. fold q.
  assert (size ({[ip_CreateAt q]} ∪ timestamps st) <= S n)%nat as Hsize'.
  { rewrite size_union by set_solver. rewrite size_singleton. lia. }
  destruct (isReply o).
  - destruct (threads st !! sp_ThreadTS o) as [root|] eqn:Hroot.
    + assert (held (<[sp_ThreadTS o := setReplies (ip_Replies root ++ [q]) root]> (threads st))
              ≡ₚ ip_CreateAt q :: held (threads st)) as Hperm.
      { rewrite held_insert, (held_lookup _ _ _ Hroot), withReplies_append. done. }
      split; [rewrite Hperm; by apply NoDup_cons|]. split; [|done].
      intros c. rewrite Hperm, elem_of_cons. intros [->|Hc]; [set_solver|].
      apply Hin in Hc. set_solver.
    + split; [done|]. split; [|done]. intros c Hc. apply Hin in Hc. set_solver.
  - assert (held (<[sp_TimeStamp o := q]> (threads st))
            ≡ₚ ip_CreateAt q :: held (delete (sp_TimeStamp o) (threads st))) as Hperm.
    { rewrite held_insert. unfold withReplies. unfold q at 2.
      by rewrite placePost_Replies, Hp. }
    split; [|split; [|done]].
    + rewrite Hperm. apply NoDup_cons. split; [|by apply held_delete_NoDup].
      intros Hc. by apply held_delete_elem, Hnew in Hc.
    + intros c. rewrite Hperm, elem_of_cons. intros [->|Hc]; [set_solver|].
      apply held_delete_elem, Hin in Hc. set_solver.
Qed.
End Held.

Lemma distinctTimestamps_mono n m st :
  (n <= m)%nat → distinctTimestamps n st → distinctTimestamps m st.
Proof. intros Hnm (? & ? & ?). repeat split; try done. lia. Qed.

Lemma distinctTimestamps_noThreads : distinctTimestamps 0 noThreads.
Proof.
  unfold distinctTimestamps, noThreads. cbn [threads timestamps].
  rewrite map_to_list_empty. simpl.
  split; [apply NoDup_nil_2|]. split; [intros c Hc; by apply elem_of_nil in Hc|].
  vm_compute. lia.
Qed.
Section PostsProperties.
Context (NewId : nat → string) (supportedEmojis : gset string).
Context (PostPropsMaxRunes : nat) (propsRuneCount : gmap string PropValue → nat).
Context (AddFilesToPost : SlackPost → bool → bool → list string * list logLine).
Context (IsPlainMessage IsFileComment IsBotMessage IsJoinLeaveMessage : SlackPost → bool).
Context (IsMeMessage IsChannelTopicMessage IsChannelPurposeMessage : SlackPost → bool).
Context (IsChannelNameMessage : SlackPost → bool).
Context (sortByMicroSeconds : list SlackPost → list SlackPost).

(** What a round of the loop does to the thread state: nothing, or one
    call of [AddPostToThreads] with a post that has no replies yet. *)
Lemma finishPost_threads t st post newPost channel addAttachments addOriginal
    discardInvalidProps dropped kept :
  ip_Replies newPost = [] →
  (finishPost PostPropsMaxRunes propsRuneCount t st post newPost channel addAttachments
     addOriginal discardInvalidProps dropped kept).2 = st ∨
  ∃ p', ip_Replies p' = [] ∧
    (finishPost PostPropsMaxRunes propsRuneCount t st post newPost channel addAttachments
       addOriginal discardInvalidProps dropped kept).2
    = AddPostToThreads post p' channel st.
Proof.
  intros Hr. unfold finishPost. destruct (GetPropsForPost _ _ _ _) as [props runes].
  case_decide; [right; by exists (setProps props newPost)|].
  destruct discardInvalidProps; [by left|right; by exists newPost].
Qed.

Lemma CreateAndAddPostToThreads_threads t post st channel discardInvalidProps addOriginal :
  (CreateAndAddPostToThreads NewId supportedEmojis PostPropsMaxRunes propsRuneCount
     t post st channel discardInvalidProps addOriginal).2 = st ∨
  ∃ p', ip_Replies p' = [] ∧
    (CreateAndAddPostToThreads NewId supportedEmojis PostPropsMaxRunes propsRuneCount
       t post st channel discardInvalidProps addOriginal).2
    = AddPostToThreads post p' channel st.
Proof.
  unfold CreateAndAddPostToThreads.
  destruct (authorOf _ _ _ _) as [author t1].
  destruct (SlackConvertReactions _ _ _ _ _) as [reactions t2].
  by apply finishPost_threads.
Qed.

Lemma transformPost_threads channel skipAttachments discardInvalidProps allowDownload
    addOriginal t st post :
  (transformPost NewId supportedEmojis PostPropsMaxRunes propsRuneCount AddFilesToPost
     IsPlainMessage IsFileComment IsBotMessage IsJoinLeaveMessage IsMeMessage
     IsChannelTopicMessage IsChannelPurposeMessage IsChannelNameMessage
     channel skipAttachments discardInvalidProps allowDownload addOriginal
     (t, st) post).2 = st ∨
  ∃ o' p', ip_Replies p' = [] ∧
    (transformPost NewId supportedEmojis PostPropsMaxRunes propsRuneCount AddFilesToPost
       IsPlainMessage IsFileComment IsBotMessage IsJoinLeaveMessage IsMeMessage
       IsChannelTopicMessage IsChannelPurposeMessage IsChannelNameMessage
       channel skipAttachments discardInvalidProps allowDownload addOriginal
       (t, st) post).2
    = AddPostToThreads o' p' channel st.
Proof.
  unfold transformPost.
  destruct (IsPlainMessage post).
  { case_decide; [by left|].
    destruct (authorOf _ _ _ _) as [author t1].
    destruct (SlackConvertReactions _ _ _ _ _) as [reactions t2].
    destruct (AddFilesToPost _ _ _) as [files lines].
    match goal with |- context [finishPost ?a ?b ?c ?d ?e ?f ?g ?h ?i ?j ?k ?l] =>
      destruct (finishPost_threads c d e f g h i j k l) as [Hf|(p' & ? & Hf)];
      [done|by left|right; by exists e, p'] end. }
  destruct (IsFileComment post).
  { destruct (sp_Comment post) as [comment|]; [|by left].
    case_decide; [by left|].
    destruct (authorOf _ _ _ _) as [author t1].
    destruct (SlackConvertReactions _ _ _ _ _) as [reactions t2].
    match goal with |- context [finishPost ?a ?b ?c ?d ?e ?f ?g ?h ?i ?j ?k ?l] =>
      destruct (finishPost_threads c d e f g h i j k l) as [Hf|(p' & ? & Hf)];
      [done|by left|right; by exists e, p'] end. }
  destruct (IsBotMessage post).
  { case_decide; [by left|].
    destruct (authorOf _ _ _ _) as [author t1].
    destruct (SlackConvertReactions _ _ _ _ _) as [reactions t2].
    destruct (AddFilesToPost _ _ _) as [files lines].
    match goal with |- context [finishPost ?a ?b ?c ?d ?e ?f ?g ?h ?i ?j ?k ?l] =>
      destruct (finishPost_threads c d e f g h i j k l) as [Hf|(p' & ? & Hf)];
      [done|by left|right; by exists e, p'] end. }
  destruct (_ || _).
  { case_decide; [by left|].
    destruct (CreateAndAddPostToThreads_threads t post st channel discardInvalidProps
                addOriginal) as [Hf|(p' & ? & Hf)]; [by left|right; by exists post, p']. }
  destruct (IsChannelNameMessage post); [|by left].
  case_decide; [by left|].
  destruct (CreateAndAddPostToThreads_threads t post st channel discardInvalidProps
              addOriginal) as [Hf|(p' & ? & Hf)]; [by left|right; by exists post, p'].
Qed.

Lemma transformPost_distinct channel skipAttachments discardInvalidProps allowDownload
    addOriginal n t st post :
  Z.of_nat n < 2 ^ 64 → distinctTimestamps n st →
  distinctTimestamps (S n)
    (transformPost NewId supportedEmojis PostPropsMaxRunes propsRuneCount AddFilesToPost
       IsPlainMessage IsFileComment IsBotMessage IsJoinLeaveMessage IsMeMessage
       IsChannelTopicMessage IsChannelPurposeMessage IsChannelNameMessage
       channel skipAttachments discardInvalidProps allowDownload addOriginal
       (t, st) post).2.
Proof.
  intros Hn Hd.
  destruct (transformPost_threads channel skipAttachments discardInvalidProps allowDownload
              addOriginal t st post) as [->|(o' & p' & Hp' & ->)].
  - eapply distinctTimestamps_mono; [|done]. lia.
  - by apply AddPostToThreads_distinct.
Qed.

Lemma transformPosts_distinct channel skipAttachments discardInvalidProps allowDownload
    addOriginal posts : ∀ n t st,
  Z.of_nat (n + length posts) <= 2 ^ 64 → distinctTimestamps n st →
  distinctTimestamps (n + length posts)
    (foldl (transformPost NewId supportedEmojis PostPropsMaxRunes propsRuneCount
              AddFilesToPost IsPlainMessage IsFileComment IsBotMessage IsJoinLeaveMessage
              IsMeMessage IsChannelTopicMessage IsChannelPurposeMessage
              IsChannelNameMessage channel skipAttachments discardInvalidProps
              allowDownload addOriginal) (t, st) posts).2.
Proof.
  induction posts as [|post posts IH]; intros n t st Hn Hd; cbn [foldl length].
  - by rewrite Nat.add_0_r.
  - pose proof (transformPost_distinct channel skipAttachments discardInvalidProps
                  allowDownload addOriginal n t st post ltac:(simpl in Hn; lia) Hd) as Hd'.
    destruct (transformPost _ _ _ _ _ _ _ _ _ _ _ _ _ _ _ _ _ _ (t, st) post) as [t' st'].
    replace (n + S (length posts))%nat with (S n + length posts)%nat by lia.
    apply (IH (S n) t' st'); [simpl in Hn; lia|exact Hd'].
Qed.
End PostsProperties.
(** *** Thread assembly: every post is filed *)

Lemma addAll_app channel l1 l2 st :
  addAll channel (l1 ++ l2) st = addAll channel l2 (addAll channel l1 st).
Proof. unfold addAll. apply foldl_app. Qed.

Lemma addAll_cons channel call l st :
  addAll channel (call :: l) st
  = addAll channel l (AddPostToThreads call.1 call.2 channel st).
Proof. done. Qed.

Lemma size_add_le (c : Z) (ts : gset Z) : (size ({[c]} ∪ ts) <= S (size ts))%nat.
Proof.
  rewrite size_union_alt, size_singleton.
  assert (size (ts ∖ {[c]}) <= size ts)%nat by (apply subseteq_size; set_solver). lia.
Qed.

Lemma addAll_timestamps channel calls : ∀ st,
  timestamps st ⊆ timestamps (addAll channel calls st) ∧
  (size (timestamps (addAll channel calls st)) <= size (timestamps st) + length calls)%nat.
Proof.
  induction calls as [|call calls IH]; intros st.
  - simpl. split; [done|lia].
  - rewrite addAll_cons. destruct (IH (AddPostToThreads call.1 call.2 channel st)) as [Hs Hn].
    rewrite AddPostToThreads_timestamps in Hs, Hn. split; [set_solver|].
    pose proof (size_add_le (ip_CreateAt (placePost channel (timestamps st) call.2))
                  (timestamps st)) as Hu.
    cbn [length]. lia.
Qed.

Lemma setReplies_id q : setReplies (ip_Replies q) q = q.
Proof. by destruct q. Qed.

Lemma setReplies_setReplies v w q : setReplies v (setReplies w q) = setReplies v q.
Proof. done. Qed.

(** The key under which the root of a post is filed. *)
Lemma filed_now_root o p channel st :
  isReply o = false →
  filed (AddPostToThreads o p channel st) o (placePost channel (timestamps st) p).
Proof.
  intros Ho. unfold filed. rewrite Ho, AddPostToThreads_threads, Ho.
  exists []. by rewrite lookup_insert_eq, app_nil_r, setReplies_id.
Qed.

Lemma filed_now_reply o p channel st root :
  isReply o = true → threads st !! sp_ThreadTS o = Some root →
  filed (AddPostToThreads o p channel st) o (placePost channel (timestamps st) p).
Proof.
  intros Ho Hroot. unfold filed. rewrite Ho, AddPostToThreads_threads, Ho, Hroot.
  eexists. rewrite lookup_insert_eq. split; [done|].
  cbn [ip_Replies setReplies]. apply elem_of_app. right. by left.
Qed.

Lemma filed_preserved o q x px channel st :
  filed st o q →
  (isReply x = false → sp_TimeStamp x ≠ (if isReply o then sp_ThreadTS o else sp_TimeStamp o)) →
  filed (AddPostToThreads x px channel st) o q.
Proof.
  unfold filed. intros Hf Hkey. rewrite AddPostToThreads_threads.
  destruct (isReply x) eqn:Hx.
  - destruct (threads st !! sp_ThreadTS x) as [rootx|] eqn:Hrx; [|done].
    destruct (isReply o).
    + destruct Hf as (root & Hroot & Hq).
      destruct (decide (sp_ThreadTS x = sp_ThreadTS o)) as [E|E].
      * rewrite E in *. rewrite lookup_insert_eq. eexists. split; [done|].
        cbn [ip_Replies setReplies]. apply elem_of_app. left. congruence.
      * rewrite lookup_insert_ne by done. by exists root.
    + destruct Hf as (replies & Hroot).
      destruct (decide (sp_ThreadTS x = sp_TimeStamp o)) as [E|E].
      * rewrite E in *. rewrite lookup_insert_eq.
        exists (replies ++ [placePost channel (timestamps st) px]).
        assert (rootx = setReplies (ip_Replies q ++ replies) q) as -> by congruence.
        cbn [ip_Replies setReplies]. by rewrite app_assoc.
      * rewrite lookup_insert_ne by done. by exists replies.
  - specialize (Hkey eq_refl). destruct (isReply o).
    + destruct Hf as (root & Hroot & Hq). rewrite lookup_insert_ne by done. by exists root.
    + destruct Hf as (replies & Hroot). rewrite lookup_insert_ne by done. by exists replies.
Qed.

Lemma filed_addAll o q channel calls : ∀ st,
  filed st o q →
  (∀ x, x ∈ calls.*1 → isReply x = false →
        sp_TimeStamp x ≠ (if isReply o then sp_ThreadTS o else sp_TimeStamp o)) →
  filed (addAll channel calls st) o q.
Proof.
  induction calls as [|call calls IH]; intros st Hf Hkeys; [done|].
  rewrite addAll_cons. apply IH.
  - apply filed_preserved; [done|]. apply Hkeys. left.
  - intros x Hx. apply Hkeys. by right.
Qed.

Lemma wellThreaded_prefix l1 l2 : wellThreaded (l1 ++ l2) → wellThreaded l1.
Proof.
  intros [Hnd Hroots]. split.
  - rewrite filter_app, fmap_app in Hnd. by apply NoDup_app in Hnd as [? _].
  - intros i o Hi Ho.
    destruct (Hroots i o (lookup_app_l_Some _ _ _ _ Hi) Ho) as (j & r & Hj & Hr & ? & ?).
    exists j, r. repeat split; try done.
    apply lookup_lt_Some in Hi. by rewrite lookup_app_l in Hr by lia.
Qed.

(** No root after [a] carries the timestamp string of the root [a]. *)
Lemma roots_distinct l1 a l2 x :
  NoDup (sp_TimeStamp <$> filter (λ o, isReply o = false) (l1 ++ a :: l2)) →
  isReply a = false → x ∈ l2 → isReply x = false → sp_TimeStamp x ≠ sp_TimeStamp a.
Proof.
  intros Hnd Ha Hx Hxr E.
  rewrite filter_app, filter_cons_True, fmap_app, fmap_cons in Hnd by done.
  apply NoDup_app in Hnd as (_ & _ & Hnd). apply NoDup_cons in Hnd as [Hnotin _].
  apply Hnotin. rewrite <- E. apply list_elem_of_fmap. exists x. split; [done|].
  by apply list_elem_of_filter.
Qed.

Lemma filed_root channel pre o p post :
  wellThreaded ((pre ++ (o, p) :: post).*1) → isReply o = false →
  filed (addAll channel (pre ++ (o, p) :: post) noThreads) o
        (placePost channel (timestamps (addAll channel pre noThreads)) p).
Proof.
  intros [Hnd _] Ho. rewrite addAll_app, addAll_cons.
  apply filed_addAll; [by apply filed_now_root|].
  intros x Hx Hxr. rewrite Ho. rewrite fmap_app, fmap_cons in Hnd.
  by eapply roots_distinct.
Qed.

Lemma filed_reply channel pre o p post :
  wellThreaded ((pre ++ (o, p) :: post).*1) → isReply o = true →
  filed (addAll channel (pre ++ (o, p) :: post) noThreads) o
        (placePost channel (timestamps (addAll channel pre noThreads)) p).
Proof.
  intros Hwt Ho. pose proof Hwt as [Hnd Hroots].
  rewrite fmap_app, fmap_cons in Hnd, Hroots. cbn [fst] in Hnd, Hroots.
  destruct (Hroots (length pre.*1) o (list_lookup_middle _ _ _ _ eq_refl) Ho)
    as (j & r & Hj & Hr & Hrr & Hkey).
  rewrite lookup_app_l in Hr by done.
  apply list_lookup_fmap_Some in Hr as ([r' pr] & -> & Hpre). cbn [fst] in *.
  pose proof (take_drop_middle _ _ _ Hpre) as Hsplit.
  (* the root is filed when the reply arrives *)
  assert (wellThreaded pre.*1) as Hwtpre.
  { apply (wellThreaded_prefix _ (((o, p) :: post).*1)). by rewrite <- fmap_app. }
  rewrite <- Hsplit in Hwtpre.
  pose proof (filed_root channel _ _ _ _ Hwtpre Hrr) as Hfr.
  rewrite Hsplit in Hfr. unfold filed in Hfr. rewrite Hrr in Hfr.
  destruct Hfr as (replies & Hroot). rewrite Hkey in Hroot.
  rewrite addAll_app, addAll_cons. cbn [fst snd].
  apply filed_addAll; [by eapply filed_now_reply|].
  intros x Hx Hxr. rewrite Ho, <- Hkey.
  rewrite <- Hsplit in Hnd. rewrite fmap_app, fmap_cons, <- app_assoc in Hnd.
  cbn [fst] in Hnd. eapply roots_distinct; [exact Hnd|done| |done].
  change (x ∈ (drop (S j) pre).*1 ++ o :: post.*1). apply elem_of_app. right. by right.
Qed.

(** Every post whose thread is identified is in the output. *)
Lemma filed_always channel pre o p post :
  wellThreaded ((pre ++ (o, p) :: post).*1) →
  filed (addAll channel (pre ++ (o, p) :: post) noThreads) o
        (placePost channel (timestamps (addAll channel pre noThreads)) p).
Proof.
  intros Hwt. destruct (isReply o) eqn:Ho; [by apply filed_reply|by apply filed_root].
Qed.

(** Of two posts with the same timestamp the later one is placed later. *)
Lemma placed_in_order channel pre o1 p1 mid p2 :
  ip_CreateAt p1 = ip_CreateAt p2 → MinInt64 <= ip_CreateAt p1 →
  ip_CreateAt p1 + Z.of_nat (length pre + 1 + length mid) < MaxInt64 →
  ip_CreateAt p1
    <= ip_CreateAt (placePost channel (timestamps (addAll channel pre noThreads)) p1) ∧
  ip_CreateAt (placePost channel (timestamps (addAll channel pre noThreads)) p1)
    < ip_CreateAt (placePost channel
        (timestamps (addAll channel mid
           (AddPostToThreads o1 p1 channel (addAll channel pre noThreads)))) p2).
Proof.
  intros Heq Hlo Hhi.
  set (st1 := addAll channel pre noThreads).
  set (st2 := addAll channel mid (AddPostToThreads o1 p1 channel st1)).
  destruct (addAll_timestamps channel pre noThreads) as [_ Hn1]. fold st1 in Hn1.
  change (size (timestamps noThreads)) with (size (∅ : gset Z)) in Hn1.
  rewrite size_empty in Hn1.
  destruct (addAll_timestamps channel mid (AddPostToThreads o1 p1 channel st1)) as [Hs2 Hn2].
  fold st2 in Hs2, Hn2. rewrite AddPostToThreads_timestamps in Hs2, Hn2.
  assert (size ({[ip_CreateAt (placePost channel (timestamps st1) p1)]} ∪ timestamps st1)
          <= S (size (timestamps st1)))%nat as Hn1'.
  { apply size_add_le. }
  rewrite !placePost_CreateAt in *.
  destruct (freeTimestamp_least (timestamps st1) (ip_CreateAt p1)) as (H1 & _ & Hbelow1);
    [done|lia|].
  destruct (freeTimestamp_least (timestamps st2) (ip_CreateAt p2)) as (H2 & Hfresh2 & _);
    [lia|lia|].
  split; [done|].
  destruct (decide (freeTimestamp (timestamps st1) (ip_CreateAt p1)
                    < freeTimestamp (timestamps st2) (ip_CreateAt p2))) as [|Hge]; [done|].
  exfalso. apply Hfresh2. apply Hs2.
  destruct (decide (freeTimestamp (timestamps st2) (ip_CreateAt p2)
                    = freeTimestamp (timestamps st1) (ip_CreateAt p1))) as [->|Hne].
  - set_solver.
  - apply elem_of_union. right. apply Hbelow1. lia.
Qed.
(** *** The loop over a channel as a run of [AddPostToThreads] *)

Lemma AddPostToThreads_original o o' p channel st :
  sp_TimeStamp o' = sp_TimeStamp o → sp_ThreadTS o' = sp_ThreadTS o →
  AddPostToThreads o' p channel st = AddPostToThreads o p channel st.
Proof.
  intros Hts Hth. unfold AddPostToThreads, isReply. by rewrite Hts, Hth.
Qed.

Section ImportedProperties.
Context (NewId : nat → string) (supportedEmojis : gset string).
Context (PostPropsMaxRunes : nat) (propsRuneCount : gmap string PropValue → nat).
Context (AddFilesToPost : SlackPost → bool → bool → list string * list logLine).
Context (IsPlainMessage IsFileComment IsBotMessage IsJoinLeaveMessage : SlackPost → bool).
Context (IsMeMessage IsChannelTopicMessage IsChannelPurposeMessage : SlackPost → bool).
Context (IsChannelNameMessage : SlackPost → bool).
Context (sortByMicroSeconds : list SlackPost → list SlackPost).

#[local] Abbreviation imported' := (imported PostPropsMaxRunes propsRuneCount IsPlainMessage
  IsFileComment IsBotMessage IsJoinLeaveMessage IsMeMessage IsChannelTopicMessage
  IsChannelPurposeMessage IsChannelNameMessage).
#[local] Abbreviation messageOf' := (messageOf IsPlainMessage IsFileComment).
#[local] Abbreviation transformPost' := (transformPost NewId supportedEmojis PostPropsMaxRunes
  propsRuneCount AddFilesToPost IsPlainMessage IsFileComment IsBotMessage
  IsJoinLeaveMessage IsMeMessage IsChannelTopicMessage IsChannelPurposeMessage
  IsChannelNameMessage).

Lemma finishPost_imported t st post newPost channel addAttachments addOriginal
    discardInvalidProps dropped kept message original :
  builtFor original message newPost →
  if propsAllow PostPropsMaxRunes propsRuneCount post addAttachments addOriginal
       discardInvalidProps
  then ∃ p, builtFor original message p ∧
         (finishPost PostPropsMaxRunes propsRuneCount t st post newPost channel
            addAttachments addOriginal discardInvalidProps dropped kept).2
         = AddPostToThreads post p channel st
  else (finishPost PostPropsMaxRunes propsRuneCount t st post newPost channel
          addAttachments addOriginal discardInvalidProps dropped kept).2 = st.
Proof.
  intros Hb. unfold finishPost, propsAllow.
  destruct (GetPropsForPost _ _ _ _) as [props runes]. cbn [snd].
  destruct (decide (runes <= PostPropsMaxRunes)%nat) as [Hfit|Hfit].
  - rewrite bool_decide_eq_true_2 by done. simpl.
    exists (setProps props newPost). split; [|done]. by destruct Hb as (? & ? & ?).
  - rewrite bool_decide_eq_false_2 by done. simpl.
    destruct discardInvalidProps; simpl; [done|]. by exists newPost.
Qed.

Lemma CreateAndAddPostToThreads_imported t post st channel discardInvalidProps addOriginal :
  if propsAllow PostPropsMaxRunes propsRuneCount post false addOriginal discardInvalidProps
  then ∃ p, builtFor post (sp_Text post) p ∧
         (CreateAndAddPostToThreads NewId supportedEmojis PostPropsMaxRunes propsRuneCount
            t post st channel discardInvalidProps addOriginal).2
         = AddPostToThreads post p channel st
  else (CreateAndAddPostToThreads NewId supportedEmojis PostPropsMaxRunes propsRuneCount
          t post st channel discardInvalidProps addOriginal).2 = st.
Proof.
  unfold CreateAndAddPostToThreads.
  destruct (authorOf _ _ _ _) as [author t1].
  destruct (SlackConvertReactions _ _ _ _ _) as [reactions t2].
  by apply finishPost_imported.
Qed.

(** What a round of the loop does to the thread state: one call of
    [AddPostToThreads] for an imported post, nothing for another. *)
Lemma transformPost_imported channel skipAttachments discardInvalidProps allowDownload
    addOriginal t st post :
  if imported' discardInvalidProps addOriginal post
  then ∃ p, builtFor post (messageOf' post) p ∧
         (transformPost' channel skipAttachments discardInvalidProps allowDownload
            addOriginal (t, st) post).2
         = AddPostToThreads post p channel st
  else (transformPost' channel skipAttachments discardInvalidProps allowDownload
          addOriginal (t, st) post).2 = st.
Proof.
  unfold transformPost, imported, messageOf.
  destruct (IsPlainMessage post).
  { destruct (decide (sp_User post = "")) as [Hu|Hu].
    - by rewrite bool_decide_eq_false_2 by (intros Hn; by apply Hn).
    - rewrite bool_decide_eq_true_2 by done. cbn [andb].
      destruct (authorOf _ _ _ _) as [author t1].
      destruct (SlackConvertReactions _ _ _ _ _) as [reactions t2].
      destruct (AddFilesToPost _ _ _) as [files lines].
      by apply finishPost_imported. }
  destruct (IsFileComment post).
  { destruct (sp_Comment post) as [comment|]; [|done].
    destruct (decide (cm_User comment = "")) as [Hu|Hu].
    - by rewrite bool_decide_eq_false_2 by (intros Hn; by apply Hn).
    - rewrite bool_decide_eq_true_2 by done. cbn [andb from_option].
      destruct (authorOf _ _ _ _) as [author t1].
      destruct (SlackConvertReactions _ _ _ _ _) as [reactions t2].
      by apply finishPost_imported. }
  destruct (IsBotMessage post).
  { destruct (decide (sp_BotId post = "" ∧ sp_User post = "")) as [Hu|Hu].
    - by rewrite bool_decide_eq_false_2 by (intros Hn; by apply Hn).
    - rewrite bool_decide_eq_true_2 by done. cbn [andb].
      destruct (decide (sp_BotId post = "")) as [Hb|Hb].
      + destruct (authorOf _ _ _ _) as [author t1].
        destruct (SlackConvertReactions _ _ _ _ _) as [reactions t2].
        destruct (AddFilesToPost _ _ _) as [files lines].
        match goal with |- context [finishPost ?a ?b ?c ?d ?e ?f ?g ?h ?i ?j ?k ?l] =>
          pose proof (finishPost_imported c d e f g h i j k l (sp_Text post) post
                        ltac:(by repeat split)) as Hf end.
        unfold propsAllow, GetPropsForPost in *.
        cbn [setBotId sp_Attachments sp_Original sp_Text sp_TimeStamp] in *.
        destruct (_ || _); [|exact Hf].
        destruct Hf as (p & Hp & ->). exists p. split; [done|].
        by apply AddPostToThreads_original.
      + destruct (authorOf _ _ _ _) as [author t1].
        destruct (SlackConvertReactions _ _ _ _ _) as [reactions t2].
        destruct (AddFilesToPost _ _ _) as [files lines].
        by apply finishPost_imported. }
  destruct (IsJoinLeaveMessage post || IsMeMessage post || IsChannelTopicMessage post
            || IsChannelPurposeMessage post) eqn:Hkind.
  { cbn [orb]. destruct (decide (sp_User post = "")) as [Hu|Hu].
    - by rewrite bool_decide_eq_false_2 by (intros Hn; by apply Hn).
    - rewrite bool_decide_eq_true_2 by done. cbn [andb].
      apply CreateAndAddPostToThreads_imported. }
  cbn [orb]. destruct (IsChannelNameMessage post); [|done].
  destruct (decide (sp_User post = "")) as [Hu|Hu].
  - by rewrite bool_decide_eq_false_2 by (intros Hn; by apply Hn).
  - rewrite bool_decide_eq_true_2 by done. cbn [andb].
    apply CreateAndAddPostToThreads_imported.
Qed.

(** The rounds of the loop over a channel amount to one call of
    [AddPostToThreads] for each imported post, in their order. *)
Lemma transformPosts_imported channel skipAttachments discardInvalidProps allowDownload
    addOriginal posts : ∀ t st,
  ∃ calls,
    calls.*1 = filter (λ post, imported' discardInvalidProps addOriginal post = true) posts ∧
    Forall (λ call, builtFor call.1 (messageOf' call.1) call.2) calls ∧
    (foldl (transformPost' channel skipAttachments discardInvalidProps allowDownload
              addOriginal) (t, st) posts).2
    = addAll channel calls st.
Proof.
  induction posts as [|post posts IH]; intros t st; cbn [foldl].
  - exists []. by repeat split.
  - pose proof (transformPost_imported channel skipAttachments discardInvalidProps
                  allowDownload addOriginal t st post) as Hp.
    destruct (transformPost' channel skipAttachments discardInvalidProps allowDownload
                addOriginal (t, st) post) as [t' st'] eqn:E.
    destruct (IH t' st') as (calls & Hcalls & Hbuilt & Hfold).
    destruct (imported' discardInvalidProps addOriginal post) eqn:Hi.
    + destruct Hp as (p & Hp & Hst). cbn [snd] in Hst. subst st'.
      exists ((post, p) :: calls). split; [|split].
      * rewrite filter_cons_True by done. by rewrite fmap_cons, Hcalls.
      * by constructor.
      * by rewrite Hfold.
    + cbn [snd] in Hp. subst st'. exists calls. split; [|done].
      rewrite filter_cons_False; [done|]. by rewrite Hi.
Qed.
End ImportedProperties.

Lemma placePost_Message channel ts p : ip_Message (placePost channel ts p) = ip_Message p.
Proof. unfold placePost. by case_decide. Qed.

(** A filed post is among the posts put out. *)
Lemma filed_emitted (rangeMap : ∀ V : Type, gmap string V → list (string * V)) st o q :
  visitsAll rangeMap → filed st o q →
  ∃ e, e ∈ emitted rangeMap st ∧ ip_CreateAt e = ip_CreateAt q ∧ ip_Message e = ip_Message q.
Proof.
  intros Hrange. unfold filed, emitted.
  assert (∀ k root, threads st !! k = Some root →
                    root ∈ (rangeMap IntermediatePost (threads st)).*2) as Hin.
  { intros k root Hroot. rewrite (Hrange IntermediatePost (threads st)).
    apply list_elem_of_fmap. exists (k, root). split; [done|].
    by apply elem_of_map_to_list. }
  destruct (isReply o).
  - intros (root & Hroot & Hq). exists q. split; [|done].
    apply list_elem_of_bind. exists root. split; [|by eapply Hin].
    unfold withReplies. by right.
  - intros (replies & Hroot). exists (setReplies (ip_Replies q ++ replies) q).
    split; [|done].
    apply list_elem_of_bind. exists (setReplies (ip_Replies q ++ replies) q).
    split; [|by eapply Hin]. unfold withReplies. by left.
Qed.

Section ChannelPosts.
Context (NewId : nat → string) (supportedEmojis : gset string).
Context (PostPropsMaxRunes : nat) (propsRuneCount : gmap string PropValue → nat).
Context (AddFilesToPost : SlackPost → bool → bool → list string * list logLine).
Context (IsPlainMessage IsFileComment IsBotMessage IsJoinLeaveMessage : SlackPost → bool).
Context (IsMeMessage IsChannelTopicMessage IsChannelPurposeMessage : SlackPost → bool).
Context (IsChannelNameMessage : SlackPost → bool).
Context (sortByMicroSeconds : list SlackPost → list SlackPost).
Context (rangeMap : ∀ V : Type, gmap string V → list (string * V)).

#[local] Abbreviation importedPosts discardInvalidProps addOriginal posts :=
  (filter (λ post, imported PostPropsMaxRunes propsRuneCount IsPlainMessage
                     IsFileComment IsBotMessage IsJoinLeaveMessage IsMeMessage
                     IsChannelTopicMessage IsChannelPurposeMessage IsChannelNameMessage
                     discardInvalidProps addOriginal post = true) posts).
#[local] Abbreviation threadsOf t channel channelPosts skipAttachments discardInvalidProps
    allowDownload addOriginal :=
  (transformChannelPosts NewId supportedEmojis PostPropsMaxRunes propsRuneCount
     AddFilesToPost IsPlainMessage IsFileComment IsBotMessage IsJoinLeaveMessage
     IsMeMessage IsChannelTopicMessage IsChannelPurposeMessage IsChannelNameMessage
     sortByMicroSeconds t channel channelPosts skipAttachments discardInvalidProps
     allowDownload addOriginal).2.

(** Two imported posts of a channel with the same millisecond. *)
Lemma colliding_posts_filed t channel channelPosts skipAttachments discardInvalidProps
    allowDownload addOriginal before o1 between o2 after :
  visitsAll rangeMap →
  importedPosts discardInvalidProps addOriginal (sortByMicroSeconds channelPosts)
    = before ++ o1 :: between ++ o2 :: after →
  wellThreaded (before ++ o1 :: between ++ o2 :: after) →
  SlackConvertTimeStamp (sp_TimeStamp o1) = SlackConvertTimeStamp (sp_TimeStamp o2) →
  MinInt64 <= SlackConvertTimeStamp (sp_TimeStamp o1) →
  SlackConvertTimeStamp (sp_TimeStamp o1)
    + Z.of_nat (length before + 1 + length between) < MaxInt64 →
  ∃ q1 q2 e1 e2,
    filed (threadsOf t channel channelPosts skipAttachments discardInvalidProps
             allowDownload addOriginal) o1 q1 ∧
    filed (threadsOf t channel channelPosts skipAttachments discardInvalidProps
             allowDownload addOriginal) o2 q2 ∧
    ip_Message q1 = messageOf IsPlainMessage IsFileComment o1 ∧
    ip_Message q2 = messageOf IsPlainMessage IsFileComment o2 ∧
    SlackConvertTimeStamp (sp_TimeStamp o1) <= ip_CreateAt q1 ∧
    ip_CreateAt q1 < ip_CreateAt q2 ∧
    (∀ x, SlackConvertTimeStamp (sp_TimeStamp o1) <= x < ip_CreateAt q2 →
          x ∈ timestamps (threadsOf t channel channelPosts skipAttachments
                            discardInvalidProps allowDownload addOriginal)) ∧
    e1 ∈ emitted rangeMap (threadsOf t channel channelPosts skipAttachments
                             discardInvalidProps allowDownload addOriginal) ∧
    ip_CreateAt e1 = ip_CreateAt q1 ∧ ip_Message e1 = ip_Message q1 ∧
    e2 ∈ emitted rangeMap (threadsOf t channel channelPosts skipAttachments
                             discardInvalidProps allowDownload addOriginal) ∧
    ip_CreateAt e2 = ip_CreateAt q2 ∧ ip_Message e2 = ip_Message q2.
Proof.
  intros Hrange Hposts Hwt Heq Hlo Hhi. unfold transformChannelPosts.
  destruct (transformPosts_imported NewId supportedEmojis PostPropsMaxRunes propsRuneCount
              AddFilesToPost IsPlainMessage IsFileComment IsBotMessage IsJoinLeaveMessage
              IsMeMessage IsChannelTopicMessage IsChannelPurposeMessage
              IsChannelNameMessage channel skipAttachments discardInvalidProps
              allowDownload addOriginal (sortByMicroSeconds channelPosts) t noThreads)
    as (calls & Hcalls & Hbuilt & ->).
  rewrite Hposts in Hcalls.
  apply fmap_app_inv in Hcalls as (cb & rest1 & Hcb & Hrest1 & ->).
  symmetry in Hrest1. apply fmap_cons_inv in Hrest1 as ([o1' p1] & rest2 & Ho1 & Hrest2 & ->).
  symmetry in Hrest2. apply fmap_app_inv in Hrest2 as (cm & rest3 & Hcm & Hrest3 & ->).
  symmetry in Hrest3. apply fmap_cons_inv in Hrest3 as ([o2' p2] & ca & Ho2 & Hca & ->).
  cbn [fst] in Ho1, Ho2. subst o1' o2'.
  apply Forall_app in Hbuilt as [_ Hbuilt].
  apply Forall_cons in Hbuilt as [(Hc1 & _ & Hm1) Hbuilt].
  apply Forall_app in Hbuilt as [_ Hbuilt].
  apply Forall_cons in Hbuilt as [(Hc2 & _ & Hm2) _].
  cbn [fst snd] in Hc1, Hm1, Hc2, Hm2.
  assert (wellThreaded ((cb ++ (o1, p1) :: cm ++ (o2, p2) :: ca).*1)) as Hwt'.
  { rewrite fmap_app, fmap_cons, fmap_app, fmap_cons. cbn [fst]. by subst. }
  assert (length cb = length before) as Hlb by (subst before; by rewrite length_fmap).
  assert (length cm = length between) as Hlm by (subst between; by rewrite length_fmap).
  set (calls := cb ++ (o1, p1) :: cm ++ (o2, p2) :: ca) in *.
  set (st1 := addAll channel cb noThreads).
  set (st2 := addAll channel cm (AddPostToThreads o1 p1 channel st1)).
  pose proof (filed_always channel cb o1 p1 (cm ++ (o2, p2) :: ca) Hwt') as Hf1.
  assert (filed (addAll channel calls noThreads) o2 (placePost channel (timestamps st2) p2))
    as Hf2.
  { pose proof (filed_always channel (cb ++ (o1, p1) :: cm) o2 p2 ca) as Hf.
    assert (addAll channel (cb ++ (o1, p1) :: cm) noThreads = st2) as E
      by (unfold st2, st1; by rewrite addAll_app, addAll_cons).
    rewrite E in Hf. rewrite <- !app_assoc, <- !app_comm_cons in Hf. by apply Hf. }
  destruct (placed_in_order channel cb o1 p1 cm p2) as [Hle Hlt];
    [congruence|by rewrite Hc1|rewrite Hc1, Hlb, Hlm; lia|].
  fold st1 in Hf1, Hle, Hlt. fold st2 in Hlt.
  destruct (filed_emitted rangeMap _ _ _ Hrange Hf1) as (e1 & He1 & Hce1 & Hme1).
  destruct (filed_emitted rangeMap _ _ _ Hrange Hf2) as (e2 & He2 & Hce2 & Hme2).
  exists (placePost channel (timestamps st1) p1), (placePost channel (timestamps st2) p2),
    e1, e2.
  split; [exact Hf1|]. split; [exact Hf2|].
  split; [by rewrite placePost_Message|]. split; [by rewrite placePost_Message|].
  split; [by rewrite <- Hc1|]. split; [exact Hlt|].
  split; [|by repeat split].
  intros x Hx. rewrite placePost_CreateAt in Hx.
  destruct (addAll_timestamps channel cb noThreads) as [_ Hn1]. fold st1 in Hn1.
  change (size (timestamps noThreads)) with (size (∅ : gset Z)) in Hn1.
  rewrite size_empty in Hn1.
  destruct (addAll_timestamps channel cm (AddPostToThreads o1 p1 channel st1)) as [_ Hn2].
  fold st2 in Hn2. rewrite AddPostToThreads_timestamps in Hn2.
  pose proof (size_add_le (ip_CreateAt (placePost channel (timestamps st1) p1))
                (timestamps st1)) as Hn1'.
  destruct (freeTimestamp_least (timestamps st2) (ip_CreateAt p2)) as (_ & _ & Hbelow);
    [rewrite Hc2, <- Heq; lia|rewrite Hc2, <- Heq; lia|].
  assert (x ∈ timestamps st2) as Hx2
    by (apply Hbelow; split; [rewrite Hc2, <- Heq; lia|lia]).
  assert (calls = (cb ++ (o1, p1) :: cm) ++ (o2, p2) :: ca) as ->
    by (unfold calls; by rewrite <- !app_assoc, <- !app_comm_cons).
  rewrite addAll_app.
  assert (addAll channel (cb ++ (o1, p1) :: cm) noThreads = st2) as ->
    by (unfold st2, st1; by rewrite addAll_app, addAll_cons).
  destruct (addAll_timestamps channel ((o2, p2) :: ca) st2) as [Hsub _].
  by apply Hsub.
Qed.

End ChannelPosts.

Lemma threeMessages_wellThreaded :
  wellThreaded [message "U2" "1549307811.074100" "" "a";
                message "U2" "1549307811.074200" "1549307811.074100" "b";
                message "U2" "1549307811.074300" "" "c"].
Proof.
  split.
  - apply (bool_decide_unpack _). vm_compute. reflexivity.
  - intros [|[|[|i]]] o Hi Ho; simpl in Hi; try done.
    + injection Hi as <-. vm_compute in Ho. done.
    + injection Hi as <-. exists 0%nat, (message "U2" "1549307811.074100" "" "a").
      split; [lia|]. repeat split; vm_compute; reflexivity.
    + injection Hi as <-. vm_compute in Ho. done.
Qed.



(** The three posts of the witness round to the same millisecond; the root,
    its reply and the second root come out one millisecond apart. *)
Example colliding_posts :
  (λ p, (ip_Message p, ip_CreateAt p)) <$> emitted rangeListed
    (sampleTransformChannelPosts (transformerWith {["U2" := userBob]} ∅ ∅) publicChannel
       [message "U2" "1549307811.074100" "" "a";
        message "U2" "1549307811.074200" "1549307811.074100" "b";
        message "U2" "1549307811.074300" "" "c"] false false false false).2
  = [("c", 1549307811076); ("a", 1549307811074); ("b", 1549307811075)].
Proof. vm_compute. reflexivity. Qed.
(** *** Users *)

Lemma setEmail_id a : setEmail (pr_Email (su_Profile a)) a = a.
Proof. by destruct a as [? ? ? []]. Qed.

Lemma setEmail_eq_iff a b :
  a = b ↔ setEmail "" a = setEmail "" b ∧ pr_Email (su_Profile a) = pr_Email (su_Profile b).
Proof.
  split; [by intros ->|]. intros [E Em].
  rewrite <- (setEmail_id a), <- (setEmail_id b), Em.
  destruct a as [? ? ? []], b as [? ? ? []]. simpl in *. by injection E as -> -> -> -> -> -> ->.
Qed.

(** X1. Two user records reconcile exactly when they agree on every field
    but the email address and the addresses are equal or one of them is
    empty; the result is the first record, with the address of the second
    when its own is empty. *)
Theorem mergeUser_spec a b :
  (isOk (mergeUser a b)
     ↔ setEmail "" a = setEmail "" b ∧
       (pr_Email (su_Profile a) = pr_Email (su_Profile b) ∨
        pr_Email (su_Profile a) = "" ∨ pr_Email (su_Profile b) = "")) ∧
  (∀ r, mergeUser a b = Ok r →
        r = setEmail (if decide (pr_Email (su_Profile a) = "")
                      then pr_Email (su_Profile b) else pr_Email (su_Profile a)) a).
Proof.
  destruct a as [ai au ab [abi af al at' ae]], b as [bi bu bb [bbi bf bl bt be]].
  unfold mergeUser, setEmail, isOk. simpl.
  repeat (case_decide; simplify_eq/=); (split; [split|]);
    try (intros; by eexists); try (intros r [= <-]; done);
    try (intros [? [= ?]]; by auto); try (by intros [r ?]); try (by intros r ?);
    try naive_solver.
Qed.
Lemma mergeUser_spec_witness :
  isOk (mergeUser slackDeployBot (setEmail "deploy@example.com" slackDeployBot)).
Proof.
  apply (proj2 (proj1 (mergeUser_spec _ _))).
  split; [reflexivity|]. right. left. reflexivity.
Defined.


(** *** Channels: reconcilable channels form classes *)

(** X2. Reconcilability of channels is reflexive, symmetric and
    transitive, so whether a family of channel records with one id merges
    does not depend on the order in which they are met; the merge returns
    its first operand. *)
Theorem mergeChannel_equivalence :
  (∀ a, mergeChannel a a = Ok a) ∧
  (∀ a b, isOk (mergeChannel a b) → mergeChannel b a = Ok b) ∧
  (∀ a b c, isOk (mergeChannel a b) → isOk (mergeChannel b c) → mergeChannel a c = Ok a) ∧
  (∀ a b r, mergeChannel a b = Ok r → r = a).
Proof.
  assert (∀ a b, isOk (mergeChannel a b) ↔ scalarsAgree a b ∧ sc_Members a ≡ₚ sc_Members b)
    as Hiff.
  { intros a b. rewrite <- mergeChannel_Ok_iff. split; [|by eexists].
    intros [r Hr]. by rewrite (mergeChannel_Ok_first _ _ _ Hr) in Hr. }
  split; [apply mergeChannel_self|]. split; [|split; [|apply mergeChannel_Ok_first]].
  - intros a b [(?&?&?&?&?&?) Hp]%Hiff. apply mergeChannel_Ok_iff.
    unfold scalarsAgree. by repeat split.
  - intros a b c [(?&?&?&?&?&?) Hp1]%Hiff [(?&?&?&?&?&?) Hp2]%Hiff.
    apply mergeChannel_Ok_iff. unfold scalarsAgree.
    repeat split; try congruence. by rewrite Hp1.
Qed.

Lemma mergeChannel_equivalence_witness :
  mergeChannel chanGeneral (withMembers ["U2"; "U1"] chanGeneral) = Ok chanGeneral.
Proof.
  apply (proj1 (proj2 mergeChannel_equivalence)). exists (withMembers ["U2"; "U1"] chanGeneral).
  vm_compute. reflexivity.
Defined.

(** *** Attachment descriptors: when two of them merge *)

(** X3. Two attachment descriptors merge, to the first of them, exactly
    when they agree on the non-UTF8 flag, the name, a known checksum, the
    uncompressed size and the external attributes, and their extra blobs
    are equal byte for byte or both parse into extended-timestamp records
    only. The comment, the versions and the flags play no part. *)
Theorem mergeZipFile_Ok_iff a b :
  mergeZipFile a b = Ok a ↔
    zf_NonUTF8 a = zf_NonUTF8 b ∧ zf_Name a = zf_Name b ∧
    zf_CRC32 a ≠ 0 ∧ zf_CRC32 a = zf_CRC32 b ∧
    zf_UncompressedSize64 a = zf_UncompressedSize64 b ∧
    zf_ExternalAttrs a = zf_ExternalAttrs b ∧
    (zf_Extra a = zf_Extra b ∨
     ∃ fa fb, parseZipExtraFields (zf_Extra a) = Ok fa ∧
              parseZipExtraFields (zf_Extra b) = Ok fb ∧
              Forall (λ f, field f = 0x5455) (fa ++ fb)).
Proof.
  unfold mergeZipFile.
  destruct (sliceEquals (zf_Extra a) (zf_Extra b)) eqn:Hs.
  - apply sliceEquals_spec in Hs. simpl.
    repeat case_decide; split; try done; intuition (congruence || lia).
  - assert (zf_Extra a ≠ zf_Extra b) as Hne.
    { intros E. apply sliceEquals_spec in E. congruence. }
    simpl.
    destruct (parseZipExtraFields (zf_Extra a)) as [fa|ea] eqn:Ea.
    2: { repeat case_decide; split; try done;
         intros (_&_&_&_&_&_&[?|(fa'&fb'&?&?&_)]); congruence. }
    destruct (parseZipExtraFields (zf_Extra b)) as [fb|eb] eqn:Eb.
    2: { repeat case_decide; split; try done;
         intros (_&_&_&_&_&_&[?|(fa'&fb'&?&?&_)]); congruence. }
    assert ((∃ fa' fb', Ok fa = Ok fa' ∧ Ok fb = Ok fb' ∧
                        Forall (λ f, field f = 21589) (fa' ++ fb'))
            ↔ zipExtraCanBeIgnored fa = true ∧ zipExtraCanBeIgnored fb = true) as Hign.
    { rewrite !zipExtraCanBeIgnored_spec, <- Forall_app. split.
      - by intros (fa' & fb' & [= <-] & [= <-] & ?).
      - intros ?. by exists fa, fb. }
    rewrite Hign.
    destruct (zipExtraCanBeIgnored fa), (zipExtraCanBeIgnored fb); simpl;
      repeat case_decide; split; try done; intuition (congruence || lia).
Qed.

Lemma mergeZipFile_Ok_iff_witness :
  mergeZipFile (zipPhoto x03 3735928559 420) (zipPhoto x03 3735928559 420)
  = Ok (zipPhoto x03 3735928559 420).
Proof.
  apply (proj2 (mergeZipFile_Ok_iff _ _)).
  repeat split; try reflexivity; [simpl; lia|by left].
Defined.
(** *** The generic merges: what a successful merge contains *)

Section GenericMergeResults.
Context {T : Type} (id : T → string) (merge : T → T → result T).
Context (rangeMap : ∀ V : Type, gmap string V → list (string * V)).

Lemma mergeItems_app l1 l2 itemMap :
  mergeItems id merge (l1 ++ l2) itemMap
  = itemMap' ← mergeItems id merge l1 itemMap; mergeItems id merge l2 itemMap'.
Proof.
  revert itemMap. induction l1 as [|x l1 IH]; intros itemMap; simpl; [done|].
  destruct (itemMap !! id x) as [existing|]; [|apply IH].
  destruct (merge existing x); simpl; [apply IH|done].
Qed.

(** Every entry of the item map is filed under its own key, and the keys
    are those of the map at the start and of the items met. *)
Lemma mergeItems_keys l : ∀ itemMap itemMap',
  (∀ x y z, merge x y = Ok z → id z = id x) →
  (∀ k v, itemMap !! k = Some v → id v = k) →
  mergeItems id merge l itemMap = Ok itemMap' →
  (∀ k v, itemMap' !! k = Some v → id v = k) ∧
  (∀ k, is_Some (itemMap' !! k) ↔ is_Some (itemMap !! k) ∨ k ∈ id <$> l).
Proof.
  induction l as [|x l IH]; intros itemMap itemMap' Hid Hinv; cbn [mergeItems].
  - intros [= <-]. split; [done|]. intros k. rewrite fmap_nil, elem_of_nil. tauto.
  - destruct (itemMap !! id x) as [existing|] eqn:Hx.
    + destruct (merge existing x) as [z|] eqn:Hz; simpl; [|done]. intros Hrest.
      assert (id z = id x) as Hzx
        by (rewrite (Hid _ _ _ Hz); by apply Hinv).
      destruct (IH (<[id x := z]> itemMap) itemMap' Hid) as [Hinv' Hkeys]; [|done|].
      { intros k v. rewrite lookup_insert. case_decide; [|by apply Hinv]. congruence. }
      split; [done|]. intros k. rewrite Hkeys, lookup_insert.
      change (k ∈ id <$> x :: l) with (k ∈ id x :: (id <$> l)). rewrite elem_of_cons.
      case_decide as E; [|naive_solver]. subst k. split; [by left|]. intros _. left. by eexists.
    + intros Hrest.
      destruct (IH (<[id x := x]> itemMap) itemMap' Hid) as [Hinv' Hkeys]; [|done|].
      { intros k v. rewrite lookup_insert. case_decide; [|by apply Hinv]. congruence. }
      split; [done|]. intros k. rewrite Hkeys, lookup_insert.
      change (k ∈ id <$> x :: l) with (k ∈ id x :: (id <$> l)). rewrite elem_of_cons.
      case_decide as E; [|naive_solver]. subst k. split; [intros _; by right; left|].
      intros _. left. by eexists.
Qed.

(** X4. When the reconciliation keeps the key of its first operand, a
    successful [mergeSlicesWith] returns exactly one item for every key
    that occurs in either slice, each item carrying its key, in whatever
    order the map is ranged over. *)
Theorem mergeSlicesWith_keys a b r :
  visitsAll rangeMap →
  (∀ x y z, merge x y = Ok z → id z = id x) →
  mergeSlicesWith rangeMap a b id merge = Ok r →
  NoDup (id <$> r) ∧ ∀ k, k ∈ id <$> r ↔ k ∈ id <$> (a ++ b).
Proof.
  intros Hrange Hid. unfold mergeSlicesWith.
  destruct (mergeItems id merge a ∅) as [m1|] eqn:E1; simpl; [|done].
  destruct (mergeItems id merge b m1) as [m2|] eqn:E2; simpl; [|done].
  intros [= <-].
  destruct (mergeItems_keys a ∅ m1 Hid) as [Hinv1 Hkeys1]; [by intros k v|done|].
  destruct (mergeItems_keys b m1 m2 Hid Hinv1 E2) as [Hinv2 Hkeys2].
  assert (id <$> (rangeMap T m2).*2 ≡ₚ (map_to_list m2).*1) as Hperm.
  { rewrite (Hrange T m2). rewrite <- !list_fmap_compose.
    assert (id ∘ snd <$> map_to_list m2 = fst <$> map_to_list m2) as ->; [|done].
    apply Forall_fmap_ext, Forall_forall.
    intros [k v] Hkv. apply elem_of_map_to_list in Hkv. simpl. by apply Hinv2. }
  split.
  - rewrite Hperm. apply NoDup_fst_map_to_list.
  - assert (∀ k, k ∈ (map_to_list m2).*1 ↔ is_Some (m2 !! k)) as Hdom.
    { intros k. rewrite list_elem_of_fmap. split.
      - intros ([k' v] & -> & Hin). apply elem_of_map_to_list in Hin. by eexists.
      - intros [v Hv]. exists (k, v). split; [done|]. by apply elem_of_map_to_list. }
    intros k. rewrite Hperm, fmap_app, elem_of_app, Hdom, Hkeys2, Hkeys1.
    rewrite lookup_empty. split; [intros [[[? ?]|]|]; by auto|intros [|]; by auto].
Qed.

Lemma mergeSlicesWith_concat a b :
  visitsAll rangeMap → NoDup (id <$> (a ++ b)) →
  mergeSlicesWith rangeMap a b id merge
  = Ok (rangeMap T (list_to_map (keyed id (a ++ b)))).*2 ∧
  (rangeMap T (list_to_map (keyed id (a ++ b)))).*2 ≡ₚ a ++ b.
Proof.
  intros Hrange Hnd. unfold mergeSlicesWith.
  pose proof (mergeItems_app a b ∅) as Happ.
  rewrite (mergeItems_fresh id merge (a ++ b) ∅ Hnd) in Happ
    by (intros; apply lookup_empty).
  rewrite (right_id_L ∅ (∪)) in Happ.
  destruct (mergeItems id merge a ∅) as [m1|]; simpl in *; [|done].
  rewrite <- Happ. simpl. split; [done|].
  rewrite (Hrange T), map_to_list_to_map by (by rewrite keyed_fst).
  by rewrite keyed_snd.
Qed.

(** What a run of [mergeEntries] over entries with distinct keys leaves
    under each key. *)
Lemma mergeEntries_lookup (mergeV : T → T → result T) entries : ∀ ret r,
  NoDup entries.*1 →
  mergeEntries mergeV entries ret = Ok r →
  ∀ k, match (list_to_map entries : gmap string T) !! k, ret !! k with
       | None, _ => r !! k = ret !! k
       | Some y, None => r !! k = Some y
       | Some y, Some x => ∃ z, mergeV x y = Ok z ∧ r !! k = Some z
       end.
Proof.
  induction entries as [|[k0 y0] entries IH]; intros ret r Hnd; simpl.
  - intros [= <-] k. by rewrite lookup_empty.
  - apply NoDup_cons in Hnd as [Hk0 Hnd].
    assert ((list_to_map entries : gmap string T) !! k0 = None) as Hnone
      by (by apply not_elem_of_list_to_map_1).
    destruct (ret !! k0) as [x0|] eqn:Hret.
    + destruct (mergeV x0 y0) as [z0|] eqn:Hz; simpl; [|done]. intros Hrest k.
      specialize (IH _ _ Hnd Hrest k). rewrite lookup_insert in IH |- *.
      case_decide as E.
      * subst k. rewrite Hnone in IH. rewrite Hret. exists z0. by rewrite IH.
      * done.
    + intros Hrest k. specialize (IH _ _ Hnd Hrest k). rewrite lookup_insert in IH |- *.
      case_decide as E.
      * subst k. rewrite Hnone in IH. by rewrite Hret, IH.
      * done.
Qed.

Lemma mergeEntries_ok (mergeV : T → T → result T) entries : ∀ ret,
  NoDup entries.*1 →
  (∀ k x y, ret !! k = Some x → (k, y) ∈ entries → isOk (mergeV x y)) →
  isOk (mergeEntries mergeV entries ret).
Proof.
  induction entries as [|[k0 y0] entries IH]; intros ret Hnd Hok; simpl; [by eexists|].
  apply NoDup_cons in Hnd as [Hk0 Hnd].
  destruct (ret !! k0) as [x0|] eqn:Hret.
  - destruct (Hok k0 x0 y0 Hret ltac:(left)) as [z Hz]. rewrite Hz. simpl.
    apply IH; [done|]. intros k x y Hk Hin.
    rewrite lookup_insert_ne in Hk.
    + apply (Hok k x y Hk). by right.
    + intros <-. apply Hk0. apply list_elem_of_fmap. by exists (k0, y).
  - apply IH; [done|]. intros k x y Hk Hin.
    rewrite lookup_insert_ne in Hk.
    + apply (Hok k x y Hk). by right.
    + intros <-. apply Hk0. apply list_elem_of_fmap. by exists (k0, y).
Qed.

(** X6. [mergeMapsWith] succeeds exactly when the values under every key
    the two maps share reconcile. The result then keeps what only one map
    has and holds the reconciled value under each shared key; it does not
    depend on the order in which the second map is ranged over. *)
Theorem mergeMapsWith_lookup (mergeV : T → T → result T) (a b : gmap string T) :
  visitsAll rangeMap →
  (isOk (mergeMapsWith rangeMap a b mergeV)
     ↔ ∀ k x y, a !! k = Some x → b !! k = Some y → isOk (mergeV x y)) ∧
  (∀ r, mergeMapsWith rangeMap a b mergeV = Ok r →
     ∀ k, match b !! k, a !! k with
          | None, _ => r !! k = a !! k
          | Some y, None => r !! k = Some y
          | Some y, Some x => ∃ z, mergeV x y = Ok z ∧ r !! k = Some z
          end).
Proof.
  intros Hrange. unfold mergeMapsWith, cloneMap.
  assert (NoDup (rangeMap T b).*1) as Hnd
    by (rewrite (Hrange T b); apply NoDup_fst_map_to_list).
  assert ((list_to_map (rangeMap T b) : gmap string T) = b) as Hb.
  { rewrite (list_to_map_proper _ (map_to_list b)); [apply list_to_map_to_list|done|].
    apply Hrange. }
  assert (∀ r, mergeEntries mergeV (rangeMap T b) a = Ok r →
     ∀ k, match b !! k, a !! k with
          | None, _ => r !! k = a !! k
          | Some y, None => r !! k = Some y
          | Some y, Some x => ∃ z, mergeV x y = Ok z ∧ r !! k = Some z
          end) as Hlookup.
  { intros r Hr k. pose proof (mergeEntries_lookup mergeV _ _ _ Hnd Hr k) as H.
    by rewrite Hb in H. }
  split; [|exact Hlookup]. split.
  - intros [r Hr] k x y Hx Hy. specialize (Hlookup r Hr k). rewrite Hx, Hy in Hlookup.
    destruct Hlookup as (z & Hz & _). by exists z.
  - intros Hok. apply mergeEntries_ok; [done|]. intros k x y Hx Hin.
    apply (Hok k x y Hx). rewrite (Hrange T b) in Hin. by apply elem_of_map_to_list.
Qed.

Lemma mergeMapsWith_disjoint (mergeV : T → T → result T) (a b : gmap string T) :
  visitsAll rangeMap → a ##ₘ b → mergeMapsWith rangeMap a b mergeV = Ok (a ∪ b).
Proof.
  intros Hrange Hdisj. unfold mergeMapsWith, cloneMap.
  assert (NoDup (rangeMap T b).*1) as Hnd
    by (rewrite (Hrange T b); apply NoDup_fst_map_to_list).
  assert ((list_to_map (rangeMap T b) : gmap string T) = b) as Hb.
  { rewrite (list_to_map_proper _ (map_to_list b)); [apply list_to_map_to_list|done|].
    apply Hrange. }
  destruct (mergeEntries_ok mergeV (rangeMap T b) a Hnd) as [r Hr].
  { intros k x y Hx Hin. rewrite (Hrange T b) in Hin. apply elem_of_map_to_list in Hin.
    by destruct (map_disjoint_spec a b) as [Hd _]; destruct (Hd Hdisj k x y). }
  rewrite Hr. f_equal. apply map_eq. intros k.
  pose proof (mergeEntries_lookup mergeV _ _ _ Hnd Hr k) as Hk. rewrite Hb in Hk.
  destruct (b !! k) as [y|] eqn:Hy.
  - destruct (a !! k) as [x|] eqn:Hx.
    + by destruct (map_disjoint_spec a b) as [Hd _]; destruct (Hd Hdisj k x y).
    + rewrite Hk. symmetry. by rewrite lookup_union_r.
  - rewrite Hk. symmetry. by rewrite lookup_union_l.
Qed.
End GenericMergeResults.

(** X5. Slices that share no key and repeat none are merged without any
    call of the reconciliation: whatever the reconciliation is, the result
    is the two slices put together, up to order. *)
Theorem mergeSlicesWith_disjoint {T} (id : T → string) (merge1 merge2 : T → T → result T)
    (rangeMap : ∀ V : Type, gmap string V → list (string * V)) (a b : list T) :
  visitsAll rangeMap → NoDup (id <$> (a ++ b)) →
  mergeSlicesWith rangeMap a b id merge1 = mergeSlicesWith rangeMap a b id merge2 ∧
  ∃ r, mergeSlicesWith rangeMap a b id merge1 = Ok r ∧ r ≡ₚ a ++ b.
Proof.
  intros Hrange Hnd.
  destruct (mergeSlicesWith_concat id merge1 rangeMap a b Hrange Hnd) as [E1 Hp].
  destruct (mergeSlicesWith_concat id merge2 rangeMap a b Hrange Hnd) as [E2 _].
  split; [by rewrite E1, E2|]. eexists. by split.
Qed.

Lemma mergeSlicesWith_disjoint_witness :
  ∃ r, mergeSlicesWith rangeListed [chanGeneral] [chanRandom] sc_Id mergeChannel = Ok r ∧
       r ≡ₚ [chanGeneral] ++ [chanRandom].
Proof.
  apply (mergeSlicesWith_disjoint sc_Id mergeChannel mergeChannel rangeListed
           [chanGeneral] [chanRandom] rangeListed_visitsAll).
  apply (bool_decide_unpack _). vm_compute. reflexivity.
Defined.

Lemma mergeSlicesWith_keys_witness :
  NoDup (sc_Id <$> [chanGeneral; chanRandom]) ∧
  ∀ k, k ∈ sc_Id <$> [chanGeneral; chanRandom]
       ↔ k ∈ sc_Id <$> ([chanGeneral] ++ [chanGeneral; chanRandom]).
Proof.
  apply (mergeSlicesWith_keys sc_Id mergeChannel rangeListed [chanGeneral]
           [chanGeneral; chanRandom] [chanGeneral; chanRandom] rangeListed_visitsAll).
  - intros x y z Hz. by rewrite (mergeChannel_Ok_first _ _ _ Hz).
  - vm_compute. reflexivity.
Defined.

Lemma mergeMapsWith_lookup_witness :
  isOk (mergeMapsWith rangeListed ({["F1" := zipPhoto x03 3735928559 0]})
          ({["F1" := zipPhoto x07 3735928559 0]}) mergeZipFile).
Proof.
  apply (proj1 (mergeMapsWith_lookup rangeListed mergeZipFile _ _ rangeListed_visitsAll)).
  intros k x y Hx Hy.
  apply lookup_singleton_Some in Hx as [<- <-]. apply lookup_singleton_Some in Hy as [_ <-].
  eexists. vm_compute. reflexivity.
Defined.

(** *** Posts: reconcilable posts form classes *)

(** X7. Reconcilability of posts is symmetric and transitive, and a post
    reconciles with itself exactly when its original parses and what is
    left of it serializes; the merge returns its first operand. *)
Theorem mergePost_equivalence (Unmarshal : string → result jsonMap)
    (Marshal : jsonMap → result string) :
  (∀ a, mergePost Unmarshal Marshal a a = Ok a ↔ originalReadable Unmarshal Marshal a) ∧
  (∀ a b, isOk (mergePost Unmarshal Marshal a b) → mergePost Unmarshal Marshal b a = Ok b) ∧
  (∀ a b c, isOk (mergePost Unmarshal Marshal a b) → isOk (mergePost Unmarshal Marshal b c) →
            mergePost Unmarshal Marshal a c = Ok a) ∧
  (∀ a b r, mergePost Unmarshal Marshal a b = Ok r → r = a).
Proof.
  assert (∀ a b, isOk (mergePost Unmarshal Marshal a b)
            ↔ setOriginal "" a = setOriginal "" b ∧
              originalsEquivalent Unmarshal Marshal (sp_Original a) (sp_Original b)) as Hiff.
  { intros a b. rewrite setOriginal_eq_iff, <- mergePost_Ok_iff. split; [|by eexists].
    intros [r Hr]. by rewrite (mergePost_Ok_first _ _ _ _ _ Hr) in Hr. }
  split; [|split; [|split; [|apply mergePost_Ok_first]]].
  - intros a. rewrite mergePost_Ok_iff. split.
    + intros [_ (m1 & m2 & s & ? & ? & ? & ?)]. by exists m1, s.
    + intros (m & s & ? & ?). split; [by apply setOriginal_eq_iff|by exists m, m, s].
  - intros a b [E (m1 & m2 & s & ? & ? & ? & ?)]%Hiff.
    apply mergePost_Ok_iff. split; [by apply setOriginal_eq_iff|by exists m2, m1, s].
  - intros a b c [E1 (m1 & m2 & s & ? & H2 & ? & Hs2)]%Hiff
      [E2 (m2' & m3 & s' & H2' & ? & Hs2' & ?)]%Hiff.
    apply mergePost_Ok_iff. split; [apply setOriginal_eq_iff; congruence|].
    exists m1, m3, s. repeat split; try done.
    rewrite H2 in H2'. injection H2' as <-. congruence.
Qed.

Lemma mergePost_equivalence_witness :
  mergePost unmarshalEmpty marshalEmpty (postHello "{}") (postHello "{}")
  = Ok (postHello "{}").
Proof.
  apply (proj1 (proj2 (mergePost_equivalence unmarshalEmpty marshalEmpty))).
  exists (postHello "{}"). vm_compute. reflexivity.
Defined.

(** *** [MergeSlackExports]: disjoint exports *)

Section MergeResults.
Context (Unmarshal : string → result jsonMap) (Marshal : jsonMap → result string).
Context (rangeMap : ∀ V : Type, gmap string V → list (string * V)).

(** X8. Two exports of one team that share no channel id within any of
    the five channel lists, no user id, no channel of posts and no upload
    (and repeat none) always merge, and the result is their union: each
    slice holds the entries of both, up to order, and each map is the
    union of the two maps. *)
Theorem MergeSlackExports_disjoint a b :
  visitsAll rangeMap →
  TeamName a = TeamName b →
  NoDup (sc_Id <$> (Channels a ++ Channels b)) →
  NoDup (sc_Id <$> (PublicChannels a ++ PublicChannels b)) →
  NoDup (sc_Id <$> (PrivateChannels a ++ PrivateChannels b)) →
  NoDup (sc_Id <$> (GroupChannels a ++ GroupChannels b)) →
  NoDup (sc_Id <$> (DirectChannels a ++ DirectChannels b)) →
  NoDup (su_Id <$> (Users a ++ Users b)) →
  Posts a ##ₘ Posts b →
  Uploads a ##ₘ Uploads b →
  ∃ r, MergeSlackExports Unmarshal Marshal rangeMap [a; b] = Ok r ∧
       TeamName r = TeamName a ∧
       Channels r ≡ₚ Channels a ++ Channels b ∧
       PublicChannels r ≡ₚ PublicChannels a ++ PublicChannels b ∧
       PrivateChannels r ≡ₚ PrivateChannels a ++ PrivateChannels b ∧
       GroupChannels r ≡ₚ GroupChannels a ++ GroupChannels b ∧
       DirectChannels r ≡ₚ DirectChannels a ++ DirectChannels b ∧
       Users r ≡ₚ Users a ++ Users b ∧
       Posts r = Posts a ∪ Posts b ∧
       Uploads r = Uploads a ∪ Uploads b.
Proof.
  intros Hrange Hteam H1 H2 H3 H4 H5 H6 Hposts Huploads.
  unfold MergeSlackExports, mergeRounds, mergeExport, cloneExport, cloneSlice, cloneMap.
  cbn [TeamName Channels PublicChannels PrivateChannels GroupChannels DirectChannels
       Users Posts Uploads].
  rewrite decide_False by (by intros ?).
  unfold mergeChannels, mergeUsers, mergePosts, mergeUploads.
  destruct (mergeSlicesWith_concat sc_Id mergeChannel rangeMap _ _ Hrange H1) as [-> ?].
  destruct (mergeSlicesWith_concat sc_Id mergeChannel rangeMap _ _ Hrange H2) as [-> ?].
  destruct (mergeSlicesWith_concat sc_Id mergeChannel rangeMap _ _ Hrange H3) as [-> ?].
  destruct (mergeSlicesWith_concat sc_Id mergeChannel rangeMap _ _ Hrange H4) as [-> ?].
  destruct (mergeSlicesWith_concat sc_Id mergeChannel rangeMap _ _ Hrange H5) as [-> ?].
  destruct (mergeSlicesWith_concat su_Id mergeUser rangeMap _ _ Hrange H6) as [-> ?].
  rewrite (mergeMapsWith_disjoint rangeMap _ _ _ Hrange Hposts).
  rewrite (mergeMapsWith_disjoint rangeMap _ _ _ Hrange Huploads).
  simpl. eexists. split; [done|]. simpl. by repeat split.
Qed.
End MergeResults.

Lemma MergeSlackExports_disjoint_witness :
  ∃ r, MergeSlackExports unmarshalEmpty marshalEmpty rangeListed
         [exportOf "T" [chanGeneral] {["F1" := zipPhoto x03 0 0]};
          exportOf "T" [chanRandom] {["F2" := zipPhoto x07 0 0]}] = Ok r ∧
       Channels r ≡ₚ [chanGeneral] ++ [chanRandom] ∧
       Uploads r = {["F1" := zipPhoto x03 0 0]} ∪ {["F2" := zipPhoto x07 0 0]}.
Proof.
  destruct (MergeSlackExports_disjoint unmarshalEmpty marshalEmpty rangeListed
              (exportOf "T" [chanGeneral] {["F1" := zipPhoto x03 0 0]})
              (exportOf "T" [chanRandom] {["F2" := zipPhoto x07 0 0]})
              rangeListed_visitsAll eq_refl)
    as (r & Hr & _ & Hc & _ & _ & _ & _ & _ & _ & Hu);
    [apply (bool_decide_unpack _); vm_compute; reflexivity..
    |simpl; apply map_disjoint_empty_l
    |simpl; apply map_disjoint_singleton_l; by apply lookup_singleton_ne
    |].
  exists r. by repeat split.
Defined.
(** *** Valid members *)

Lemma filterValidMembers_filter members (users : gmap string IntermediateUser) :
  filterValidMembers members users = filter (λ m, is_Some (users !! m)) members.
Proof.
  unfold filterValidMembers.
  assert (∀ acc, foldl (λ validMembers member,
                          match users !! member with
                          | Some _ => validMembers ++ [member]
                          | None => validMembers
                          end) acc members
                 = acc ++ filter (λ m, is_Some (users !! m)) members) as H.
  { induction members as [|m members IH]; intros acc; simpl; [by rewrite app_nil_r|].
    rewrite IH. destruct (users !! m) as [u|] eqn:E.
    - rewrite filter_cons_True by (rewrite E; by eexists). by rewrite <- app_assoc.
    - rewrite filter_cons_False; [done|]. rewrite E. by intros [? ?]. }
  apply (H []).
Qed.



(** *** Users *)

Lemma append_nonempty s1 s2 : s2 ≠ "" → s1 +:+ s2 ≠ "".
Proof. destruct s1; [done|]. by intros _. Qed.

Lemma IntermediateUser_Sanitise_Email u logger :
  iu_Email (IntermediateUser_Sanitise u logger).1 ≠ "".
Proof.
  unfold IntermediateUser_Sanitise. case_decide; simpl; [|done].
  by apply append_nonempty.
Qed.

(** X10. After [Sanitise] a user has an email address: a user that had
    one is returned as it was, without a log line; a user without one
    gets [<username>@example.com] and one warning, and keeps its other
    fields. *)
Theorem IntermediateUser_Sanitise_spec u logger :
  iu_Email (IntermediateUser_Sanitise u logger).1 ≠ "" ∧
  (iu_Email u ≠ "" → IntermediateUser_Sanitise u logger = (u, logger)) ∧
  (iu_Email u = "" →
     (IntermediateUser_Sanitise u logger).1
       = setUserEmail (iu_Username u +:+ "@example.com") u ∧
     ∃ line, (IntermediateUser_Sanitise u logger).2 = logger ++ [Warn line]).
Proof.
  unfold IntermediateUser_Sanitise. case_decide as E; simpl.
  - split; [by apply append_nonempty|]. split; [done|]. intros _. split; [done|by eexists].
  - split; [done|]. split; [done|]. done.
Qed.

Lemma IntermediateUser_Sanitise_spec_witness :
  IntermediateUser_Sanitise userAlice [] = (userAlice, []).
Proof.
  apply (proj1 (proj2 (IntermediateUser_Sanitise_spec userAlice []))). simpl. discriminate.
Defined.

Lemma ApplyUserOverrides_missing t user :
  UserOverrides t !! iu_Username user = None →
  ApplyUserOverrides t user = (user, t) ∨
  ∃ line, ApplyUserOverrides t user = (user, logged (Warn line) t).
Proof.
  intros Ho. destruct (decide (size (UserOverrides t) = 0%nat)) as [E|E].
  - left. unfold ApplyUserOverrides. rewrite decide_True by exact E. reflexivity.
  - right. unfold ApplyUserOverrides. rewrite decide_False by exact E.
    rewrite Ho. by eexists.
Qed.

Lemma ApplyUserOverrides_frame t user :
  iu_Id (ApplyUserOverrides t user).1 = iu_Id user ∧
  iu_Memberships (ApplyUserOverrides t user).1 = iu_Memberships user ∧
  UsersById (ApplyUserOverrides t user).2 = UsersById t ∧
  UserOverrides (ApplyUserOverrides t user).2 = UserOverrides t ∧
  ChannelOverrides (ApplyUserOverrides t user).2 = ChannelOverrides t ∧
  idsDrawn (ApplyUserOverrides t user).2 = idsDrawn t.
Proof.
  destruct (UserOverrides t !! iu_Username user) as [o|] eqn:Ho.
  - rewrite (ApplyUserOverrides_found t user o Ho). repeat split; reflexivity.
  - destruct (ApplyUserOverrides_missing t user Ho) as [->|[line ->]];
      repeat split; reflexivity.
Qed.

Section UsersProperties.
Context (NewId : nat → string).

Lemma transformUser_spec resultUsers t user :
  ∃ newUser t',
    transformUser NewId (resultUsers, t) user = (<[userKey user := newUser]> resultUsers, t') ∧
    iu_Id newUser = userKey user ∧ iu_Email newUser ≠ "" ∧
    UserOverrides t' = UserOverrides t ∧ ChannelOverrides t' = ChannelOverrides t ∧
    idsDrawn t' = S (idsDrawn t).
Proof.
  unfold transformUser.
  set (raw := if su_IsBot user then _ else _).
  assert (iu_Id raw = userKey user) as Hraw by (unfold raw, userKey; by destruct (su_IsBot user)).
  destruct (ApplyUserOverrides_frame (drawId t) raw) as (Hid & _ & _ & Huo & Hco & Hn).
  destruct (ApplyUserOverrides (drawId t) raw) as [u1 t1]. simpl in *.
  pose proof (IntermediateUser_Sanitise_Email u1 (Logger t1)) as Hemail.
  assert (iu_Id (IntermediateUser_Sanitise u1 (Logger t1)).1 = iu_Id u1) as Hid2
    by (unfold IntermediateUser_Sanitise; by case_decide).
  destruct (IntermediateUser_Sanitise u1 (Logger t1)) as [u2 logger]. simpl in *.
  exists u2. eexists. split; [by rewrite Hid2, Hid, Hraw|].
  repeat split; try done; congruence.
Qed.

Lemma transformUsers_spec users : ∀ resultUsers t,
  (∀ k u, resultUsers !! k = Some u → iu_Id u = k ∧ iu_Email u ≠ "") →
  ∃ resultUsers' t',
    foldl (transformUser NewId) (resultUsers, t) users = (resultUsers', t') ∧
    (∀ k u, resultUsers' !! k = Some u → iu_Id u = k ∧ iu_Email u ≠ "") ∧
    (∀ k, is_Some (resultUsers' !! k) ↔ is_Some (resultUsers !! k) ∨ k ∈ userKey <$> users) ∧
    UserOverrides t' = UserOverrides t ∧ ChannelOverrides t' = ChannelOverrides t ∧
    idsDrawn t' = (idsDrawn t + length users)%nat.
Proof.
  induction users as [|user users IH]; intros resultUsers t Hinv; cbn [foldl].
  - exists resultUsers, t. split; [done|]. split; [done|]. split.
    { intros k. simpl. rewrite elem_of_nil. tauto. }
    simpl. repeat split; lia.
  - destruct (transformUser_spec resultUsers t user)
      as (newUser & t1 & -> & Hid & Hemail & Huo & Hco & Hn).
    destruct (IH (<[userKey user := newUser]> resultUsers) t1)
      as (r' & t' & -> & Hinv' & Hkeys & Huo' & Hco' & Hn').
    { intros k u. rewrite lookup_insert. case_decide; [|by apply Hinv].
      intros [= <-]. by subst. }
    exists r', t'. split; [done|]. split; [done|]. split.
    { intros k. rewrite Hkeys, lookup_insert.
      change (k ∈ userKey <$> user :: users)
        with (k ∈ userKey user :: (userKey <$> users)). rewrite elem_of_cons.
      case_decide; naive_solver. }
    split; [congruence|]. split; [congruence|]. rewrite Hn', Hn. simpl. lia.
Qed.

(** X11. [TransformUsers] replaces the user index by one entry per key
    of the raw users (the bot id for a bot, the user id otherwise): every
    entry is filed under its own id and has an email address; one password
    is drawn per raw user and the override tables are left as they are. *)
Theorem TransformUsers_spec t users :
  (∀ k u, UsersById (TransformUsers NewId t users) !! k = Some u →
          iu_Id u = k ∧ iu_Email u ≠ "") ∧
  (∀ k, is_Some (UsersById (TransformUsers NewId t users) !! k) ↔ k ∈ userKey <$> users) ∧
  UserOverrides (TransformUsers NewId t users) = UserOverrides t ∧
  ChannelOverrides (TransformUsers NewId t users) = ChannelOverrides t ∧
  idsDrawn (TransformUsers NewId t users) = (idsDrawn t + length users)%nat.
Proof.
  unfold TransformUsers.
  destruct (transformUsers_spec users ∅ (logged (Info "Transforming users") t))
    as (r' & t' & -> & Hinv & Hkeys & Huo & Hco & Hn); [by intros k u|].
  simpl. split; [done|]. split; [|done].
  intros k. rewrite Hkeys, lookup_empty. split; [by intros [[? ?]|?]|by right].
Qed.
End UsersProperties.

Lemma TransformUsers_spec_witness :
  is_Some (UsersById (TransformUsers sampleNewId (transformerWith ∅ ∅ ∅)
                        [slackAlice; slackDeployBot]) !! "B7").
Proof.
  apply (proj1 (proj2 (TransformUsers_spec sampleNewId (transformerWith ∅ ∅ ∅)
                         [slackAlice; slackDeployBot]))).
  vm_compute. right. left.
Defined.
